(** * The asynchronous front-end of the Aphrodite engine

  A shallow embedding of [aphrodite/engine/async_aphrodite.py]:
  [AsyncStream], [RequestTracker], the multi-step part of
  [_AsyncAphrodite] and the life cycle of [AsyncAphrodite].

  Python objects that are shared and mutated in place (the streams, which
  the tracker and the consumer both hold) live in an explicit store and are
  named by their allocation index.  Logging ([verbose], [logger]) has no
  effect on the state and is left out. *)

From stdpp Require Import gmap strings list fin_maps.
From Stdlib Require Import ZArith QArith Lia.

#[local] Close Scope Q_scope.
#[local] Open Scope nat_scope.

Set Default Proof Using "Type".

(** ** Python values and exceptions *)

(** An output of the engine for one request ([RequestOutput] or
  [EmbeddingRequestOutput]); only [request_id] and [finished] are read by
  the front-end, the rest is an opaque payload. *)
Record RequestOutput := mkOutput {
  out_request_id : string;
  out_finished : bool;
  out_payload : string;
}.

(** What can be raised: an exception class (as in
  [stream.finish(asyncio.CancelledError)]) or an exception instance. *)
Inductive Raisable :=
| ExcClass (cls : string)
| ExcInstance (cls : string) (msg : string).

(** The values that reach a stream.  [PySentinel] is the one object bound to
  the module-level name [STOP_ITERATION = Exception()]. *)
Inductive PyValue :=
| PyNone
| PyOutput (o : RequestOutput)
| PyExc (e : Raisable)
| PySentinel.

Definition STOP_ITERATION : PyValue := PySentinel.

Definition CancelledError : Raisable := ExcClass "CancelledError".

Global Instance RequestOutput_eq_dec : EqDecision RequestOutput.
Proof. solve_decision. Defined.
Global Instance Raisable_eq_dec : EqDecision Raisable.
Proof. solve_decision. Defined.
Global Instance PyValue_eq_dec : EqDecision PyValue.
Proof. solve_decision. Defined.

(** [raise] of a class raises an instance of it, made without
    arguments: what an [except] clause binds is always an instance. *)
Definition raised (e : Raisable) : Raisable :=
  match e with
  | ExcClass cls => ExcInstance cls ""
  | ExcInstance _ _ => e
  end.

(** The argument of [finish] and [abort_request]:
  [Optional[Union[BaseException, Type[BaseException]]]]. *)
Definition of_exception (exception : option Raisable) : PyValue :=
  match exception with
  | None => PyNone
  | Some e => PyExc e
  end.

(** ** AsyncStream *)

Module Stream.

Record AsyncStream := mkStream {
  request_id : string;
  _queue : list PyValue;      (* asyncio.Queue, oldest item first *)
  _finished : bool;
}.

(** [AsyncStream.__init__]; the [cancel] callback is the tracker's
    [abort_request] and is modelled where the tracker is. *)
Definition init (rid : string) : AsyncStream :=
  {| request_id := rid; _queue := []; _finished := false |}.

Definition _is_raisable (value : PyValue) : bool :=
  match value with
  | PyExc _ | PySentinel => true
  | PyNone | PyOutput _ => false
  end.

Definition put (item : PyValue) (s : AsyncStream) : AsyncStream :=
  if negb (_finished s)
  then {| request_id := request_id s;
          _queue := _queue s ++ [item];
          _finished := _finished s |}
  else s.

Definition finish (exception : PyValue) (s : AsyncStream) : AsyncStream :=
  if negb (_finished s)
  then {| request_id := request_id s;
          _queue := _queue s ++
                    [if _is_raisable exception then exception
                     else STOP_ITERATION];
          _finished := true |}
  else s.

Definition finished (s : AsyncStream) : bool := _finished s.

(** What one resumption of [generator] shows to the consumer. *)
Inductive Observation :=
| Yielded (result : PyValue)
| Returned
| Raised (result : PyValue).

Definition terminal (o : Observation) : bool :=
  match o with
  | Yielded _ => false
  | Returned | Raised _ => true
  end.

(** One turn of the [while True] loop of [generator]: [None] when
    [await self._queue.get()] has nothing to return yet. *)
Definition generator_next (s : AsyncStream)
  : option (Observation * AsyncStream) :=
  match _queue s with
  | [] => None
  | result :: rest =>
      let s' := {| request_id := request_id s;
                   _queue := rest;
                   _finished := _finished s |} in
      if _is_raisable result
      then if decide (result = STOP_ITERATION)
           then Some (Returned, s')
           else Some (Raised result, s')
      else Some (Yielded result, s')
  end.

(** Where the generator stands between two calls of its consumer: not yet
    resumed, suspended at its [yield] after an item, or done (it has
    returned or raised).  Closing it ([aclose()], or the finalizer of a
    generator that was dropped) throws [GeneratorExit] into it only where
    it is suspended at the [yield]; a generator that was never resumed or
    that is done is closed without running any of its code. *)
Inductive Suspension :=
| NotStarted
| AtYield
| Exhausted.


(** The consumer of the generator: what it has seen, and whether the
    generator has returned or raised (after which it is exhausted). *)
Record Consumer := mkConsumer {
  observed : list Observation;
  exhausted : bool;
}.

Definition consumer_init : Consumer :=
  {| observed := []; exhausted := false |}.

(** The calls of the producer, typed as the tracker makes them: [put] of
    an output, [finish] with the optional exception. *)
Inductive ProducerCall :=
| Put (o : RequestOutput)
| Finish (exception : option Raisable).

Inductive Event :=
| Produce (c : ProducerCall)
| Consume.

Definition produce (c : ProducerCall) (s : AsyncStream) : AsyncStream :=
  match c with
  | Put o => put (PyOutput o) s
  | Finish e => finish (of_exception e) s
  end.

Definition consume (sc : AsyncStream * Consumer) : AsyncStream * Consumer :=
  let '(s, c) := sc in
  if exhausted c then sc
  else match generator_next s with
       | None => sc
       | Some (o, s') =>
           (s', {| observed := observed c ++ [o];
                   exhausted := terminal o |})
       end.

Definition step (sc : AsyncStream * Consumer) (e : Event)
  : AsyncStream * Consumer :=
  match e with
  | Produce c => (produce c sc.1, sc.2)
  | Consume => consume sc
  end.


Fixpoint consume_n (n : nat) (sc : AsyncStream * Consumer)
  : AsyncStream * Consumer :=
  match n with
  | O => sc
  | S n' => consume_n n' (consume sc)
  end.

(** *** What the consumer is promised, in the words of the specification *)






(** The items that the calls leave for the consumer, and how [generator]
  shows an item: used to relate the queue to [expected]. *)
Definition finish_item (exception : option Raisable) : PyValue :=
  if _is_raisable (of_exception exception) then of_exception exception
  else STOP_ITERATION.




End Stream.

(** ** Results of calls that may raise *)

Inductive Result (A : Type) :=
| Ok (a : A)
| Raise (e : Raisable).
Arguments Ok {A} a.
Arguments Raise {A} e.

Global Instance Result_ret : MRet Result := fun A a => Ok a.
Global Instance Result_bind : MBind Result := fun A B k m =>
  match m with
  | Ok a => k a
  | Raise e => Raise e
  end.

(** ** RequestTracker *)

Module Tracker.

(** The keyword arguments that [AsyncAphrodite.add_request] hands over for
    the engine; the payloads are opaque to the front-end. *)
Record EngineAddRequestKwargs := mkKwargs {
  inputs : string;
  params : string;
  arrival_time : Z;
  lora_request : option string;
  prompt_adapter_request : option string;
}.

(** The dict [{"request_id": request_id, **engine_add_request_kwargs}]. *)
Record NewRequest := mkNewRequest {
  nr_request_id : string;
  nr_kwargs : EngineAddRequestKwargs;
}.

Global Instance EngineAddRequestKwargs_eq_dec : EqDecision EngineAddRequestKwargs.
Proof. solve_decision. Defined.
Global Instance NewRequest_eq_dec : EqDecision NewRequest.
Proof. solve_decision. Defined.

(** The fields of the tracker; streams are held by reference (their index
    in the store). *)
Record RequestTracker := mkTracker {
  _request_streams : gmap string nat;
  _aborted_requests : list string;            (* asyncio.Queue[str] *)
  _new_requests : list (nat * NewRequest);    (* asyncio.Queue[(stream, dict)] *)
  new_requests_event : bool;                  (* asyncio.Event *)
}.

(** [RequestTracker.__init__] *)
Definition init : RequestTracker :=
  {| _request_streams := ∅; _aborted_requests := [];
     _new_requests := []; new_requests_event := false |}.

(** The store of stream objects together with the tracker that refers to
    them. *)
Record State := mkState {
  heap : list Stream.AsyncStream;
  tracker : RequestTracker;
}.

Definition init_state : State := {| heap := []; tracker := init |}.

Definition streams (st : State) : gmap string nat :=
  _request_streams (tracker st).
Definition pending_new (st : State) : list (nat * NewRequest) :=
  _new_requests (tracker st).
Definition pending_abort (st : State) : list string :=
  _aborted_requests (tracker st).

(** [__contains__] and [__len__] *)
Definition contains (item : string) (st : State) : bool :=
  bool_decide (is_Some (streams st !! item)).
Definition len (st : State) : nat := size (streams st).

(** [stream.finish(exception)] on the stream object behind a reference. *)
Definition finish_at (stream : nat) (exception : PyValue)
    (h : list Stream.AsyncStream) : list Stream.AsyncStream :=
  alter (Stream.finish exception) stream h.

Definition abort_request (request_id : string) (exception : option Raisable)
    (st : State) : State :=
  let t := tracker st in
  let aborted := _aborted_requests t ++ [request_id] in
  (* stream = self._request_streams.pop(request_id, None) *)
  match _request_streams t !! request_id with
  | Some stream =>
      {| heap := finish_at stream (of_exception exception) (heap st);
         tracker := {| _request_streams := delete request_id (_request_streams t);
                       _aborted_requests := aborted;
                       _new_requests := _new_requests t;
                       new_requests_event := new_requests_event t |} |}
  | None =>
      {| heap := heap st;
         tracker := {| _request_streams := _request_streams t;
                       _aborted_requests := aborted;
                       _new_requests := _new_requests t;
                       new_requests_event := new_requests_event t |} |}
  end.

(** The keys of the dict, as [tuple(self._request_streams.keys())] takes
    them before the loop.  The order of the keys shows only in the order of
    the abort queue, which is read back into a set. *)
Definition keys (m : gmap string nat) : list string := (map_to_list m).*1.

Definition propagate_exception (exc : Raisable) (request_id : option string)
    (st : State) : State :=
  match request_id with
  | Some rid => abort_request rid (Some exc) st
  | None =>
      fold_left (fun st rid => abort_request rid (Some exc) st)
                (keys (streams st)) st
  end.

Definition process_request_output (request_output : RequestOutput)
    (st : State) : State :=
  let t := tracker st in
  let request_id := out_request_id request_output in
  let finished := out_finished request_output in
  let stream := _request_streams t !! request_id in
  let streams' := if finished then delete request_id (_request_streams t)
                  else _request_streams t in
  {| heap :=
       match stream with
       | Some r =>
           alter (fun s =>
                    let s := Stream.put (PyOutput request_output) s in
                    if finished then Stream.finish PyNone s else s)
                 r (heap st)
       | None => heap st
       end;
     tracker := {| _request_streams := streams';
                   _aborted_requests := _aborted_requests t;
                   _new_requests := _new_requests t;
                   new_requests_event := new_requests_event t |} |}.

Definition process_exception (request_id : string) (exception : Raisable)
    (st : State) : State :=
  abort_request request_id (Some exception) st.

Definition KeyError (request_id : string) : Raisable :=
  ExcInstance "KeyError" ("Request " +:+ request_id +:+ " already exists.").

(** Returns the reference of the new stream. *)
Definition add_request (request_id : string)
    (engine_add_request_kwargs : EngineAddRequestKwargs) (st : State)
    : Result (nat * State) :=
  let t := tracker st in
  if bool_decide (is_Some (_request_streams t !! request_id))
  then Raise (KeyError request_id)
  else
    let stream := length (heap st) in
    Ok (stream,
        {| heap := heap st ++ [Stream.init request_id];
           tracker := {| _request_streams := _request_streams t;
                         _aborted_requests := _aborted_requests t;
                         _new_requests :=
                           _new_requests t ++
                           [(stream, {| nr_request_id := request_id;
                                        nr_kwargs := engine_add_request_kwargs |})];
                         new_requests_event := true |} |}).

(** The state of the second loop of [get_new_and_aborted_requests]. *)
Record Drain := mkDrain {
  d_heap : list Stream.AsyncStream;
  d_streams : gmap string nat;
  new_requests : list NewRequest;
  finished_requests : gset string;
}.

(** One turn of that loop, for the entry [(stream, new_request)] taken from
    the queue.  A reference always points into the store; the first branch
    is there to make the function total. *)
Definition drain_one (d : Drain) (entry : nat * NewRequest) : Drain :=
  let '(stream, new_request) := entry in
  match d_heap d !! stream with
  | None => d
  | Some s =>
      let request_id := Stream.request_id s in
      if bool_decide (request_id ∈ finished_requests d)
      then {| d_heap := finish_at stream (PyExc CancelledError) (d_heap d);
              d_streams := d_streams d;
              new_requests := new_requests d;
              finished_requests := finished_requests d ∖ {[request_id]} |}
      else {| d_heap := d_heap d;
              d_streams := <[request_id := stream]> (d_streams d);
              new_requests := new_requests d ++ [new_request];
              finished_requests := finished_requests d |}
  end.

Arguments drain_one : simpl never.

Definition drain_start (st : State) : Drain :=
  {| d_heap := heap st;
     d_streams := streams st;
     new_requests := [];
     finished_requests := list_to_set (pending_abort st) |}.

Definition drain_loop (st : State) : Drain :=
  fold_left drain_one (pending_new st) (drain_start st).

Definition get_new_and_aborted_requests (st : State)
    : (list NewRequest * gset string) * State :=
  let d := drain_loop st in
  ((new_requests d, finished_requests d),
   {| heap := d_heap d;
      tracker := {| _request_streams := d_streams d;
                    _aborted_requests := [];
                    _new_requests := [];
                    new_requests_event := new_requests_event (tracker st) |} |}).

Definition has_new_requests (st : State) : bool :=
  negb (bool_decide (pending_new st = [])).

(** [wait_for_new_requests]: [None] while the coroutine is suspended in
    [new_requests_event.wait()]. *)
Definition wait_for_new_requests (st : State) : option State :=
  let t := tracker st in
  if has_new_requests st || new_requests_event t
  then Some {| heap := heap st;
               tracker := {| _request_streams := _request_streams t;
                             _aborted_requests := _aborted_requests t;
                             _new_requests := _new_requests t;
                             new_requests_event := false |} |}
  else None.

(** The consumer side of a stream held in the store: one resumption of its
    generator, and its closing.  The [GeneratorExit] branch runs only when
    the generator is closed where it is suspended at its [yield]; there
    [self._cancel] is the tracker's [abort_request] applied to the stream's
    own id. *)
Definition generator_next (stream : nat) (st : State)
    : option (Stream.Observation * State) :=
  s ← heap st !! stream;
  '(o, s') ← Stream.generator_next s;
  Some (o, {| heap := <[stream := s']> (heap st); tracker := tracker st |}).

Definition generator_exit (suspension : Stream.Suspension) (stream : nat)
    (st : State) : State :=
  match suspension, heap st !! stream with
  | Stream.AtYield, Some s => abort_request (Stream.request_id s) None st
  | _, _ => st
  end.

(** The calls that can reach a tracker, for statements over every
    history.  [CallExit] carries where the generator stands when it is
    closed, which is for its consumer to know; a history may close a
    generator at any of the three, so that the histories taken are all
    those that can occur, and more. *)
Inductive Call :=
| CallAdd (request_id : string) (kwargs : EngineAddRequestKwargs)
| CallAbort (request_id : string) (exception : option Raisable)
| CallDrain
| CallOutput (request_output : RequestOutput)
| CallException (request_id : string) (exception : Raisable)
| CallPropagate (exc : Raisable) (request_id : option string)
| CallWait
| CallNext (stream : nat)
| CallExit (suspension : Stream.Suspension) (stream : nat).

Definition call (st : State) (c : Call) : State :=
  match c with
  | CallAdd rid kw =>
      match add_request rid kw st with
      | Ok (_, st') => st'
      | Raise _ => st
      end
  | CallAbort rid e => abort_request rid e st
  | CallDrain => (get_new_and_aborted_requests st).2
  | CallOutput o => process_request_output o st
  | CallException rid e => process_exception rid e st
  | CallPropagate e rid => propagate_exception e rid st
  | CallWait => default st (wait_for_new_requests st)
  | CallNext r => default st (snd <$> generator_next r st)
  | CallExit suspension r => generator_exit suspension r st
  end.

Definition calls (cs : list Call) (st : State) : State :=
  fold_left call cs st.

(** The ids of the requests waiting in [_new_requests]. *)
Definition pending_ids (st : State) : list string :=
  (nr_request_id ∘ snd) <$> pending_new st.

(** What holds of every state the calls above can produce: a registered
    stream is a live object that is not finished and carries the id it is
    registered under; a stream waiting in [_new_requests] is as [__init__]
    left it, waits there once, and its id is not registered. *)
Record wf (st : State) : Prop := mkWf {
  wf_live : forall rid r, streams st !! rid = Some r ->
    exists s, heap st !! r = Some s /\ Stream.request_id s = rid
              /\ Stream._finished s = false;
  wf_fresh : forall r nr, (r, nr) ∈ pending_new st ->
    heap st !! r = Some (Stream.init (nr_request_id nr));
  wf_nodup : NoDup (pending_new st).*1;
  wf_unregistered : forall r nr, (r, nr) ∈ pending_new st ->
    streams st !! nr_request_id nr = None;
}.

(** What holds of the second loop of [get_new_and_aborted_requests] while
    the entries [l] are still in the queue. *)
Record drain_ok (d : Drain) (l : list (nat * NewRequest)) : Prop := mkDrainOk {
  dok_live : forall rid r, d_streams d !! rid = Some r ->
    exists s, d_heap d !! r = Some s /\ Stream.request_id s = rid
              /\ Stream._finished s = false;
  dok_fresh : forall r nr, (r, nr) ∈ l ->
    d_heap d !! r = Some (Stream.init (nr_request_id nr));
  dok_nodup : NoDup l.*1;
  dok_apart : forall r nr rid, (r, nr) ∈ l -> d_streams d !! rid <> Some r;
}.

(** The tracker has let go of the stream [r], whose queue is empty: it is
    neither registered nor waiting. *)
Definition forgotten (st : State) (r : nat) (s : Stream.AsyncStream) : Prop :=
  heap st !! r = Some s /\ Stream._queue s = [] /\
  (forall rid, streams st !! rid <> Some r) /\
  r ∉ (pending_new st).*1.

(** C1 as a statement about one id at one drain: the abort wins. *)
Definition abort_wins (st : State) (rid : string) : Prop :=
  let d := get_new_and_aborted_requests st in
  (forall r nr, (r, nr) ∈ pending_new st -> nr_request_id nr = rid ->
     heap d.2 !! r =
     Some {| Stream.request_id := rid;
             Stream._queue := [PyExc CancelledError];
             Stream._finished := true |}) /\
  streams d.2 !! rid = None /\
  (forall nr, nr ∈ d.1.1 -> nr_request_id nr <> rid) /\
  rid ∉ d.1.2.

(** Some keyword arguments and a history for examples: the id [r1] is
    submitted twice before the loop drains the queues, then aborted. *)
(** C10 as it is worded, for an id whose first request waits with the
    stream [s1]: the id is accepted again, and at the next drain the later
    stream is the registered one while the earlier stream is never
    finished. *)
Definition resubmit_overwrites (st : State) (rid : string)
    (kw : EngineAddRequestKwargs) (s1 : nat) : Prop :=
  exists s2 st1,
    add_request rid kw st = Ok (s2, st1) /\
    let d := get_new_and_aborted_requests st1 in
    streams d.2 !! rid = Some s2 /\
    forall cs s, heap (calls cs d.2) !! s1 = Some s ->
                 Stream._finished s = false.

Definition kwargs0 : EngineAddRequestKwargs :=
  {| inputs := "hi"; params := ""; arrival_time := 0;
     lora_request := None; prompt_adapter_request := None |}.

Definition twice_then_abort : State :=
  calls [CallAdd "r1" kwargs0; CallAdd "r1" kwargs0; CallAbort "r1" None]
        init_state.

Definition once_then_abort : State :=
  calls [CallAdd "r1" kwargs0; CallAbort "r1" None] init_state.

Definition once : State := calls [CallAdd "r1" kwargs0] init_state.

(** An output, for examples. *)
Definition out (rid payload : string) (finished : bool) : RequestOutput :=
  {| out_request_id := rid; out_finished := finished; out_payload := payload |}.

(** What the consumer of the stream [r] observes if it reads until the
    queue is empty. *)
Definition observes (r : nat) (st : State) : option (list Stream.Observation) :=
  s ← heap st !! r;
  Some (Stream.observed
          (Stream.consume_n (length (Stream._queue s))
                            (s, Stream.consumer_init)).2).

(** The id was registered in [_request_streams] at some point of the
    history [cs] of a tracker. *)
Definition ever_registered (cs : list Call) (rid : string) : Prop :=
  exists n, is_Some (streams (calls (take n cs) init_state) !! rid).

End Tracker.

(** ** _AsyncAphrodite: the engine with its multi-step cache *)

Module Engine.

Definition Tensor := list Z.

(** The fields of [SamplerOutput] that the front-end reads. *)
Record SamplerOutput := mkSamplerOutput {
  sampled_token_ids_cpu : option Tensor;
  sampled_token_ids : option Tensor;
  sampled_token_probs : option Tensor;
}.

(** What [AphroditeEngine], the scheduler, the executor and
    [aphrodite.common.sequence] provide.  Their sources are not part of the
    front-end; they are taken as parameters.  [Ext] is the state behind the
    interface.  A call that may raise returns a [Result]. *)
Class External := {
  SequenceGroupMetadata : Type;
  SchedulerOutputs : Type;
  Ext : Type;
  (* seq_group.state.remaining_steps *)
  remaining_steps : SequenceGroupMetadata -> Z;
  (* seq_group.finish_step(), which updates the group in place *)
  finish_step : SequenceGroupMetadata -> Result SequenceGroupMetadata;
  num_lookahead_slots : SchedulerOutputs -> Z;
  is_empty : SchedulerOutputs -> bool;
  (* self.scheduler[virtual_engine].schedule() *)
  schedule : nat -> Ext ->
    Result (list SequenceGroupMetadata * SchedulerOutputs * Ext);
  (* self.scheduler[virtual_engine].get_and_reset_finished_requests_ids() *)
  get_and_reset_finished_requests_ids : nat -> Ext ->
    Result (list string * Ext);
  (* self.model_executor.execute_model_async(execute_model_req), given the
     request's fields that do not come from scheduler_outputs *)
  execute_model_async :
    list SequenceGroupMetadata -> SchedulerOutputs -> nat ->
    list string -> option Tensor -> Ext ->
    Result (list (option SamplerOutput) * Ext);
  _process_model_outputs :
    list (option SamplerOutput) -> SchedulerOutputs ->
    list SequenceGroupMetadata -> Ext -> Result (list RequestOutput * Ext);
  do_log_stats : SchedulerOutputs -> list (option SamplerOutput) -> Ext ->
    Result Ext;
  (* process_model_inputs_async followed by _add_processed_request: the
     state it leaves and the exception it raised, if any *)
  add_processed_request : Tracker.NewRequest -> Ext -> Ext * option Raisable;
  (* the remote engine's add_request and step, when the engine is a Ray
     actor *)
  add_request_remote : Tracker.NewRequest -> Ext -> Ext * option Raisable;
  step_remote : Ext -> Result (list RequestOutput * Ext);
  abort_request : gset string -> Ext -> Result Ext;
  has_unfinished_requests_for_virtual_engine : nat -> Ext -> bool;
  stop_remote_worker_execution_loop : Ext -> Result Ext;
  check_health : Ext -> Result Ext;
  (* issubclass(cls, ValueError), for the classes of the exceptions that
     these raise other than ValueError itself *)
  subclass_of_ValueError : string -> bool;
}.

Section WithExternal.
Context `{External}.

(** Caches the scheduler outputs for a virtual engine. *)
Record SchedulerOutputState := mkSchedulerOutputState {
  last_output : option SamplerOutput;
  seq_group_metadata_list : option (list SequenceGroupMetadata);
  scheduler_outputs : option SchedulerOutputs;
}.

Definition SchedulerOutputState_init : SchedulerOutputState :=
  {| last_output := None; seq_group_metadata_list := None;
     scheduler_outputs := None |}.

Record _AsyncAphrodite := mkEngine {
  is_multi_step : bool;              (* scheduler_config.is_multi_step *)
  pipeline_parallel_size : nat;      (* parallel_config.pipeline_parallel_size *)
  lora_config : option string;
  cached_scheduler_outputs : list SchedulerOutputState;
  ext : Ext;
}.

Definition init (multi_step : bool) (pp : nat) (lora : option string)
    (x : Ext) : _AsyncAphrodite :=
  {| is_multi_step := multi_step; pipeline_parallel_size := pp;
     lora_config := lora;
     cached_scheduler_outputs := replicate pp SchedulerOutputState_init;
     ext := x |}.

Definition set_ext (x : Ext) (e : _AsyncAphrodite) : _AsyncAphrodite :=
  {| is_multi_step := is_multi_step e;
     pipeline_parallel_size := pipeline_parallel_size e;
     lora_config := lora_config e;
     cached_scheduler_outputs := cached_scheduler_outputs e;
     ext := x |}.

Definition set_cache (c : list SchedulerOutputState) (e : _AsyncAphrodite)
    : _AsyncAphrodite :=
  {| is_multi_step := is_multi_step e;
     pipeline_parallel_size := pipeline_parallel_size e;
     lora_config := lora_config e;
     cached_scheduler_outputs := c;
     ext := ext e |}.

Definition AssertionError (msg : string) : Raisable :=
  ExcInstance "AssertionError" msg.
Definition IndexError : Raisable :=
  ExcInstance "IndexError" "list index out of range".
Definition ValueError (msg : string) : Raisable :=
  ExcInstance "ValueError" msg.

Definition remaining_steps_error : Raisable :=
  AssertionError
    "All running sequence groups should have the same remaining steps.".

Definition _has_remaining_steps (e : _AsyncAphrodite)
    (seq_group_metadata_list : option (list SequenceGroupMetadata))
    : Result bool :=
  match seq_group_metadata_list with
  | None | Some [] => Ok false
  | Some (first :: rest) =>
      if negb (is_multi_step e) then Ok false
      else
        let ref_remaining_steps := remaining_steps first in
        if existsb (fun seq_group =>
                      negb (remaining_steps seq_group =? ref_remaining_steps)%Z)
                   rest
        then Raise remaining_steps_error
        else Ok (0 <? ref_remaining_steps)%Z
  end.

Definition _cache_scheduler_outputs_for_multi_step (virtual_engine : nat)
    (seq_group_metadata_list : option (list SequenceGroupMetadata))
    (scheduler_outputs : SchedulerOutputs) (e : _AsyncAphrodite)
    : _AsyncAphrodite :=
  set_cache
    (alter (fun _ => {| last_output := None;
                        seq_group_metadata_list := seq_group_metadata_list;
                        scheduler_outputs := Some scheduler_outputs |})
           virtual_engine (cached_scheduler_outputs e))
    e.

Definition _get_last_sampled_token_ids (virtual_engine : nat)
    (e : _AsyncAphrodite) : Result (option Tensor) :=
  match cached_scheduler_outputs e !! virtual_engine with
  | None => Raise IndexError
  | Some c =>
      match last_output c with
      | Some cached_last_output =>
          if is_multi_step e && bool_decide (1 < pipeline_parallel_size e)
          then Ok (sampled_token_ids_cpu cached_last_output)
          else Ok None
      | None => Ok None
      end
  end.

Definition _update_cached_scheduler_output (virtual_engine : nat)
    (output : list (option SamplerOutput)) (e : _AsyncAphrodite)
    : Result _AsyncAphrodite :=
  match output with
  | Some _ :: _ =>
      if bool_decide (1 < pipeline_parallel_size e)
      then
        match last output with
        | Some (Some last_output) =>
            if bool_decide (is_Some (sampled_token_ids_cpu last_output)
                            /\ sampled_token_ids last_output = None
                            /\ sampled_token_probs last_output = None)
            then
              match cached_scheduler_outputs e !! virtual_engine with
              | None => Raise IndexError
              | Some c =>
                  Ok (set_cache
                        (<[virtual_engine :=
                             {| last_output := Some last_output;
                                seq_group_metadata_list :=
                                  seq_group_metadata_list c;
                                scheduler_outputs := scheduler_outputs c |}]>
                           (cached_scheduler_outputs e))
                        e)
              end
            else Raise (AssertionError "")
        | _ => Raise (AssertionError "")
        end
      else Ok e
  | _ => Ok e
  end.

(** [for seq_group in seq_group_metadata_list: seq_group.finish_step()] *)
Fixpoint finish_steps (l : list SequenceGroupMetadata)
    : Result (list SequenceGroupMetadata) :=
  match l with
  | [] => Ok []
  | seq_group :: l' =>
      seq_group' ← finish_step seq_group;
      l'' ← finish_steps l';
      Ok (seq_group' :: l'')
  end.

Definition assert_not_none {A} (o : option A) : Result A :=
  match o with
  | Some a => Ok a
  | None => Raise (AssertionError "")
  end.

(** The local variables of [step_async] when it reaches the comment
    "Finish the current step for all the sequence groups" and has finished
    them.  [aliased] records whether the cache entry of the virtual engine
    holds the very list object the step works on (it was taken from the
    cache, or was put there by this step), so that [finish_step], which
    updates the groups in place, shows in the cache as well. *)
Record StepLocals := mkStepLocals {
  sl_seq_group_metadata_list : list SequenceGroupMetadata;
  sl_scheduler_outputs : SchedulerOutputs;
  sl_output : list (option SamplerOutput);
  sl_engine : _AsyncAphrodite;
}.

Definition write_back (virtual_engine : nat) (aliased : bool)
    (l : list SequenceGroupMetadata) (e : _AsyncAphrodite) : _AsyncAphrodite :=
  if aliased
  then set_cache
         (alter (fun c => {| last_output := last_output c;
                             seq_group_metadata_list := Some l;
                             scheduler_outputs := scheduler_outputs c |})
                virtual_engine (cached_scheduler_outputs e))
         e
  else e.

(** The parts of [step_async], in the order of its text.  First: skip the
    scheduler if there are remaining steps in the cached groups, else
    schedule, and cache the schedule if it has lookahead slots. *)
Definition step_schedule (virtual_engine : nat) (e : _AsyncAphrodite)
    (cached_outputs : SchedulerOutputState)
    : Result (option (list SequenceGroupMetadata) * option SchedulerOutputs
              * bool * _AsyncAphrodite) :=
  remaining ← _has_remaining_steps e (seq_group_metadata_list cached_outputs);
  if negb remaining
  then
    '(l, so, x) ← schedule virtual_engine (ext e);
    let e := set_ext x e in
    if is_multi_step e && (0 <? num_lookahead_slots so)%Z
    then Ok (Some l, Some so, true,
             _cache_scheduler_outputs_for_multi_step
               virtual_engine (Some l) so e)
    else Ok (Some l, Some so, false, e)
  else Ok (seq_group_metadata_list cached_outputs,
           scheduler_outputs cached_outputs, true, e).

(** Second: execute the model unless the schedule is empty. *)
Definition step_execute (virtual_engine : nat)
    (l : list SequenceGroupMetadata) (so : SchedulerOutputs)
    (e : _AsyncAphrodite)
    : Result (list (option SamplerOutput) * _AsyncAphrodite) :=
  if negb (is_empty so)
  then
    '(finished_requests_ids, x) ←
      get_and_reset_finished_requests_ids virtual_engine (ext e);
    let e := set_ext x e in
    last_sampled_token_ids ← _get_last_sampled_token_ids virtual_engine e;
    '(output, x) ←
      execute_model_async l so virtual_engine finished_requests_ids
                          last_sampled_token_ids (ext e);
    let e := set_ext x e in
    e ← (if is_multi_step e
         then _update_cached_scheduler_output virtual_engine output e
         else Ok e);
    Ok (output, e)
  else Ok ([], e).

(** Third: finish the current step for all the sequence groups. *)
Definition step_finish (virtual_engine : nat) (aliased : bool)
    (l : list SequenceGroupMetadata) (e : _AsyncAphrodite)
    : Result (list SequenceGroupMetadata * _AsyncAphrodite) :=
  if is_multi_step e
  then l' ← finish_steps l;
       Ok (l', write_back virtual_engine aliased l' e)
  else Ok (l, e).

(** [step_async] from its start to the end of the loop over
    [finish_step]. *)
Definition step_async_execute (virtual_engine : nat) (e : _AsyncAphrodite)
    : Result StepLocals :=
  cached_outputs ← match cached_scheduler_outputs e !! virtual_engine with
                   | Some c => Ok c
                   | None => Raise IndexError
                   end;
  '(l, so, aliased, e) ← step_schedule virtual_engine e cached_outputs;
  l ← assert_not_none l;
  so ← assert_not_none so;
  '(output, e) ← step_execute virtual_engine l so e;
  '(l, e) ← step_finish virtual_engine aliased l e;
  Ok {| sl_seq_group_metadata_list := l; sl_scheduler_outputs := so;
        sl_output := output; sl_engine := e |}.

Definition clear_cache (virtual_engine : nat) (e : _AsyncAphrodite)
    : _AsyncAphrodite :=
  set_cache (<[virtual_engine := SchedulerOutputState_init]>
               (cached_scheduler_outputs e)) e.

(** The rest of [step_async]: materialise the outputs or defer them. *)
Definition step_async_outputs (virtual_engine : nat) (sl : StepLocals)
    : Result (list RequestOutput * _AsyncAphrodite) :=
  let e := sl_engine sl in
  remaining ← _has_remaining_steps e (Some (sl_seq_group_metadata_list sl));
  '(request_outputs, e) ←
    (if negb remaining
     then
       let e := if is_multi_step e then clear_cache virtual_engine e else e in
       '(request_outputs, x) ←
         _process_model_outputs (sl_output sl) (sl_scheduler_outputs sl)
                                (sl_seq_group_metadata_list sl) (ext e);
       Ok (request_outputs, set_ext x e)
     else Ok ([], e));
  x ← do_log_stats (sl_scheduler_outputs sl) (sl_output sl) (ext e);
  Ok (request_outputs, set_ext x e).

Definition step_async (virtual_engine : nat) (e : _AsyncAphrodite)
    : Result (list RequestOutput * _AsyncAphrodite) :=
  sl ← step_async_execute virtual_engine e;
  step_async_outputs virtual_engine sl.

Definition lora_error (lora_request : string) : Raisable :=
  ValueError ("Got lora_request " +:+ lora_request +:+
              " but LoRA is not enabled!").

(** [add_request_async]: the state it leaves and the exception it raised,
    if any.  The default for [arrival_time] belongs to the part behind the
    interface. *)
Definition add_request_async (new_request : Tracker.NewRequest)
    (e : _AsyncAphrodite) : _AsyncAphrodite * option Raisable :=
  match Tracker.lora_request (Tracker.nr_kwargs new_request), lora_config e with
  | Some lora_request, None => (e, Some (lora_error lora_request))
  | _, _ =>
      let '(x, r) := add_processed_request new_request (ext e) in
      (set_ext x e, r)
  end.

(** C8 in the words of the claim: the groups disagree on their remaining
    steps; steps remain. *)
Definition steps_disagree (e : _AsyncAphrodite)
    (l : option (list SequenceGroupMetadata)) : Prop :=
  is_multi_step e = true /\
  exists first rest, l = Some (first :: rest) /\
    exists seq_group, seq_group ∈ rest /\
      remaining_steps seq_group <> remaining_steps first.

Definition steps_remain (e : _AsyncAphrodite)
    (l : option (list SequenceGroupMetadata)) : Prop :=
  is_multi_step e = true /\
  exists first rest, l = Some (first :: rest) /\
    (0 < remaining_steps first)%Z.

(** A step changes neither the configuration nor the number of cache
    entries. *)
Definition same_shape (e e' : _AsyncAphrodite) : Prop :=
  is_multi_step e' = is_multi_step e /\
  lora_config e' = lora_config e /\
  length (cached_scheduler_outputs e') = length (cached_scheduler_outputs e).

End WithExternal.

(** The built-in subclasses of [ValueError]. *)
Definition builtin_subclass_of_ValueError (cls : string) : bool :=
  bool_decide (cls ∈ ["UnicodeError"; "UnicodeDecodeError";
                      "UnicodeEncodeError"; "UnicodeTranslateError"]).

(** An engine for examples.  A sequence group is its number of remaining
    steps, the scheduler outputs are the number of lookahead slots; every
    schedule has two groups with two steps to go; nothing is rejected. *)
Definition example_external : External :=
  {| SequenceGroupMetadata := Z;
     SchedulerOutputs := Z;
     Ext := unit;
     remaining_steps := fun g => g;
     finish_step := fun g => Ok (g - 1)%Z;
     num_lookahead_slots := fun so => so;
     is_empty := fun _ => false;
     schedule := fun _ x => Ok ([2%Z; 2%Z], 1%Z, x);
     get_and_reset_finished_requests_ids := fun _ x => Ok ([], x);
     execute_model_async := fun _ _ _ _ _ x => Ok ([None], x);
     _process_model_outputs := fun _ _ _ x => Ok ([], x);
     do_log_stats := fun _ _ x => Ok x;
     add_processed_request := fun _ x => (x, None);
     add_request_remote := fun _ x => (x, None);
     step_remote := fun x => Ok ([], x);
     abort_request := fun _ x => Ok x;
     has_unfinished_requests_for_virtual_engine := fun _ _ => false;
     stop_remote_worker_execution_loop := fun x => Ok x;
     check_health := fun x => Ok x;
     subclass_of_ValueError := builtin_subclass_of_ValueError |}.

(** With multi-step decoding, one pipeline stage and no LoRA. *)
Definition example_engine : @_AsyncAphrodite example_external :=
  @init example_external true 1 None tt.

End Engine.

(** ** AsyncAphrodite: the supervisor *)

Module Supervisor.

(** [ENGINE_ITERATION_TIMEOUT_S], from the value of the environment
    variable when it is set. *)
Definition ENGINE_ITERATION_TIMEOUT_S (environ : option Z) : Z :=
  default 60%Z environ.

Definition AsyncEngineDeadError (msg : string) : Raisable :=
  ExcInstance "AsyncEngineDeadError" msg.
Definition RuntimeError (msg : string) : Raisable :=
  ExcInstance "RuntimeError" msg.
Definition AttributeError : Raisable :=
  ExcInstance "AttributeError" "_request_tracker".
Definition TimeoutError : Raisable := ExcInstance "TimeoutError" "".

Definition not_running_error : Raisable :=
  AsyncEngineDeadError
    ("Background loop is not running. If it was running, " +:+
     "inspect the output to find the stacktrace of the " +:+
     "error that caused the background loop to stop " +:+
     "(AsyncEngineDeadError).").
Definition errored_error : Raisable :=
  AsyncEngineDeadError "Background loop has errored already.".
Definition unexpected_finish_error : Raisable :=
  AsyncEngineDeadError
    ("Task finished unexpectedly. This should never happen! " +:+
     "Please open an issue on Github. See stack trace above for the " +:+
     "actual cause.").

(** What the other tasks do to the tracker while [engine_step] is
    suspended: at the [await] of each [add_request] (a list of calls for
    each new request, in their order; none for a request beyond the list),
    at the [await] of [_engine_abort], and at the [await] of the step.  The
    submissions, aborts and consumers of the callers are among these tasks,
    and so are the steps of the other virtual engines. *)
Record Awaits := mkAwaits {
  at_add_request : list (list Tracker.Call);
  at_engine_abort : list Tracker.Call;
  at_step : list Tracker.Call;
}.

(** No other task runs while the step is suspended. *)
Definition no_awaits : Awaits :=
  {| at_add_request := []; at_engine_abort := []; at_step := [] |}.

(** The tracker as a step that began with [n] streams in the store can
    leave it: its invariant holds, no stream has left the store, and the
    requests that wait were submitted since, so that their streams are
    none of the first [n]. *)
Definition grown_from (n : nat) (st : Tracker.State) : Prop :=
  Tracker.wf st /\ n <= length (Tracker.heap st) /\
  forall r nr, (r, nr) ∈ Tracker.pending_new st -> n <= r.

(** No other task runs at the [await]s of the first [n] calls of
    [add_request]. *)
Definition quiet (n : nat) (others : list (list Tracker.Call)) : Prop :=
  forall i o, i < n -> others !! i = Some o -> o = [].

(** An asyncio task, as far as [done()] and [result()] show it. *)
Inductive Task :=
| TaskRunning
| TaskReturned
| TaskCancelled
| TaskRaised (e : Raisable).

Definition done (t : Task) : bool :=
  match t with
  | TaskRunning => false
  | _ => true
  end.

(** [Task.cancel()]: nothing happens to a task that is done. *)
Definition cancel (t : Task) : Task :=
  match t with
  | TaskRunning => TaskCancelled
  | _ => t
  end.

Section WithExternal.
Context `{Engine.External}.

(** The attributes of the supervisor, and the objects they refer to: the
    store of streams and the table of background tasks. *)
Record AsyncAphrodite := mkAsyncAphrodite {
  worker_use_ray : bool;
  engine_use_ray : bool;
  log_requests : bool;
  engine : Engine._AsyncAphrodite;
  background_loop : option nat;
  _background_loop_unshielded : option nat;
  start_engine_loop : bool;
  _errored_with : option Raisable;
  _request_tracker : option Tracker.RequestTracker;   (* set lazily *)
  stream_heap : list Stream.AsyncStream;
  tasks : list Task;
}.

(** [__init__] *)
Definition init (worker_use_ray engine_use_ray log_requests
                 start_engine_loop : bool) (e : Engine._AsyncAphrodite)
    : AsyncAphrodite :=
  {| worker_use_ray := worker_use_ray; engine_use_ray := engine_use_ray;
     log_requests := log_requests; engine := e;
     background_loop := None; _background_loop_unshielded := None;
     start_engine_loop := start_engine_loop; _errored_with := None;
     _request_tracker := None; stream_heap := []; tasks := [] |}.

Definition tracker_state (a : AsyncAphrodite) : option Tracker.State :=
  t ← _request_tracker a;
  Some {| Tracker.heap := stream_heap a; Tracker.tracker := t |}.

Definition set_tracker_state (st : Tracker.State) (a : AsyncAphrodite)
    : AsyncAphrodite :=
  {| worker_use_ray := worker_use_ray a; engine_use_ray := engine_use_ray a;
     log_requests := log_requests a; engine := engine a;
     background_loop := background_loop a;
     _background_loop_unshielded := _background_loop_unshielded a;
     start_engine_loop := start_engine_loop a;
     _errored_with := _errored_with a;
     _request_tracker := Some (Tracker.tracker st);
     stream_heap := Tracker.heap st; tasks := tasks a |}.

Definition set_engine (e : Engine._AsyncAphrodite) (a : AsyncAphrodite)
    : AsyncAphrodite :=
  {| worker_use_ray := worker_use_ray a; engine_use_ray := engine_use_ray a;
     log_requests := log_requests a; engine := e;
     background_loop := background_loop a;
     _background_loop_unshielded := _background_loop_unshielded a;
     start_engine_loop := start_engine_loop a;
     _errored_with := _errored_with a;
     _request_tracker := _request_tracker a;
     stream_heap := stream_heap a; tasks := tasks a |}.

Definition set_tasks (ts : list Task) (a : AsyncAphrodite) : AsyncAphrodite :=
  {| worker_use_ray := worker_use_ray a; engine_use_ray := engine_use_ray a;
     log_requests := log_requests a; engine := engine a;
     background_loop := background_loop a;
     _background_loop_unshielded := _background_loop_unshielded a;
     start_engine_loop := start_engine_loop a;
     _errored_with := _errored_with a;
     _request_tracker := _request_tracker a;
     stream_heap := stream_heap a; tasks := ts |}.

Definition is_running (a : AsyncAphrodite) : bool :=
  match background_loop a, _background_loop_unshielded a with
  | Some _, Some t => negb (default true (done <$> tasks a !! t))
  | _, _ => false
  end.

Definition errored (a : AsyncAphrodite) : bool :=
  bool_decide (is_Some (_errored_with a)).

Definition is_stopped (a : AsyncAphrodite) : bool :=
  errored a ||
  match background_loop a, _background_loop_unshielded a with
  | Some _, Some t => default true (done <$> tasks a !! t)
  | _, _ => false
  end.

Definition set_errored (exc : Raisable) (a : AsyncAphrodite) : AsyncAphrodite :=
  {| worker_use_ray := worker_use_ray a; engine_use_ray := engine_use_ray a;
     log_requests := log_requests a; engine := engine a;
     background_loop := background_loop a;
     _background_loop_unshielded := _background_loop_unshielded a;
     start_engine_loop := start_engine_loop a;
     _errored_with := Some exc;
     _request_tracker := _request_tracker a;
     stream_heap := stream_heap a; tasks := tasks a |}.

(** A call on the supervisor leaves a state and either returns or
    raises. *)
Definition _error_callback (exc : Raisable) (a : AsyncAphrodite)
    : AsyncAphrodite * Result unit :=
  let a := set_errored exc a in
  match tracker_state a with
  | None => (a, Raise AttributeError)
  | Some st =>
      (set_tracker_state (Tracker.propagate_exception exc None st) a, Ok ())
  end.

(** The done callback of the background task, given how the task ended. *)
Definition _log_task_completion (task : Task) (a : AsyncAphrodite)
    : AsyncAphrodite * Result unit :=
  let failed exception :=
    let '(a, r) := _error_callback exception a in
    match r with
    | Ok _ => (a, Raise unexpected_finish_error)
    | Raise e => (a, Raise e)
    end in
  match task with
  | TaskRunning => failed (ExcInstance "InvalidStateError" "")
  | TaskReturned =>
      failed (Engine.AssertionError
                "The engine background task should never finish without an exception.")
  | TaskCancelled => (a, Ok ())
  | TaskRaised e => failed e
  end.

Definition start_background_loop (a : AsyncAphrodite)
    : AsyncAphrodite * Result unit :=
  if errored a then (a, Raise errored_error)
  else if is_running a
  then (a, Raise (RuntimeError "Background loop is already running."))
  else
    let task := length (tasks a) in
    ({| worker_use_ray := worker_use_ray a;
        engine_use_ray := engine_use_ray a;
        log_requests := log_requests a; engine := engine a;
        background_loop := Some task;
        _background_loop_unshielded := Some task;
        start_engine_loop := start_engine_loop a;
        _errored_with := _errored_with a;
        _request_tracker := Some Tracker.init;
        stream_heap := stream_heap a;
        tasks := tasks a ++ [TaskRunning] |}, Ok ()).

Definition shutdown_background_loop (a : AsyncAphrodite) : AsyncAphrodite :=
  {| worker_use_ray := worker_use_ray a; engine_use_ray := engine_use_ray a;
     log_requests := log_requests a; engine := engine a;
     background_loop := None;
     _background_loop_unshielded := None;
     start_engine_loop := start_engine_loop a;
     _errored_with := _errored_with a;
     _request_tracker := _request_tracker a;
     stream_heap := stream_heap a;
     tasks := match _background_loop_unshielded a with
              | Some t => alter cancel t (tasks a)
              | None => tasks a
              end |}.

(** [except ValueError]: the clause catches the instances of
    [ValueError] and of its subclasses. *)
Definition is_ValueError (e : Raisable) : bool :=
  let cls := match e with
             | ExcClass cls => cls
             | ExcInstance cls _ => cls
             end in
  bool_decide (cls = "ValueError") || Engine.subclass_of_ValueError cls.

(** The call under [try] in [engine_step]: the state of the engine after
    it and the exception it raised, if any. *)
Definition engine_add_request (use_ray : bool)
    (new_request : Tracker.NewRequest) (e : Engine._AsyncAphrodite)
    : Engine._AsyncAphrodite * option Raisable :=
  let '(e, r) :=
    if use_ray
    then let '(x, r) :=
           Engine.add_request_remote new_request (Engine.ext e) in
         (Engine.set_ext x e, r)
    else Engine.add_request_async new_request e in
  (e, raised <$> r).

(** The body of the loop over [new_requests] in [engine_step], for one
    request: the exception, if one escapes.  [others] is what the other
    tasks did to the tracker while the call of the engine was awaited; the
    [except] clause runs after them. *)
Definition add_new_request (use_ray : bool) (new_request : Tracker.NewRequest)
    (others : list Tracker.Call)
    (s : Engine._AsyncAphrodite * Tracker.State)
    : Engine._AsyncAphrodite * Tracker.State * option Raisable :=
  let '(e, st) := s in
  let '(e, r) := engine_add_request use_ray new_request e in
  let st := Tracker.calls others st in
  match r with
  | None => (e, st, None)
  | Some exc =>
      if is_ValueError exc
      then (e, Tracker.process_exception
                 (Tracker.nr_request_id new_request) exc st, None)
      else (e, st, Some exc)
  end.

Fixpoint add_new_requests (use_ray : bool)
    (new_requests : list Tracker.NewRequest)
    (others : list (list Tracker.Call))
    (s : Engine._AsyncAphrodite * Tracker.State)
    : Engine._AsyncAphrodite * Tracker.State * option Raisable :=
  match new_requests with
  | [] => (s, None)
  | new_request :: rest =>
      match add_new_request use_ray new_request (default [] (head others)) s
      with
      | (s', None) => add_new_requests use_ray rest (tail others) s'
      | (s', Some exc) => (s', Some exc)
      end
  end.

(** The loop that puts the outputs into the streams; returns [finished]. *)
Definition route_outputs (request_outputs : list RequestOutput)
    (st : Tracker.State) : Tracker.State * bool :=
  fold_left (fun '(st, finished) request_output =>
               (Tracker.process_request_output request_output st,
                finished && out_finished request_output))
            request_outputs (st, true).

(** [engine_step], with what the other tasks do while it is suspended.
    [_engine_abort] suspends only where the engine is remote; the other
    tasks act on the tracker, which the engine does not read, so their
    calls are taken at the end of each await. *)
Definition engine_step (others : Awaits) (virtual_engine : nat)
    (a : AsyncAphrodite) : AsyncAphrodite * Result bool :=
  match tracker_state a with
  | None => (a, Raise AttributeError)
  | Some st =>
      let '((new_requests, aborted_requests), st) :=
        Tracker.get_new_and_aborted_requests st in
      let '(e, st, r) :=
        add_new_requests (engine_use_ray a) new_requests
                         (at_add_request others) (engine a, st) in
      let a := set_engine e (set_tracker_state st a) in
      match r with
      | Some exc => (a, Raise exc)
      | None =>
          let st := if bool_decide (aborted_requests = ∅)
                       || negb (engine_use_ray a)
                    then st
                    else Tracker.calls (at_engine_abort others) st in
          let a := set_engine e (set_tracker_state st a) in
          match (if bool_decide (aborted_requests = ∅) then Ok (Engine.ext e)
                 else Engine.abort_request aborted_requests (Engine.ext e)) with
          | Raise exc => (a, Raise exc)
          | Ok x =>
              let e := Engine.set_ext x e in
              let st := Tracker.calls (at_step others) st in
              let a := set_engine e (set_tracker_state st a) in
              match (if engine_use_ray a
                     then '(request_outputs, x) ← Engine.step_remote (Engine.ext e);
                          Ok (request_outputs, Engine.set_ext x e)
                     else Engine.step_async virtual_engine e) with
              | Raise exc => (a, Raise exc)
              | Ok (request_outputs, e) =>
                  let '(st, finished) := route_outputs request_outputs st in
                  (set_engine e (set_tracker_state st a), Ok (negb finished))
              end
          end
      end
  end.

(** *** The engine loop *)

(** A task made by [asyncio.create_task(self.engine_step(ve))]. *)
Inductive StepTask :=
| StepInFlight
| StepDone (result : Result bool).

Record Loop := mkLoop {
  has_requests_in_progress : list bool;
  requests_in_progress : list StepTask;
}.

Definition loop_pipeline_parallel_size (a : AsyncAphrodite) : nat :=
  if engine_use_ray a then 1
  else Engine.pipeline_parallel_size (engine a).

Definition loop_init (a : AsyncAphrodite) : Loop :=
  {| has_requests_in_progress :=
       replicate (loop_pipeline_parallel_size a) false;
     requests_in_progress := [] |}.

(** How one turn of [while True] ends. *)
Inductive Turn :=
| Continue (l : Loop)
| Suspended
| Raised (exc : Raisable).

(** The first part of a turn: when nothing is in progress, wait for new
    requests and start one step per virtual engine. *)
Definition loop_idle (a : AsyncAphrodite) (l : Loop) : AsyncAphrodite * Turn :=
  if negb (existsb id (has_requests_in_progress l))
  then
    match Engine.stop_remote_worker_execution_loop (Engine.ext (engine a)) with
    | Raise exc => (a, Raised exc)
    | Ok x =>
        let a := set_engine (Engine.set_ext x (engine a)) a in
        match tracker_state a with
        | None => (a, Raised AttributeError)
        | Some st =>
            match Tracker.wait_for_new_requests st with
            | None => (a, Suspended)
            | Some st =>
                let pp := loop_pipeline_parallel_size a in
                (set_tracker_state st a,
                 Continue {| has_requests_in_progress := replicate pp true;
                             requests_in_progress := replicate pp StepInFlight |})
            end
        end
    end
  else (a, Continue l).

(** What the event loop contributes to one wait: the steps in flight that
    run to completion while the loop waits, each with what the other tasks
    do while it is suspended, and the time the block under
    [asyncio_timeout] takes, in seconds. *)
Record Cycle := mkCycle {
  completing : list (nat * Awaits);
  elapsed : Q;
}.

(** Modelled from the spec: [asyncio_timeout] of
    [aphrodite.engine.async_timeout] is missing from the sources.  The
    watchdog fires when the block has not completed within the delay. *)
Definition asyncio_timeout (delay : Z) (elapsed : Q) : bool :=
  negb (Qle_bool elapsed (inject_Z delay)).

Definition complete_step (s : AsyncAphrodite * list StepTask)
    (step : nat * Awaits) : AsyncAphrodite * list StepTask :=
  let '(a, ts) := s in
  let '(virtual_engine, others) := step in
  match ts !! virtual_engine with
  | Some StepInFlight =>
      let '(a, r) := engine_step others virtual_engine a in
      (a, <[virtual_engine := StepDone r]> ts)
  | _ => s
  end.

(** [for task in done], for the task of one virtual engine. *)
Definition post_completion (a : AsyncAphrodite) (r : Loop + Raisable)
    (vt : nat * StepTask) : Loop + Raisable :=
  match r, vt.2 with
  | inl l, StepDone (Ok result) =>
      let virtual_engine := vt.1 in
      let has_unfinished_requests :=
        Engine.has_unfinished_requests_for_virtual_engine
          virtual_engine (Engine.ext (engine a)) in
      if result || has_unfinished_requests
      then inl {| has_requests_in_progress :=
                    <[virtual_engine := true]> (has_requests_in_progress l);
                  requests_in_progress :=
                    <[virtual_engine := StepInFlight]> (requests_in_progress l) |}
      else inl {| has_requests_in_progress :=
                    <[virtual_engine := false]> (has_requests_in_progress l);
                  requests_in_progress := requests_in_progress l |}
  | inl l, StepDone (Raise exc) => inr exc
  | _, _ => r
  end.

(** The second part of a turn: the block under the watchdog and the loop
    over the tasks that are done. *)
Definition loop_wait (T : Z) (c : Cycle) (a : AsyncAphrodite) (l : Loop)
    : AsyncAphrodite * Turn :=
  let '(a, ts) := fold_left complete_step (completing c)
                            (a, requests_in_progress l) in
  if asyncio_timeout T (elapsed c)
  then (set_errored TimeoutError a, Raised TimeoutError)
  else
    let l := {| has_requests_in_progress := has_requests_in_progress l;
                requests_in_progress := ts |} in
    if negb (existsb (fun t => match t with StepDone _ => true | _ => false end) ts)
    then (a, Suspended)
    else
      match fold_left (post_completion a) (imap pair ts) (inl l) with
      | inl l => (a, Continue l)
      | inr exc => (a, Raised exc)
      end.

Definition loop_turn (T : Z) (c : Cycle) (a : AsyncAphrodite) (l : Loop)
    : AsyncAphrodite * Turn :=
  match loop_idle a l with
  | (a, Continue l) => loop_wait T c a l
  | r => r
  end.

(** The background task [task] ends by raising: its done callback runs. *)
Definition background_task_raised (task : nat) (exc : Raisable)
    (a : AsyncAphrodite) : AsyncAphrodite * Result unit :=
  _log_task_completion (TaskRaised exc)
    (set_tasks (<[task := TaskRaised exc]> (tasks a)) a).

(** *** The public calls *)

Definition add_request (request_id inputs params : string)
    (arrival_time : option Z) (lora_request prompt_adapter_request : option string)
    (now : Z) (a : AsyncAphrodite) : AsyncAphrodite * Result nat :=
  let '(a, r) :=
    if negb (is_running a)
    then if start_engine_loop a then start_background_loop a
         else (a, Raise not_running_error)
    else (a, Ok ()) in
  match r with
  | Raise exc => (a, Raise exc)
  | Ok _ =>
      match tracker_state a with
      | None => (a, Raise AttributeError)
      | Some st =>
          let kwargs :=
            {| Tracker.inputs := inputs; Tracker.params := params;
               (* arrival_time or time.time() *)
               Tracker.arrival_time :=
                 match arrival_time with
                 | Some t => if (t =? 0)%Z then now else t
                 | None => now
                 end;
               Tracker.lora_request := lora_request;
               Tracker.prompt_adapter_request := prompt_adapter_request |} in
          match Tracker.add_request request_id kwargs st with
          | Raise exc => (a, Raise exc)
          | Ok (stream, st) => (set_tracker_state st a, Ok stream)
          end
      end
  end.



(** *** The claims about the supervisor, as statements *)

(** C4 as it is worded, for the request [new_request], whose stream is
    [r], waiting in the tracker state [st] when [engine_step] starts with
    the engine [e], and with no other task at work meanwhile: if the engine
    raises a [ValueError] for it when its turn comes, the error does not
    escape, the request's stream is finished with exactly that error and
    is no longer registered, no other stream changes, and the loop goes on
    with the requests after it. *)
Definition validation_error_routed (use_ray : bool)
    (e : Engine._AsyncAphrodite) (st : Tracker.State) (r : nat)
    (new_request : Tracker.NewRequest) : Prop :=
  let d := Tracker.get_new_and_aborted_requests st in
  forall new1 new2 e1 st1 e2 exc,
    d.1.1 = new1 ++ new_request :: new2 ->
    add_new_requests use_ray new1 [] (e, d.2) = (e1, st1, None) ->
    engine_add_request use_ray new_request e1 = (e2, Some exc) ->
    is_ValueError exc = true ->
    exists st2,
      add_new_request use_ray new_request [] (e1, st1) = (e2, st2, None) /\
      Tracker.heap st2 !! r =
        Some {| Stream.request_id := Tracker.nr_request_id new_request;
                Stream._queue := [PyExc exc];
                Stream._finished := true |} /\
      Tracker.streams st2 !! Tracker.nr_request_id new_request = None /\
      (forall r', r' <> r -> Tracker.heap st2 !! r' = Tracker.heap st1 !! r') /\
      add_new_requests use_ray (new1 ++ new_request :: new2) [] (e, d.2)
      = add_new_requests use_ray new2 [] (e2, st2).

(** C6: a submission with an adapter to an engine without LoRA fails in
    the call itself. *)
Definition adapter_disabled_synchronous (a : AsyncAphrodite) : Prop :=
  forall request_id inputs params arrival_time lora prompt_adapter now,
    Engine.lora_config (engine a) = None ->
    exists exc,
      (add_request request_id inputs params arrival_time (Some lora)
                   prompt_adapter now a).2 = Raise exc.

(** C7: after the shutdown nothing runs and every submission fails with
    the engine-dead error. *)
Definition dead_after_shutdown (a : AsyncAphrodite) : Prop :=
  let a' := shutdown_background_loop a in
  is_running a' = false /\
  forall request_id inputs params arrival_time lora prompt_adapter now,
    exists msg,
      (add_request request_id inputs params arrival_time lora
                   prompt_adapter now a').2 = Raise (AsyncEngineDeadError msg).

Definition check_health (a : AsyncAphrodite) : AsyncAphrodite * Result unit :=
  if is_stopped a
  then (a, Raise (AsyncEngineDeadError "Background loop is stopped."))
  else
    match Engine.check_health (Engine.ext (engine a)) with
    | Ok x => (set_engine (Engine.set_ext x (engine a)) a, Ok ())
    | Raise exc => (a, Raise exc)
    end.

(** The streams that are registered when the watchdog fires are finished
    with the error [exc] in [a']. *)
Definition all_live_streams_failed (exc : Raisable) (st : Tracker.State)
    (a' : AsyncAphrodite) : Prop :=
  exists st', tracker_state a' = Some st' /\
    Tracker.streams st' = ∅ /\
    forall rid r s,
      Tracker.streams st !! rid = Some r -> Tracker.heap st !! r = Some s ->
      Tracker.heap st' !! r =
        Some {| Stream.request_id := rid;
                Stream._queue := Stream._queue s ++ [PyExc exc];
                Stream._finished := true |}.

(** C5 as it is worded: every stream that is live when the watchdog
    fires, that is, every stream of the store that is not finished, is
    finished with the error [exc] in [a']. *)
Definition every_live_stream_failed (exc : Raisable) (st : Tracker.State)
    (a' : AsyncAphrodite) : Prop :=
  exists st', tracker_state a' = Some st' /\
    forall r s,
      Tracker.heap st !! r = Some s -> Stream._finished s = false ->
      Tracker.heap st' !! r =
        Some {| Stream.request_id := Stream.request_id s;
                Stream._queue := Stream._queue s ++ [PyExc exc];
                Stream._finished := true |}.

End WithExternal.

(** A supervisor for examples: the example engine, started with the
    defaults ([start_engine_loop] is true), its background loop running. *)
Definition example_supervisor : @AsyncAphrodite Engine.example_external :=
  (@start_background_loop Engine.example_external
     (@init Engine.example_external false false true true
            Engine.example_engine)).1.

(** The id [r1] submitted twice before the loop drains the queue, first
    with an adapter, then without. *)
Definition kwargs_lora : Tracker.EngineAddRequestKwargs :=
  {| Tracker.inputs := "hi"; Tracker.params := ""; Tracker.arrival_time := 0;
     Tracker.lora_request := Some "adapter";
     Tracker.prompt_adapter_request := None |}.

Definition twice_first_with_adapter : Tracker.State :=
  Tracker.calls [Tracker.CallAdd "r1" kwargs_lora;
                 Tracker.CallAdd "r1" Tracker.kwargs0] Tracker.init_state.

Definition once_with_adapter : Tracker.State :=
  Tracker.calls [Tracker.CallAdd "r1" kwargs_lora] Tracker.init_state.

(** Two requests registered, with one output delivered to the first. *)
Definition two_live : Tracker.State :=
  Tracker.calls [Tracker.CallAdd "r1" Tracker.kwargs0;
                 Tracker.CallAdd "r2" Tracker.kwargs0;
                 Tracker.CallDrain;
                 Tracker.CallOutput
                   {| out_request_id := "r1"; out_finished := false;
                      out_payload := "A" |}]
                Tracker.init_state.

(** The id [r1] submitted, aborted before the drain, and submitted again
    with an adapter. *)
Definition aborted_then_resubmitted : Tracker.State :=
  Tracker.calls [Tracker.CallAdd "r1" Tracker.kwargs0;
                 Tracker.CallAbort "r1" None;
                 Tracker.CallAdd "r1" kwargs_lora] Tracker.init_state.

(** The request [r1] registered, and the request [r2] submitted after the
    drain: it waits in the queue. *)
Definition one_live_one_waiting : Tracker.State :=
  Tracker.calls [Tracker.CallAdd "r1" Tracker.kwargs0;
                 Tracker.CallDrain;
                 Tracker.CallAdd "r2" Tracker.kwargs0] Tracker.init_state.

(** The example supervisor with these two requests in its tracker. *)
Definition example_supervisor_live : @AsyncAphrodite Engine.example_external :=
  @set_tracker_state Engine.example_external two_live example_supervisor.

(** The example supervisor while the step for [r1] hangs and [r2] has been
    submitted meanwhile. *)
Definition example_supervisor_hanging
    : @AsyncAphrodite Engine.example_external :=
  @set_tracker_state Engine.example_external one_live_one_waiting
                     example_supervisor.

End Supervisor.

(** ** AsyncAphrodite._get_executor_cls *)

Module Executor.

(** [distributed_executor_backend]: [None], a string, or a class, of which
    the function asks whether it is a subclass of [ExecutorAsyncBase] and
    whether it [uses_ray]. *)
Inductive Backend :=
| BackendNone
| BackendStr (name : string)
| BackendType (name : string) (is_async : bool) (uses_ray : bool).

(** The classes the function can return: the executors it imports, or the
    class it was given. *)
Inductive ExecutorClass :=
| NeuronExecutorAsync
| RayTPUExecutorAsync
| TPUExecutorAsync
| CPUExecutorAsync
| OpenVINOExecutorAsync
| XPUExecutorAsync
| RayXPUExecutorAsync
| RayGPUExecutorAsync
| MultiprocessingGPUExecutorAsync
| GPUExecutorAsync
| GivenClass (name : string) (uses_ray : bool).

Definition TypeError (msg : string) : Raisable := ExcInstance "TypeError" msg.
Definition AssertionError (msg : string) : Raisable :=
  ExcInstance "AssertionError" msg.
Definition RuntimeError (msg : string) : Raisable :=
  ExcInstance "RuntimeError" msg.

(** [distributed_executor_backend == "ray"] and the like: [None] and
    classes equal no string. *)
Definition is_str (b : Backend) (name : string) : bool :=
  match b with
  | BackendStr n => bool_decide (n = name)
  | _ => false
  end.

Definition is_None (b : Backend) : bool :=
  match b with
  | BackendNone => true
  | _ => false
  end.

(** The result, and whether [initialize_ray_cluster] was called on the
    way. *)
Definition _get_executor_cls (device_type : string) (backend : Backend)
    : bool * Result ExecutorClass :=
  match backend with
  | BackendType name is_async uses_ray =>
      if negb is_async
      then (false,
            Raise (TypeError
                     ("distributed_executor_backend must be a subclass of " +:+
                      "ExecutorAsyncBase. Got " +:+ name +:+ ".")))
      else (uses_ray, Ok (GivenClass name uses_ray))
  | _ =>
      if bool_decide (device_type = "neuron") then (false, Ok NeuronExecutorAsync)
      else if bool_decide (device_type = "tpu") then
        if is_str backend "ray" then (true, Ok RayTPUExecutorAsync)
        else if is_None backend then (false, Ok TPUExecutorAsync)
        else (false, Raise (AssertionError ""))
      else if bool_decide (device_type = "cpu") then (false, Ok CPUExecutorAsync)
      else if bool_decide (device_type = "openvino") then
        if is_None backend then (false, Ok OpenVINOExecutorAsync)
        else (false,
              Raise (AssertionError
                       ("Distributed execution is not supported with " +:+
                        "the OpenVINO backend.")))
      else if bool_decide (device_type = "xpu") then
        if is_None backend then (false, Ok XPUExecutorAsync)
        else if is_str backend "ray" then (true, Ok RayXPUExecutorAsync)
        else (false,
              Raise (RuntimeError
                       "Unsupported distributed executor backend for XPU."))
      else if is_str backend "ray" then (true, Ok RayGPUExecutorAsync)
      else if is_str backend "mp" then (false, Ok MultiprocessingGPUExecutorAsync)
      else (false, Ok GPUExecutorAsync)
  end.

(** The executors that run on Ray: those imported from the [ray_*]
    modules, and a given class that says so. *)
Definition on_ray (c : ExecutorClass) : bool :=
  match c with
  | RayTPUExecutorAsync | RayXPUExecutorAsync | RayGPUExecutorAsync => true
  | GivenClass _ uses_ray => uses_ray
  | _ => false
  end.

(** The inputs on which the function raises. *)
Definition rejected (device_type : string) (backend : Backend) : bool :=
  match backend with
  | BackendType _ is_async _ => negb is_async
  | BackendNone => false
  | BackendStr name =>
      (bool_decide (device_type = "tpu") && negb (bool_decide (name = "ray")))
      || bool_decide (device_type = "openvino")
      || (bool_decide (device_type = "xpu") && negb (bool_decide (name = "ray")))
  end.

End Executor.

(** ** _AsyncAphrodite: the prompts of a request *)

Module Inputs.

(** [SingletonPromptInputs]: a string, or a dict, of which the keys that
    the code reads are kept ([None] for a key that is absent). *)
Inductive SingletonPromptInputs :=
| SingletonStr (prompt : string)
| SingletonDict (prompt : option string)
                (prompt_token_ids : option (list Z))
                (multi_modal_data : option string).

(** [PromptInputs]: as before, with the two keys of an explicit
    encoder/decoder prompt (the value of [decoder_prompt] may itself be
    [None]). *)
Inductive PromptInputs :=
| InputStr (prompt : string)
| InputDict (prompt : option string)
            (prompt_token_ids : option (list Z))
            (multi_modal_data : option string)
            (encoder_prompt : option SingletonPromptInputs)
            (decoder_prompt : option (option SingletonPromptInputs)).

(** The same object, where the code reads it as a singleton prompt. *)
Definition as_singleton (inputs : PromptInputs) : SingletonPromptInputs :=
  match inputs with
  | InputStr prompt => SingletonStr prompt
  | InputDict prompt prompt_token_ids multi_modal_data _ _ =>
      SingletonDict prompt prompt_token_ids multi_modal_data
  end.

Definition PromptComponents : Type :=
  option string * list Z * option string.
Definition DecoderPromptComponents : Type :=
  option string * option (list Z) * option string.

Definition KeyError (key : string) : Raisable := ExcInstance "KeyError" key.
Definition TypeError : Raisable :=
  ExcInstance "TypeError" "string indices must be integers".
Definition ValueError (msg : string) : Raisable := ExcInstance "ValueError" msg.

Section WithEngine.

(** What the engine and the tokenizer group provide; their sources are not
    part of the front-end.  [encode_async] stands for
    [get_tokenizer_group(...).encode_async(request_id, prompt,
    lora_request)]. *)
Variable LLMInputs : Type.
Variable encode_async : string -> string -> option string -> Result (list Z).
Variable is_encoder_decoder_model : bool.
Variable is_explicit_encoder_decoder_prompt : PromptInputs -> bool.
Variable _build_enc_dec_llm_inputs :
  PromptComponents -> DecoderPromptComponents -> Result LLMInputs.
Variable _build_decoder_only_llm_inputs :
  PromptComponents -> option string -> Result LLMInputs.
Variable input_processor : LLMInputs -> Result LLMInputs.

Definition _tokenize_prompt_async (prompt request_id : string)
    (lora_request : option string) : Result (list Z) :=
  encode_async request_id prompt lora_request.

Definition _extract_prompt_components_async (inputs : SingletonPromptInputs)
    (request_id : string) (lora_request : option string)
    : Result PromptComponents :=
  match inputs with
  | SingletonStr prompt =>
      prompt_token_ids ← _tokenize_prompt_async prompt request_id lora_request;
      Ok (Some prompt, prompt_token_ids, None)
  | SingletonDict prompt prompt_token_ids multi_modal_data =>
      match prompt_token_ids with
      | Some prompt_token_ids => Ok (None, prompt_token_ids, multi_modal_data)
      | None =>
          match prompt with
          | None => Raise (KeyError "prompt")
          | Some prompt =>
              prompt_token_ids ←
                _tokenize_prompt_async prompt request_id lora_request;
              Ok (Some prompt, prompt_token_ids, multi_modal_data)
          end
      end
  end.

(** [inputs["encoder_prompt"]] and [inputs["decoder_prompt"]] *)
Definition get_encoder_prompt (inputs : PromptInputs)
    : Result SingletonPromptInputs :=
  match inputs with
  | InputStr _ => Raise TypeError
  | InputDict _ _ _ None _ => Raise (KeyError "encoder_prompt")
  | InputDict _ _ _ (Some p) _ => Ok p
  end.

Definition get_decoder_prompt (inputs : PromptInputs)
    : Result (option SingletonPromptInputs) :=
  match inputs with
  | InputStr _ => Raise TypeError
  | InputDict _ _ _ _ None => Raise (KeyError "decoder_prompt")
  | InputDict _ _ _ _ (Some p) => Ok p
  end.

(** The two coroutines that [asyncio.gather] runs are taken one after the
    other, the encoder's first. *)
Definition _process_encoder_decoder_prompt_async (inputs : PromptInputs)
    (request_id : string) : Result LLMInputs :=
  '(encoder_comps, decoder_comps) ←
    (if is_explicit_encoder_decoder_prompt inputs
     then
       encoder_prompt ← get_encoder_prompt inputs;
       decoder_input ← get_decoder_prompt inputs;
       match decoder_input with
       | None =>
           encoder_comps ←
             _extract_prompt_components_async encoder_prompt request_id None;
           Ok (encoder_comps, (None, None, None))
       | Some decoder_input =>
           encoder_comps ←
             _extract_prompt_components_async encoder_prompt request_id None;
           '(prompt, prompt_token_ids, multi_modal_data) ←
             _extract_prompt_components_async decoder_input request_id None;
           Ok (encoder_comps, (prompt, Some prompt_token_ids, multi_modal_data))
       end
     else
       encoder_comps ←
         _extract_prompt_components_async (as_singleton inputs) request_id None;
       Ok (encoder_comps, (None, None, None)));
  _build_enc_dec_llm_inputs encoder_comps decoder_comps.

Definition _process_decoder_only_prompt_async (inputs : PromptInputs)
    (request_id : string) (lora_request prompt_adapter_request : option string)
    : Result LLMInputs :=
  prompt_comps ←
    _extract_prompt_components_async (as_singleton inputs) request_id
                                     lora_request;
  _build_decoder_only_llm_inputs prompt_comps prompt_adapter_request.

Definition process_model_inputs_async (inputs : PromptInputs)
    (request_id : string) (lora_request prompt_adapter_request : option string)
    : Result LLMInputs :=
  model_inputs ←
    (if is_encoder_decoder_model
     then _process_encoder_decoder_prompt_async inputs request_id
     else
       if is_explicit_encoder_decoder_prompt inputs
       then Raise (ValueError ("Cannot pass encoder-decoder prompt " +:+
                               "to decoder-only models"))
       else _process_decoder_only_prompt_async inputs request_id
              lora_request prompt_adapter_request);
  input_processor model_inputs.

End WithEngine.

(** A tokenizer and builders for examples: a token per character count,
    the inputs are the components as they come. *)
Definition example_encode (request_id prompt : string) (lora : option string)
    : Result (list Z) :=
  Ok [Z.of_nat (String.length prompt)].

End Inputs.

(** ** The exceptions that end the background task *)

Module Exceptions.




End Exceptions.

(** ** More examples *)

Module Examples.

(** An engine whose [add_request] fails with an error that is not a
    [ValueError]; the rest is as in the example engine. *)
Definition failing_external : Engine.External :=
  {| Engine.SequenceGroupMetadata := Z;
     Engine.SchedulerOutputs := Z;
     Engine.Ext := unit;
     Engine.remaining_steps := fun g => g;
     Engine.finish_step := fun g => Ok (g - 1)%Z;
     Engine.num_lookahead_slots := fun so => so;
     Engine.is_empty := fun _ => false;
     Engine.schedule := fun _ x => Ok ([2%Z; 2%Z], 1%Z, x);
     Engine.get_and_reset_finished_requests_ids := fun _ x => Ok ([], x);
     Engine.execute_model_async := fun _ _ _ _ _ x => Ok ([None], x);
     Engine._process_model_outputs := fun _ _ _ x => Ok ([], x);
     Engine.do_log_stats := fun _ _ x => Ok x;
     Engine.add_processed_request :=
       fun _ x => (x, Some (ExcInstance "RuntimeError" "nccl"));
     Engine.add_request_remote := fun _ x => (x, None);
     Engine.step_remote := fun x => Ok ([], x);
     Engine.abort_request := fun _ x => Ok x;
     Engine.has_unfinished_requests_for_virtual_engine := fun _ _ => false;
     Engine.stop_remote_worker_execution_loop := fun x => Ok x;
     Engine.check_health := fun x => Ok x;
     Engine.subclass_of_ValueError := Engine.builtin_subclass_of_ValueError |}.

Definition failing_engine : @Engine._AsyncAphrodite failing_external :=
  @Engine.init failing_external false 1 None tt.

(** The example engine without multi-step, and with two pipeline stages. *)
Definition single_step_engine : @Engine._AsyncAphrodite Engine.example_external :=
  @Engine.init Engine.example_external false 1 None tt.

Definition two_stage_engine : @Engine._AsyncAphrodite Engine.example_external :=
  @Engine.init Engine.example_external true 2 None tt.


(** A supervisor over the failing engine, its background loop running and
    two requests waiting. *)
Definition failing_supervisor : @Supervisor.AsyncAphrodite failing_external :=
  @Supervisor.set_tracker_state failing_external
    (Tracker.calls [Tracker.CallAdd "r1" Tracker.kwargs0;
                    Tracker.CallAdd "r2" Tracker.kwargs0] Tracker.init_state)
    (@Supervisor.start_background_loop failing_external
       (@Supervisor.init failing_external false false true true
                         failing_engine)).1.


(** Two requests waiting, none registered. *)
Definition two_waiting : Tracker.State :=
  Tracker.calls [Tracker.CallAdd "r1" Tracker.kwargs0;
                 Tracker.CallAdd "r2" Tracker.kwargs0] Tracker.init_state.

End Examples.

(** * Properties *)

(** ** AsyncStream: what the consumer observes *)

Module StreamSpec.
Import Stream.






Lemma finish_item_raisable e : _is_raisable (finish_item e) = true.
Proof. by destruct e. Qed.











End StreamSpec.

(** ** RequestTracker *)

Module TrackerSpec.
Import Tracker.

Lemma wf_init : wf init_state.
Proof.
  split; unfold streams, pending_new; simpl.
  - intros rid r Hr. by rewrite lookup_empty in Hr.
  - intros r nr Hin. by apply elem_of_nil in Hin.
  - constructor.
  - intros r nr Hin. by apply elem_of_nil in Hin.
Qed.

(** A waiting stream is not a registered one. *)
Lemma wf_apart st r nr rid :
  wf st -> (r, nr) ∈ pending_new st -> streams st !! rid <> Some r.
Proof.
  intros Hwf Hin Hr.
  destruct (wf_live _ Hwf _ _ Hr) as (s & Hs & Hid & _).
  rewrite (wf_fresh _ Hwf _ _ Hin) in Hs. simplify_eq/=.
  by rewrite (wf_unregistered _ Hwf _ _ Hin) in Hr.
Qed.

(** Two ids are not registered with one stream. *)
Lemma wf_inj st rid1 rid2 r :
  wf st -> streams st !! rid1 = Some r -> streams st !! rid2 = Some r ->
  rid1 = rid2.
Proof.
  intros Hwf H1 H2.
  destruct (wf_live _ Hwf _ _ H1) as (s1 & Hs1 & <- & _).
  destruct (wf_live _ Hwf _ _ H2) as (s2 & Hs2 & <- & _).
  congruence.
Qed.

(** *** [abort_request] *)

Lemma abort_request_unknown rid e st :
  streams st !! rid = None ->
  abort_request rid e st =
  {| heap := heap st;
     tracker := {| _request_streams := streams st;
                   _aborted_requests := pending_abort st ++ [rid];
                   _new_requests := pending_new st;
                   new_requests_event := new_requests_event (tracker st) |} |}.
Proof. unfold abort_request, streams. by intros ->. Qed.

Lemma abort_request_known rid e st r :
  streams st !! rid = Some r ->
  abort_request rid e st =
  {| heap := finish_at r (of_exception e) (heap st);
     tracker := {| _request_streams := delete rid (streams st);
                   _aborted_requests := pending_abort st ++ [rid];
                   _new_requests := pending_new st;
                   new_requests_event := new_requests_event (tracker st) |} |}.
Proof. unfold abort_request, streams. by intros ->. Qed.

Lemma abort_request_pending_new rid e st :
  pending_new (abort_request rid e st) = pending_new st.
Proof. unfold abort_request, pending_new. by destruct (_ !! _). Qed.

Lemma abort_request_streams rid e st :
  streams (abort_request rid e st) = delete rid (streams st).
Proof.
  unfold abort_request, streams.
  destruct (_ !! _) eqn:E; simpl; [done|]. by rewrite delete_id.
Qed.

(** Only the stream registered under the id is touched. *)
Lemma abort_request_heap_other rid e st r :
  streams st !! rid <> Some r ->
  heap (abort_request rid e st) !! r = heap st !! r.
Proof.
  unfold abort_request, streams, finish_at. intros Hne.
  destruct (_ !! _) as [r'|] eqn:E; simpl; [|done].
  apply list_lookup_alter_ne. congruence.
Qed.

Lemma abort_request_heap_known rid e st r :
  streams st !! rid = Some r ->
  heap (abort_request rid e st) !! r =
  Stream.finish (of_exception e) <$> heap st !! r.
Proof.
  intros Hr. rewrite (abort_request_known _ _ _ _ Hr). simpl.
  apply list_lookup_alter_eq.
Qed.

Lemma wf_abort_request rid e st : wf st -> wf (abort_request rid e st).
Proof.
  intros Hwf. split.
  - intros rid' r'. rewrite abort_request_streams.
    intros [Hne Hr']%lookup_delete_Some.
    rewrite abort_request_heap_other; [by apply (wf_live _ Hwf)|].
    intros Hr. apply Hne. by eapply wf_inj.
  - intros r nr. rewrite abort_request_pending_new. intros Hin.
    rewrite abort_request_heap_other; [by apply (wf_fresh _ Hwf)|].
    by eapply wf_apart.
  - rewrite abort_request_pending_new. apply (wf_nodup _ Hwf).
  - intros r nr. rewrite abort_request_pending_new, abort_request_streams.
    intros Hin. apply lookup_delete_None. right.
    by apply (wf_unregistered _ Hwf _ _ Hin).
Qed.

(** *** [add_request] *)

Lemma add_request_raises rid kw st :
  ((exists e, add_request rid kw st = Raise e)
   <-> is_Some (streams st !! rid)) /\
  (is_Some (streams st !! rid) -> add_request rid kw st = Raise (KeyError rid)).
Proof.
  unfold add_request, streams. case_bool_decide; (split; [split|]); eauto.
  - by intros [??].
  - by intros ?.
  - by intros ?.
Qed.

Lemma add_request_ok rid kw st :
  streams st !! rid = None ->
  add_request rid kw st =
  Ok (length (heap st),
      {| heap := heap st ++ [Stream.init rid];
         tracker := {| _request_streams := streams st;
                       _aborted_requests := pending_abort st;
                       _new_requests :=
                         pending_new st ++
                         [(length (heap st),
                           {| nr_request_id := rid; nr_kwargs := kw |})];
                       new_requests_event := true |} |}).
Proof.
  unfold add_request, streams. intros Hr.
  rewrite bool_decide_false; [done|]. rewrite Hr. by intros [??].
Qed.

Lemma wf_pending_lt st r nr :
  wf st -> (r, nr) ∈ pending_new st -> r < length (heap st).
Proof. intros Hwf Hin. eapply lookup_lt_Some, (wf_fresh _ Hwf), Hin. Qed.

Lemma wf_add_request rid kw st r st' :
  wf st -> add_request rid kw st = Ok (r, st') -> wf st'.
Proof.
  intros Hwf. unfold add_request. case_bool_decide as Hreg; [done|].
  intros [= <- <-]. split; unfold streams, pending_new; simpl.
  - intros rid' r' Hr'.
    destruct (wf_live _ Hwf _ _ Hr') as (s & Hs & ?).
    exists s. split; [|done]. by apply lookup_app_l_Some.
  - intros r' nr [Hin|Hin]%elem_of_app.
    + apply lookup_app_l_Some. by apply (wf_fresh _ Hwf).
    + apply list_elem_of_singleton in Hin as [= -> ->]. simpl.
      by rewrite lookup_app_r, Nat.sub_diag.
  - rewrite fmap_app. apply NoDup_app. split; [apply (wf_nodup _ Hwf)|].
    split; [|apply NoDup_singleton].
    intros r' Hin Hr'. apply list_elem_of_singleton in Hr'. simpl in Hr'.
    subst r'. apply list_elem_of_fmap in Hin as ([r'' nr] & Heq & Hin).
    simpl in Heq. subst r''.
    apply (wf_pending_lt _ _ _ Hwf) in Hin. lia.
  - intros r' nr [Hin|Hin]%elem_of_app.
    + by apply (wf_unregistered _ Hwf _ _ Hin).
    + apply list_elem_of_singleton in Hin as [= -> ->]. simpl.
      apply eq_None_not_Some. exact Hreg.
Qed.

(** *** The loop of [get_new_and_aborted_requests] *)

Lemma drain_one_fresh d r nr :
  d_heap d !! r = Some (Stream.init (nr_request_id nr)) ->
  drain_one d (r, nr) =
  if bool_decide (nr_request_id nr ∈ finished_requests d)
  then {| d_heap := finish_at r (PyExc CancelledError) (d_heap d);
          d_streams := d_streams d;
          new_requests := new_requests d;
          finished_requests := finished_requests d ∖ {[nr_request_id nr]} |}
  else {| d_heap := d_heap d;
          d_streams := <[nr_request_id nr := r]> (d_streams d);
          new_requests := new_requests d ++ [nr];
          finished_requests := finished_requests d |}.
Proof. unfold drain_one. by intros ->. Qed.

Lemma drain_ok_start st : wf st -> drain_ok (drain_start st) (pending_new st).
Proof.
  intros Hwf. split; simpl.
  - apply (wf_live _ Hwf).
  - apply (wf_fresh _ Hwf).
  - apply (wf_nodup _ Hwf).
  - intros r nr rid Hin. by eapply wf_apart.
Qed.

Lemma drain_ok_step d r nr l :
  drain_ok d ((r, nr) :: l) -> drain_ok (drain_one d (r, nr)) l.
Proof.
  intros [Hlive Hfresh Hnodup Hapart].
  assert (Hr : d_heap d !! r = Some (Stream.init (nr_request_id nr))).
  { apply Hfresh. left. }
  assert (Hnotin : forall nr', (r, nr') ∉ l).
  { intros nr' Hin. rewrite fmap_cons in Hnodup.
    apply NoDup_cons in Hnodup as [Hnotin _]. apply Hnotin.
    apply list_elem_of_fmap. by exists (r, nr'). }
  rewrite (drain_one_fresh _ _ _ Hr). case_bool_decide; split; simpl.
  - intros rid r' Hr'. unfold finish_at. rewrite list_lookup_alter_ne.
    + by apply Hlive.
    + intros ->. eapply Hapart; [left|done].
  - intros r' nr' Hin. unfold finish_at. rewrite list_lookup_alter_ne.
    + apply Hfresh. by right.
    + intros ->. by eapply Hnotin.
  - rewrite fmap_cons in Hnodup. by apply NoDup_cons in Hnodup as [_ ?].
  - intros r' nr' rid Hin. eapply Hapart. by right.
  - intros rid r' [[<- <-]|[Hne Hr']]%lookup_insert_Some.
    + eexists. by split.
    + by apply Hlive.
  - intros r' nr' Hin. apply Hfresh. by right.
  - rewrite fmap_cons in Hnodup. by apply NoDup_cons in Hnodup as [_ ?].
  - intros r' nr' rid Hin [[_ <-]|[_ Hr']]%lookup_insert_Some.
    + by eapply Hnotin.
    + eapply Hapart; [by right|done].
Qed.

Lemma drain_ok_fold l1 l2 d :
  drain_ok d (l1 ++ l2) -> drain_ok (fold_left drain_one l1 d) l2.
Proof.
  revert d. induction l1 as [|[r nr] l1 IH]; intros d Hok; simpl; [done|].
  by apply IH, drain_ok_step.
Qed.

(** The set of aborted ids only shrinks. *)
Lemma drain_finished_subseteq l d :
  finished_requests (fold_left drain_one l d) ⊆ finished_requests d.
Proof.
  revert d. induction l as [|[r nr] l IH]; intros d; simpl; [done|].
  etrans; [apply IH|]. unfold drain_one.
  destruct (d_heap d !! r); [|done].
  case_bool_decide; simpl; [by apply subseteq_difference_l|done].
Qed.

(** Only the streams of the entries are touched. *)
Lemma drain_heap_other l d r0 :
  r0 ∉ l.*1 -> d_heap (fold_left drain_one l d) !! r0 = d_heap d !! r0.
Proof.
  revert d. induction l as [|[r nr] l IH]; intros d Hnotin; simpl; [done|].
  rewrite fmap_cons, not_elem_of_cons in Hnotin. destruct Hnotin as [Hne Hnotin].
  rewrite IH by done. unfold drain_one.
  destruct (d_heap d !! r); [|done]. case_bool_decide; simpl; [|done].
  by apply list_lookup_alter_ne.
Qed.

(** A stream registered by the loop was registered before or comes from
    an entry. *)
Lemma drain_streams_from l d rid r0 :
  d_streams (fold_left drain_one l d) !! rid = Some r0 ->
  d_streams d !! rid = Some r0 \/ r0 ∈ l.*1.
Proof.
  revert d. induction l as [|[r nr] l IH]; intros d; simpl; [by left|].
  intros [Hr0|Hin]%IH; [|right; by right].
  revert Hr0. unfold drain_one.
  destruct (d_heap d !! r); [|by left]. case_bool_decide; simpl; [by left|].
  intros [[_ <-]|[_ ?]]%lookup_insert_Some; [right; left|by left].
Qed.

Lemma drain_new_from l d nr0 :
  nr0 ∈ new_requests (fold_left drain_one l d) ->
  nr0 ∈ new_requests d \/ nr0 ∈ l.*2.
Proof.
  revert d. induction l as [|[r nr] l IH]; intros d; simpl; [by left|].
  intros [Hin|Hin]%IH; [|right; by right].
  revert Hin. unfold drain_one.
  destruct (d_heap d !! r); [|by left]. case_bool_decide; simpl; [by left|].
  intros [?|Hin]%elem_of_app; [by left|].
  apply list_elem_of_singleton in Hin as ->. right; left.
Qed.

Lemma drain_new_mono l d nr0 :
  nr0 ∈ new_requests d -> nr0 ∈ new_requests (fold_left drain_one l d).
Proof.
  revert d. induction l as [|[r nr] l IH]; intros d Hin; simpl; [done|].
  apply IH. unfold drain_one.
  destruct (d_heap d !! r); [|done]. case_bool_decide; simpl; [done|].
  apply elem_of_app. by left.
Qed.

(** An id without an entry keeps its place: in the set of aborted ids and
    in [_request_streams]. *)
Lemma drain_other_id l d rid :
  drain_ok d l -> rid ∉ (nr_request_id ∘ snd) <$> l ->
  (rid ∈ finished_requests (fold_left drain_one l d)
   <-> rid ∈ finished_requests d) /\
  d_streams (fold_left drain_one l d) !! rid = d_streams d !! rid.
Proof.
  revert d. induction l as [|[r nr] l IH]; intros d Hok Hnotin; simpl; [done|].
  rewrite fmap_cons, not_elem_of_cons in Hnotin. simpl in Hnotin.
  destruct Hnotin as [Hne Hnotin].
  destruct (IH _ (drain_ok_step _ _ _ _ Hok) Hnotin) as [-> ->].
  rewrite (drain_one_fresh d r nr) by (apply (dok_fresh _ _ Hok); left).
  case_bool_decide; simpl.
  - split; [|done]. rewrite elem_of_difference, not_elem_of_singleton.
    split; [by intros [? _]|by intros ?].
  - split; [done|]. by rewrite lookup_insert_ne.
Qed.

(** An entry whose id is not aborted is handed on, and its stream is left
    as it is. *)
Lemma drain_not_aborted_heap l d r0 :
  drain_ok d l ->
  (forall nr0, (r0, nr0) ∈ l -> nr_request_id nr0 ∉ finished_requests d) ->
  d_heap (fold_left drain_one l d) !! r0 = d_heap d !! r0.
Proof.
  revert d. induction l as [|[r nr] l IH]; intros d Hok Hnr; simpl; [done|].
  rewrite IH.
  - rewrite (drain_one_fresh d r nr) by (apply (dok_fresh _ _ Hok); left).
    case_bool_decide as Hfin; simpl; [|done].
    apply list_lookup_alter_ne. intros ->. eapply Hnr; [left|done].
  - by apply drain_ok_step.
  - intros nr0 Hin Hfin. eapply Hnr; [by right|].
    revert Hfin. generalize (drain_finished_subseteq [(r, nr)] d). simpl.
    set_solver.
Qed.

Lemma drain_not_aborted_new l d r0 nr0 :
  drain_ok d l -> (r0, nr0) ∈ l ->
  nr_request_id nr0 ∉ finished_requests d ->
  nr0 ∈ new_requests (fold_left drain_one l d).
Proof.
  revert d. induction l as [|[r nr] l IH]; intros d Hok Hin Hfin; simpl.
  { by apply elem_of_nil in Hin. }
  apply elem_of_cons in Hin as [[= <- <-]|Hin].
  - apply drain_new_mono.
    rewrite (drain_one_fresh d r0 nr0) by (apply (dok_fresh _ _ Hok); left).
    rewrite bool_decide_false by done. simpl. apply elem_of_app. right. left.
  - apply IH; [by apply drain_ok_step|done|].
    intros Hfin'. apply Hfin.
    by apply (drain_finished_subseteq [(r, nr)] d).
Qed.

Lemma wf_drain st : wf st -> wf (get_new_and_aborted_requests st).2.
Proof.
  intros Hwf.
  pose proof (drain_ok_fold (pending_new st) [] (drain_start st)) as Hok.
  rewrite app_nil_r in Hok. specialize (Hok (drain_ok_start _ Hwf)).
  split; unfold streams, pending_new; simpl.
  - apply (dok_live _ _ Hok).
  - intros r nr Hin. by apply elem_of_nil in Hin.
  - constructor.
  - intros r nr Hin. by apply elem_of_nil in Hin.
Qed.

(** *** The other calls *)

Lemma process_request_output_pending_new o st :
  pending_new (process_request_output o st) = pending_new st.
Proof. done. Qed.

Lemma process_request_output_streams o st rid r :
  streams (process_request_output o st) !! rid = Some r ->
  streams st !! rid = Some r /\
  (out_finished o = true -> rid <> out_request_id o).
Proof.
  unfold process_request_output, streams. simpl.
  destruct (out_finished o).
  - intros [??]%lookup_delete_Some. split; [done|]. by intros _ ->.
  - by intros ?.
Qed.

Lemma process_request_output_heap_other o st r :
  streams st !! out_request_id o <> Some r ->
  heap (process_request_output o st) !! r = heap st !! r.
Proof.
  unfold process_request_output, streams. simpl. intros Hne.
  destruct (_ !! _) as [r'|]; [|done].
  apply list_lookup_alter_ne. congruence.
Qed.

Lemma wf_process_request_output o st :
  wf st -> wf (process_request_output o st).
Proof.
  intros Hwf. split.
  - intros rid r [Hr Hfin]%process_request_output_streams.
    destruct (wf_live _ Hwf _ _ Hr) as (s & Hs & Hid & Hnf).
    destruct (decide (streams st !! out_request_id o = Some r)) as [Ho|Ho].
    + assert (rid = out_request_id o) as -> by by eapply wf_inj.
      unfold process_request_output. fold (streams st). rewrite Ho. simpl.
      rewrite list_lookup_alter_eq, Hs. simpl. eexists. split; [done|].
      destruct (out_finished o); [by destruct Hfin|].
      unfold Stream.put. by rewrite Hnf.
    + rewrite process_request_output_heap_other by done. eauto.
  - intros r nr Hin. rewrite process_request_output_heap_other.
    + by apply (wf_fresh _ Hwf).
    + by eapply wf_apart.
  - apply (wf_nodup _ Hwf).
  - intros r nr Hin. apply eq_None_not_Some. intros [r' Hr'].
    apply process_request_output_streams in Hr' as [Hr' _].
    by rewrite (wf_unregistered _ Hwf _ _ Hin) in Hr'.
Qed.

Lemma wf_abort_requests rids e st :
  wf st -> wf (fold_left (fun st rid => abort_request rid e st) rids st).
Proof.
  revert st. induction rids as [|rid rids IH]; intros st Hwf; simpl; [done|].
  by apply IH, wf_abort_request.
Qed.

Lemma wf_propagate_exception exc rid st :
  wf st -> wf (propagate_exception exc rid st).
Proof.
  destruct rid; simpl; [apply wf_abort_request|apply wf_abort_requests].
Qed.

Lemma wf_wait_for_new_requests st st' :
  wf st -> wait_for_new_requests st = Some st' -> wf st'.
Proof.
  unfold wait_for_new_requests. intros [????] Hw.
  destruct (_ || _); [|done]. by simplify_eq.
Qed.

Lemma stream_generator_next_Some s o s' :
  Stream.generator_next s = Some (o, s') ->
  Stream.request_id s' = Stream.request_id s /\
  Stream._finished s' = Stream._finished s /\
  Stream._queue s <> [].
Proof.
  unfold Stream.generator_next. destruct (Stream._queue s) as [|x q]; [done|].
  destruct (Stream._is_raisable x); [destruct (decide _)|];
    intros [= <- <-]; done.
Qed.

Lemma generator_next_Some r st o st' :
  generator_next r st = Some (o, st') ->
  exists s s', heap st !! r = Some s /\ Stream.generator_next s = Some (o, s')
               /\ st' = {| heap := <[r := s']> (heap st);
                           tracker := tracker st |}.
Proof.
  unfold generator_next. destruct (heap st !! r) as [s|]; [|done]. simpl.
  destruct (Stream.generator_next s) as [[o' s']|] eqn:E; [|done]. simpl.
  intros [= <- <-]. by exists s, s'.
Qed.

Lemma wf_generator_next r st o st' :
  wf st -> generator_next r st = Some (o, st') -> wf st'.
Proof.
  intros Hwf (s & s' & Hs & Hnext & ->)%generator_next_Some.
  apply stream_generator_next_Some in Hnext as (Hid & Hfin & Hq).
  split; unfold streams, pending_new; simpl.
  - intros rid r' Hr'.
    destruct (wf_live _ Hwf _ _ Hr') as (s0 & Hs0 & Hid0 & Hnf0).
    destruct (decide (r = r')) as [<-|Hne].
    + exists s'. rewrite list_lookup_insert_eq by by eapply lookup_lt_Some.
      simplify_eq. split; [done|]. by rewrite Hid, Hfin.
    + exists s0. by rewrite list_lookup_insert_ne.
  - intros r' nr Hin. rewrite list_lookup_insert_ne; [by apply (wf_fresh _ Hwf)|].
    intros <-. rewrite (wf_fresh _ Hwf _ _ Hin) in Hs. by simplify_eq.
  - apply (wf_nodup _ Hwf).
  - apply (wf_unregistered _ Hwf).
Qed.

Lemma wf_call c st : wf st -> wf (call st c).
Proof.
  intros Hwf. destruct c; simpl.
  - destruct (add_request _ _ _) as [[r st']|] eqn:E; [|done].
    by eapply wf_add_request.
  - by apply wf_abort_request.
  - by apply wf_drain.
  - by apply wf_process_request_output.
  - by apply wf_abort_request.
  - by apply wf_propagate_exception.
  - destruct (wait_for_new_requests st) eqn:E; simpl; [|done].
    by eapply wf_wait_for_new_requests.
  - destruct (generator_next stream st) as [[o st']|] eqn:E; simpl; [|done].
    by eapply wf_generator_next.
  - unfold generator_exit.
    destruct suspension, (heap st !! stream); try done.
    by apply wf_abort_request.
Qed.

(** Every history of calls on a new tracker leads to a well-formed
    state. *)
Lemma wf_calls cs st : wf st -> wf (calls cs st).
Proof.
  revert st. induction cs as [|c cs IH]; intros st Hwf; simpl; [done|].
  by apply IH, wf_call.
Qed.

(** *** A stream the tracker has let go of is never touched again *)

Lemma forgotten_abort_request rid e st r s :
  forgotten st r s -> forgotten (abort_request rid e st) r s.
Proof.
  intros (Hs & Hq & Hreg & Hpend). repeat split; [|done|..].
  - by rewrite abort_request_heap_other.
  - intros rid'. rewrite abort_request_streams.
    intros [_ ?]%lookup_delete_Some. by eapply Hreg.
  - by rewrite abort_request_pending_new.
Qed.

Lemma forgotten_abort_requests rids e st r s :
  forgotten st r s ->
  forgotten (fold_left (fun st rid => abort_request rid e st) rids st) r s.
Proof.
  revert st. induction rids as [|rid rids IH]; intros st Hf; simpl; [done|].
  by apply IH, forgotten_abort_request.
Qed.

Lemma forgotten_call c st r s : forgotten st r s -> forgotten (call st c) r s.
Proof.
  intros Hf. pose proof Hf as (Hs & Hq & Hreg & Hpend). destruct c; simpl.
  - unfold add_request. case_bool_decide; [done|].
    repeat split; unfold streams, pending_new; simpl; [|done|apply Hreg|].
    + by apply lookup_app_l_Some.
    + rewrite fmap_app. apply not_elem_of_app. split; [done|].
      simpl. apply not_elem_of_cons. split; [|apply not_elem_of_nil].
      apply lookup_lt_Some in Hs. lia.
  - by apply forgotten_abort_request.
  - repeat split; unfold streams, pending_new; simpl; [|done|..].
    + unfold drain_loop. by rewrite drain_heap_other.
    + intros rid [Hr|Hr]%drain_streams_from; [by eapply Hreg|done].
    + apply not_elem_of_nil.
  - repeat split; [|done|..].
    + by rewrite process_request_output_heap_other.
    + intros rid [Hr _]%process_request_output_streams. by eapply Hreg.
    + done.
  - by apply forgotten_abort_request.
  - destruct request_id; simpl;
      [by apply forgotten_abort_request|by apply forgotten_abort_requests].
  - unfold wait_for_new_requests. by destruct (_ || _).
  - destruct (generator_next stream st) as [[o st']|] eqn:E; simpl; [|done].
    apply generator_next_Some in E as (s0 & s' & Hs0 & Hnext & ->).
    assert (stream <> r) as Hne.
    { intros ->. simplify_eq.
      by apply stream_generator_next_Some in Hnext as (_ & _ & ?). }
    repeat split; try done. simpl. by rewrite list_lookup_insert_ne.
  - unfold generator_exit.
    destruct suspension, (heap st !! stream); try done.
    by apply forgotten_abort_request.
Qed.

Lemma forgotten_calls cs st r s :
  forgotten st r s -> forgotten (calls cs st) r s.
Proof.
  revert st. induction cs as [|c cs IH]; intros st Hf; simpl; [done|].
  by apply IH, forgotten_call.
Qed.

(** *** The claims about the tracker *)

Lemma drain_ok_prefix d l1 l2 : drain_ok d (l1 ++ l2) -> drain_ok d l1.
Proof.
  intros [Hlive Hfresh Hnodup Hapart]. split; [done|..].
  - intros r nr Hin. apply Hfresh, elem_of_app. by left.
  - rewrite fmap_app in Hnodup. by apply NoDup_app in Hnodup as [? _].
  - intros r nr rid Hin. eapply Hapart, elem_of_app. by left.
Qed.

(** An id with one entry that is aborted: the drain cancels its stream,
    does not register it and does not hand the request on. *)
Lemma drain_abort_once st rid pre r nr post :
  wf st ->
  rid ∈ pending_abort st ->
  pending_new st = pre ++ (r, nr) :: post ->
  nr_request_id nr = rid ->
  rid ∉ (nr_request_id ∘ snd) <$> pre ->
  rid ∉ (nr_request_id ∘ snd) <$> post ->
  let d := get_new_and_aborted_requests st in
  heap d.2 !! r = Some (Stream.finish (PyExc CancelledError) (Stream.init rid)) /\
  streams d.2 !! rid = None /\
  (forall nr', nr' ∈ d.1.1 -> nr_request_id nr' <> rid) /\
  rid ∉ d.1.2.
Proof.
  intros Hwf Habort Hsplit Hid Hpre Hpost.
  pose proof (drain_ok_start _ Hwf) as Hok0. rewrite Hsplit in Hok0.
  pose proof (drain_ok_fold _ _ _ Hok0) as Hok1.
  pose proof (drain_ok_step _ _ _ _ Hok1) as Hok2.
  set (d0 := drain_start st) in *.
  set (d1 := fold_left drain_one pre d0) in *.
  assert (Hr1 : d_heap d1 !! r = Some (Stream.init (nr_request_id nr))).
  { apply (dok_fresh _ _ Hok1). left. }
  destruct (drain_other_id pre d0 rid (drain_ok_prefix _ _ _ Hok0) Hpre)
    as [Hfin1 Hstr1]. fold d1 in Hfin1, Hstr1.
  assert (Hin1 : rid ∈ finished_requests d1).
  { apply Hfin1. unfold d0. simpl. by apply elem_of_list_to_set. }
  rewrite (drain_one_fresh _ _ _ Hr1), Hid, bool_decide_true in Hok2 by done.
  set (d2 := {| d_heap := finish_at r (PyExc CancelledError) (d_heap d1);
                d_streams := d_streams d1;
                new_requests := new_requests d1;
                finished_requests := finished_requests d1 ∖ {[rid]} |}) in *.
  destruct (drain_other_id post d2 rid Hok2 Hpost) as [Hfin3 Hstr3].
  assert (Hloop : drain_loop st = fold_left drain_one post d2).
  { unfold drain_loop. rewrite Hsplit, fold_left_app. simpl. fold d0 d1.
    by rewrite (drain_one_fresh _ _ _ Hr1), Hid, bool_decide_true. }
  assert (Hnotin : r ∉ post.*1).
  { pose proof (dok_nodup _ _ Hok1) as Hnd. rewrite fmap_cons in Hnd.
    by apply NoDup_cons in Hnd as [? _]. }
  unfold get_new_and_aborted_requests, streams.
  simpl. rewrite Hloop. repeat split.
  - rewrite drain_heap_other by done. simpl. unfold finish_at.
    by rewrite list_lookup_alter_eq, Hr1, Hid.
  - rewrite Hstr3. simpl. rewrite Hstr1. simpl.
    rewrite <-Hid. eapply (wf_unregistered _ Hwf). rewrite Hsplit.
    apply elem_of_app. right. left.
  - intros nr' Hin' Hid'. apply drain_new_from in Hin' as [Hin'|Hin'].
    + simpl in Hin'. apply drain_new_from in Hin' as [Hin'|Hin'].
      * by apply elem_of_nil in Hin'.
      * destruct Hpre. apply list_elem_of_fmap in Hin' as ([r' nr''] & -> & Hin').
        apply list_elem_of_fmap. by exists (r', nr'').
    + destruct Hpost. apply list_elem_of_fmap in Hin' as ([r' nr''] & -> & Hin').
      apply list_elem_of_fmap. by exists (r', nr'').
  - rewrite Hfin3. simpl. rewrite elem_of_difference, not_elem_of_singleton.
    by intros [_ ?].
Qed.

(** What the loop adds to the new requests comes from the entries. *)
Lemma drain_new_app l d :
  exists extra,
    new_requests (fold_left drain_one l d) = new_requests d ++ extra /\
    forall x, x ∈ extra -> x ∈ l.*2.
Proof.
  revert d. induction l as [|[r nr] l IH]; intros d; simpl.
  { exists []. by rewrite app_nil_r. }
  destruct (IH (drain_one d (r, nr))) as (extra & -> & Hextra).
  unfold drain_one. destruct (d_heap d !! r).
  - case_bool_decide; simpl.
    + exists extra. split; [done|]. intros x Hx. right. by apply Hextra.
    + exists (nr :: extra). rewrite <-app_assoc. split; [done|].
      intros x [->|Hx]%elem_of_cons; [left|right; by apply Hextra].
  - exists extra. split; [done|]. intros x Hx. right. by apply Hextra.
Qed.

(** An id with one entry that is not aborted: the drain registers its
    stream, untouched, and hands the request on, once. *)
Lemma drain_registers_once st rid pre r nr post :
  wf st ->
  pending_new st = pre ++ (r, nr) :: post ->
  nr_request_id nr = rid ->
  rid ∉ (nr_request_id ∘ snd) <$> pre ->
  rid ∉ (nr_request_id ∘ snd) <$> post ->
  rid ∉ pending_abort st ->
  let d := get_new_and_aborted_requests st in
  streams d.2 !! rid = Some r /\
  heap d.2 !! r = Some (Stream.init rid) /\
  exists np nq, d.1.1 = np ++ nr :: nq /\
    (forall x, x ∈ np -> nr_request_id x <> rid) /\
    (forall x, x ∈ nq -> nr_request_id x <> rid).
Proof.
  intros Hwf Hsplit Hid Hpre Hpost Habort.
  pose proof (drain_ok_start _ Hwf) as Hok0. rewrite Hsplit in Hok0.
  pose proof (drain_ok_fold _ _ _ Hok0) as Hok1.
  pose proof (drain_ok_step _ _ _ _ Hok1) as Hok2.
  set (d0 := drain_start st) in *.
  set (d1 := fold_left drain_one pre d0) in *.
  assert (Hr1 : d_heap d1 !! r = Some (Stream.init (nr_request_id nr))).
  { apply (dok_fresh _ _ Hok1). left. }
  assert (Hfin1 : rid ∉ finished_requests d1).
  { intros Hin%drain_finished_subseteq. simpl in Hin.
    by apply elem_of_list_to_set in Hin. }
  rewrite (drain_one_fresh _ _ _ Hr1), Hid, bool_decide_false in Hok2 by done.
  set (d2 := {| d_heap := d_heap d1;
                d_streams := <[rid := r]> (d_streams d1);
                new_requests := new_requests d1 ++ [nr];
                finished_requests := finished_requests d1 |}) in *.
  destruct (drain_other_id post d2 rid Hok2 Hpost) as [_ Hstr3].
  assert (Hloop : drain_loop st = fold_left drain_one post d2).
  { unfold drain_loop. rewrite Hsplit, fold_left_app. simpl. fold d0 d1.
    by rewrite (drain_one_fresh _ _ _ Hr1), Hid, bool_decide_false. }
  assert (Hnotin : r ∉ post.*1).
  { pose proof (dok_nodup _ _ Hok1) as Hnd. rewrite fmap_cons in Hnd.
    by apply NoDup_cons in Hnd as [? _]. }
  unfold get_new_and_aborted_requests, streams. simpl. rewrite Hloop.
  split; [|split].
  - rewrite Hstr3. simpl. apply lookup_insert_eq.
  - rewrite drain_heap_other by done. simpl. by rewrite Hr1, Hid.
  - destruct (drain_new_app pre d0) as (np & Hnp & Hnp_from).
    destruct (drain_new_app post d2) as (nq & Hnq & Hnq_from).
    fold d1 in Hnp. simpl in Hnp, Hnq. rewrite Hnp, <-app_assoc in Hnq.
    exists np, nq. split; [done|]. split.
    + intros x Hx%Hnp_from Hidx. destruct Hpre.
      apply list_elem_of_fmap in Hx as ([r' nr'] & -> & Hx).
      apply list_elem_of_fmap. by exists (r', nr').
    + intros x Hx%Hnq_from Hidx. destruct Hpost.
      apply list_elem_of_fmap in Hx as ([r' nr'] & -> & Hx).
      apply list_elem_of_fmap. by exists (r', nr').
Qed.

(** *** [propagate_exception] to all streams *)

(** While the second loop of the drain runs, an id whose abort is still to
    be matched has handed no request on. *)
Lemma drain_aborted_not_handed_on l d rid :
  drain_ok d l ->
  (rid ∈ finished_requests d -> rid ∉ nr_request_id <$> new_requests d) ->
  rid ∈ finished_requests (fold_left drain_one l d) ->
  rid ∉ nr_request_id <$> new_requests (fold_left drain_one l d).
Proof.
  revert d. induction l as [|[r nr] l IH]; intros d Hok Hinv; simpl; [done|].
  apply IH; [by apply drain_ok_step|].
  rewrite drain_one_fresh by (apply (dok_fresh _ _ Hok); left).
  case_bool_decide as Hin; simpl.
  - intros [Hrid Hne]%elem_of_difference. by apply Hinv.
  - intros Hrid. rewrite fmap_app, elem_of_app. intros [Hold|Hnew].
    + by apply Hinv.
    + apply list_elem_of_singleton in Hnew. by subst rid.
Qed.

(** The last request of an id in the queue, when the drain hands a request
    of this id on: its stream is the one that is registered under the id
    afterwards, and it is as it was made. *)
Lemma drain_hands_on_last st pre r nr post :
  wf st ->
  pending_new st = pre ++ (r, nr) :: post ->
  nr_request_id nr ∉ (nr_request_id ∘ snd) <$> post ->
  nr_request_id nr ∈ nr_request_id <$> (get_new_and_aborted_requests st).1.1 ->
  streams (get_new_and_aborted_requests st).2 !! nr_request_id nr = Some r /\
  heap (get_new_and_aborted_requests st).2 !! r
  = Some (Stream.init (nr_request_id nr)).
Proof.
  intros Hwf Hsplit Hpost Hin.
  unfold get_new_and_aborted_requests, streams, drain_loop in *. simpl in *.
  pose proof (drain_ok_start _ Hwf) as Hok. rewrite Hsplit in *.
  pose proof (drain_ok_fold _ _ _ Hok) as Hok1.
  rewrite fold_left_app in *. simpl in *.
  set (d1 := fold_left drain_one pre (drain_start st)) in *.
  pose proof (drain_ok_step _ _ _ _ Hok1) as Hok2.
  assert (Hfresh : d_heap d1 !! r = Some (Stream.init (nr_request_id nr))).
  { apply (dok_fresh _ _ Hok1). left. }
  assert (Hr : r ∉ post.*1).
  { pose proof (dok_nodup _ _ Hok1) as Hnd. simpl in Hnd.
    by apply NoDup_cons in Hnd as [? _]. }
  rewrite (drain_one_fresh _ _ _ Hfresh) in *.
  case_bool_decide as Hfin.
  - exfalso.
    apply list_elem_of_fmap in Hin as (nr0 & Hid0 & Hin0).
    apply drain_new_from in Hin0 as [Hin0|Hin0]; simpl in Hin0.
    + apply (drain_aborted_not_handed_on pre (drain_start st)
               (nr_request_id nr)); fold d1; try done.
      * by eapply drain_ok_prefix.
      * intros _. simpl. apply not_elem_of_nil.
      * rewrite Hid0. by apply list_elem_of_fmap_2.
    + apply Hpost. apply list_elem_of_fmap in Hin0 as ([r0 nr1] & -> & Hin0).
      rewrite Hid0. by apply (list_elem_of_fmap_2 (nr_request_id ∘ snd)) in Hin0.
  - destruct (drain_other_id post _ (nr_request_id nr) Hok2 Hpost) as [_ ->].
    rewrite (drain_heap_other _ _ _ Hr). simpl.
    by rewrite lookup_insert_eq.
Qed.

Lemma abort_requests_unregistered rids e st r :
  (forall rid, streams st !! rid <> Some r) ->
  heap (fold_left (fun st rid => abort_request rid e st) rids st) !! r
  = heap st !! r.
Proof.
  revert st. induction rids as [|rid rids IH]; intros st Hreg; simpl; [done|].
  rewrite IH.
  - by apply abort_request_heap_other.
  - intros rid'. rewrite abort_request_streams.
    intros [_ ?]%lookup_delete_Some. by eapply Hreg.
Qed.

Lemma abort_requests_spec rids e st :
  wf st ->
  let st' := fold_left (fun st rid => abort_request rid e st) rids st in
  forall rid,
    (streams st' !! rid = if bool_decide (rid ∈ rids) then None
                          else streams st !! rid) /\
    (forall r, streams st !! rid = Some r -> rid ∈ rids ->
               heap st' !! r = Stream.finish (of_exception e) <$> heap st !! r).
Proof.
  revert st. induction rids as [|rid0 rids IH]; intros st Hwf st' rid.
  { split; [done|]. intros r _ Hin. by apply elem_of_nil in Hin. }
  subst st'. simpl.
  pose proof (wf_abort_request rid0 e st Hwf) as Hwf1.
  destruct (IH _ Hwf1 rid) as [Hstr Hheap]. split.
  - rewrite Hstr, abort_request_streams.
    destruct (decide (rid = rid0)) as [->|Hne].
    + rewrite lookup_delete_eq, (bool_decide_true (_ ∈ _ :: _)) by left.
      by case_bool_decide.
    + rewrite lookup_delete_ne by done.
      case_bool_decide as Hin.
      * by rewrite bool_decide_true by by right.
      * rewrite bool_decide_false; [done|].
        by intros [?|?]%elem_of_cons.
  - intros r Hr Hin. destruct (decide (rid = rid0)) as [->|Hne].
    + rewrite abort_requests_unregistered.
      * by apply abort_request_heap_known.
      * intros rid'. rewrite abort_request_streams.
        intros [Hne' Hr']%lookup_delete_Some. apply Hne'.
        exact (wf_inj st _ _ r Hwf Hr Hr').
    + apply elem_of_cons in Hin as [?|Hin]; [done|].
      rewrite Hheap; [|by rewrite abort_request_streams, lookup_delete_ne|done].
      rewrite abort_request_heap_other; [done|].
      intros Hr0. apply Hne. exact (wf_inj st _ _ r Hwf Hr Hr0).
Qed.

Lemma elem_of_keys (m : gmap string nat) rid :
  rid ∈ keys m <-> is_Some (m !! rid).
Proof.
  unfold keys. rewrite list_elem_of_fmap. split.
  - intros ([k r] & -> & Hin). apply elem_of_map_to_list in Hin. by exists r.
  - intros [r Hr]. exists (rid, r). split; [done|].
    by apply elem_of_map_to_list.
Qed.

(** Every registered stream is finished with the exception, and none is
    registered afterwards. *)
Lemma propagate_exception_all exc st :
  wf st ->
  let st' := propagate_exception exc None st in
  streams st' = ∅ /\
  forall rid r s,
    streams st !! rid = Some r -> heap st !! r = Some s ->
    heap st' !! r =
    Some {| Stream.request_id := rid;
            Stream._queue := Stream._queue s ++ [PyExc exc];
            Stream._finished := true |}.
Proof.
  intros Hwf st'. unfold st', propagate_exception.
  pose proof (abort_requests_spec (keys (streams st)) (Some exc) st Hwf)
    as Hspec. simpl in Hspec. split.
  - apply map_eq. intros rid. rewrite lookup_empty.
    destruct (Hspec rid) as [-> _]. case_bool_decide as Hin; [done|].
    apply eq_None_not_Some. intros Hsome. by apply Hin, elem_of_keys.
  - intros rid r s Hr Hs. destruct (Hspec rid) as [_ ->]; [|done|].
    + destruct (wf_live _ Hwf _ _ Hr) as (s' & Hs' & Hid & Hnf).
      simplify_eq. rewrite Hs. simpl. unfold Stream.finish.
      by rewrite Hnf.
    + apply elem_of_keys. by exists r.
Qed.

(** C1, as amended.  For a request id that is in the abort queue and has
    exactly one entry in the queue of new requests when
    [get_new_and_aborted_requests] runs, the abort wins: the stream of that
    entry ends up holding the cancellation and nothing else, the id is not
    registered in [_request_streams], no request with that id is among the
    returned new requests, and the id is not in the returned set of aborted
    ids. *)
Theorem abort_wins_once st rid pre r nr post :
  wf st ->
  rid ∈ pending_abort st ->
  pending_new st = pre ++ (r, nr) :: post ->
  nr_request_id nr = rid ->
  rid ∉ (nr_request_id ∘ snd) <$> pre ->
  rid ∉ (nr_request_id ∘ snd) <$> post ->
  abort_wins st rid.
Proof.
  intros Hwf Habort Hsplit Hid Hpre Hpost.
  destruct (drain_abort_once st rid pre r nr post)
    as (Hcancelled & Hunreg & Hnew & Hnotab); try done.
  unfold abort_wins. split; [|done].
  intros r' nr' Hin' Hid'. rewrite Hsplit in Hin'.
  assert ((r', nr') = (r, nr)) as [= -> ->]; [|done].
  apply elem_of_app in Hin' as [Hin'|Hin'].
  - destruct Hpre. apply list_elem_of_fmap. by exists (r', nr').
  - apply elem_of_cons in Hin' as [?|Hin']; [done|].
    destruct Hpost. apply list_elem_of_fmap. by exists (r', nr').
Qed.

Lemma abort_wins_once_witness : abort_wins Tracker.once_then_abort "r1".
Proof.
  apply (abort_wins_once Tracker.once_then_abort "r1" []
           0 {| nr_request_id := "r1"; nr_kwargs := kwargs0 |} []).
  - apply wf_calls, wf_init.
  - vm_compute. left.
  - reflexivity.
  - reflexivity.
  - apply not_elem_of_nil.
  - apply not_elem_of_nil.
Defined.

(** C1 fails as stated: an id submitted twice before the drain and then
    aborted is in both queues, yet its second stream is registered and its
    second request is handed to the engine. *)
Lemma abort_wins_counterexample :
  wf twice_then_abort /\
  "r1" ∈ pending_abort twice_then_abort /\
  "r1" ∈ pending_ids twice_then_abort /\
  ~ abort_wins twice_then_abort "r1".
Proof.
  split; [apply wf_calls, wf_init|].
  split; [vm_compute; left|]. split; [vm_compute; left|].
  intros (_ & Hreg & _). vm_compute in Hreg. discriminate.
Qed.

(** The returned set of aborted ids: what is in the abort queue and has no
    entry among the new requests is in it, and nothing is in it that was not
    in the abort queue. *)
Lemma drained_aborted_set st :
  wf st ->
  (forall rid, rid ∈ (get_new_and_aborted_requests st).1.2 ->
               rid ∈ pending_abort st) /\
  (forall rid, rid ∈ pending_abort st -> rid ∉ pending_ids st ->
               rid ∈ (get_new_and_aborted_requests st).1.2).
Proof.
  intros Hwf. unfold get_new_and_aborted_requests, drain_loop. simpl. split.
  - intros rid Hin%drain_finished_subseteq. simpl in Hin.
    by apply elem_of_list_to_set in Hin.
  - intros rid Hin Hnotin.
    apply (drain_other_id _ _ rid (drain_ok_start _ Hwf) Hnotin).
    simpl. by apply elem_of_list_to_set.
Qed.

(** C3, as amended.  [abort_request] on an id that is not registered
    touches no stream and leaves [_request_streams] and the queue of new
    requests as they are, but it does put the id into the abort queue.  The
    set of aborted ids that [get_new_and_aborted_requests] returns holds
    only ids taken from the abort queue, and every such id that has no
    entry among the new requests: the unknown id is reported as aborted at
    the next drain, registered or not. *)
Theorem unknown_abort_is_reported st rid e :
  wf st ->
  streams st !! rid = None ->
  rid ∉ pending_ids st ->
  let st' := abort_request rid e st in
  (heap st' = heap st /\ streams st' = streams st /\
   pending_new st' = pending_new st /\
   pending_abort st' = pending_abort st ++ [rid]) /\
  (forall rid', rid' ∈ (get_new_and_aborted_requests st).1.2 ->
                rid' ∈ pending_abort st) /\
  (forall rid', rid' ∈ pending_abort st -> rid' ∉ pending_ids st ->
                rid' ∈ (get_new_and_aborted_requests st).1.2) /\
  rid ∈ (get_new_and_aborted_requests st').1.2.
Proof.
  intros Hwf Hunk Hnew st'.
  destruct (drained_aborted_set st Hwf) as [Hsub Hsup].
  split; [|split; [done|split; [done|]]].
  - unfold st'. by rewrite (abort_request_unknown _ _ _ Hunk).
  - destruct (drained_aborted_set st' (wf_abort_request _ _ _ Hwf)) as [_ Hsup'].
    apply Hsup'; unfold st'; rewrite (abort_request_unknown _ _ _ Hunk).
    + unfold pending_abort. simpl. apply elem_of_app. right. left.
    + done.
Qed.

Lemma unknown_abort_is_reported_witness :
  "r1" ∈ (get_new_and_aborted_requests
            (abort_request "r1" None init_state)).1.2.
Proof.
  apply (unknown_abort_is_reported init_state "r1" None).
  - apply wf_init.
  - reflexivity.
  - apply not_elem_of_nil.
Defined.

(** C3 fails as stated: on a new tracker, which knows no id,
    [abort_request] changes the state, and the next drain returns the id in
    the set of aborted ids although it was never registered. *)
Lemma unknown_abort_counterexample :
  let st := abort_request "r1" None init_state in
  streams init_state !! "r1" = None /\
  ("r1" ∉ pending_ids init_state) /\
  st <> init_state /\
  "r1" ∈ (get_new_and_aborted_requests st).1.2 /\
  ~ ever_registered [CallAbort "r1" None] "r1".
Proof.
  split; [done|]. split; [apply not_elem_of_nil|]. split; [discriminate|].
  split.
  - apply (bool_decide_unpack _). by vm_compute.
  - intros [n [r Hr]]. destruct n as [|n]; simpl in Hr; [done|].
    rewrite take_nil in Hr. by vm_compute in Hr.
Qed.

(** C10, as amended.  [add_request] raises, a [KeyError], only for an id
    that is registered in [_request_streams].  An id that is submitted
    again while its first request still waits in the queue of new requests
    is accepted: a second stream is made and queued behind the first.  If,
    when the next drain runs, both still wait, the second is the last
    request of the id and no abort of the id is queued, the drain hands
    both requests on and leaves the id registered with the second stream,
    and the first stream stays as it was made, unfinished, whatever is
    called on the tracker afterwards. *)
Theorem resubmit_while_pending st rid kw s1 nr1 :
  wf st ->
  (s1, nr1) ∈ pending_new st ->
  nr_request_id nr1 = rid ->
  (forall st0 rid0 kw0,
     ((exists e, add_request rid0 kw0 st0 = Raise e)
      <-> is_Some (streams st0 !! rid0)) /\
     (is_Some (streams st0 !! rid0) ->
      add_request rid0 kw0 st0 = Raise (KeyError rid0))) /\
  exists s2 st1,
    let nr2 := {| nr_request_id := rid; nr_kwargs := kw |} in
    add_request rid kw st = Ok (s2, st1) /\
    s2 <> s1 /\
    heap st1 !! s1 = Some (Stream.init rid) /\
    heap st1 !! s2 = Some (Stream.init rid) /\
    pending_new st1 = pending_new st ++ [(s2, nr2)] /\
    pending_abort st1 = pending_abort st /\
    forall st2 pre post,
      wf st2 ->
      (s1, nr1) ∈ pending_new st2 ->
      pending_new st2 = pre ++ (s2, nr2) :: post ->
      rid ∉ (nr_request_id ∘ snd) <$> post ->
      rid ∉ pending_abort st2 ->
      let d := get_new_and_aborted_requests st2 in
      streams d.2 !! rid = Some s2 /\
      nr1 ∈ d.1.1 /\
      nr2 ∈ d.1.1 /\
      forall cs, heap (calls cs d.2) !! s1 = Some (Stream.init rid).
Proof.
  intros Hwf Hin1 Hid.
  split; [intros; apply add_request_raises|].
  assert (Hunreg : streams st !! rid = None).
  { rewrite <-Hid. by apply (wf_unregistered _ Hwf _ _ Hin1). }
  pose proof (add_request_ok rid kw st Hunreg) as Hadd.
  set (s2 := length (heap st)) in *.
  set (nr2 := {| nr_request_id := rid; nr_kwargs := kw |}) in *.
  match type of Hadd with _ = Ok (_, ?x) => set (st1 := x) in * end.
  exists s2, st1.
  assert (Hs1 : heap st !! s1 = Some (Stream.init rid)).
  { rewrite <-Hid. by apply (wf_fresh _ Hwf). }
  assert (Hne : s2 <> s1).
  { apply lookup_lt_Some in Hs1. unfold s2. lia. }
  split; [done|]. split; [done|].
  split; [by apply lookup_app_l_Some|].
  split. { simpl. unfold s2. by rewrite lookup_app_r, Nat.sub_diag. }
  split; [done|]. split; [done|].
  intros st2 pre post Hwf2 Hin1' Hsplit Hpost Habort d.
  pose proof (drain_ok_start _ Hwf2) as Hok.
  assert (Hfin0 : rid ∉ finished_requests (drain_start st2)).
  { simpl. by rewrite elem_of_list_to_set. }
  assert (Hin2' : (s2, nr2) ∈ pending_new st2).
  { rewrite Hsplit. apply elem_of_app. right. left. }
  assert (Hnew1 : nr1 ∈ d.1.1).
  { eapply drain_not_aborted_new; [done|done|by rewrite Hid]. }
  assert (Hnew2 : nr2 ∈ d.1.1).
  { eapply drain_not_aborted_new; [done|done|done]. }
  destruct (drain_hands_on_last st2 pre s2 nr2 post Hwf2 Hsplit Hpost)
    as [Hreg Hheap2].
  { by apply (list_elem_of_fmap_2 nr_request_id) in Hnew2. }
  split; [done|]. split; [done|]. split; [done|].
  assert (Hheap1 : heap d.2 !! s1 = Some (Stream.init rid)).
  { unfold d, get_new_and_aborted_requests, drain_loop. simpl.
    rewrite (drain_not_aborted_heap _ _ _ Hok).
    - rewrite <-Hid. by apply (wf_fresh _ Hwf2).
    - intros nr0 Hin0.
      assert (nr_request_id nr0 = rid) as ->; [|done].
      apply (wf_fresh _ Hwf2) in Hin0.
      pose proof (wf_fresh _ Hwf2 _ _ Hin1') as Hfresh1.
      rewrite Hin0 in Hfresh1. injection Hfresh1 as ->. done. }
  intros cs. apply forgotten_calls.
  split; [exact Hheap1|]. split; [done|]. split.
  - intros rid' Hr'.
    destruct (wf_live _ (wf_drain _ Hwf2) _ _ Hr') as (s & Hs & Hids & _).
    fold d in Hs. rewrite Hheap1 in Hs. injection Hs as <-.
    simpl in Hids. subst rid'. unfold d in Hr'.
    change (nr_request_id nr2) with rid in Hreg. rewrite Hreg in Hr'.
    by injection Hr'.
  - apply not_elem_of_nil.
Qed.

Lemma resubmit_while_pending_witness :
  exists s2 st1,
    add_request "r1" kwargs0 Tracker.once = Ok (s2, st1) /\
    streams (get_new_and_aborted_requests st1).2 !! "r1" = Some s2 /\
    forall cs, heap (calls cs (get_new_and_aborted_requests st1).2) !! 0
               = Some (Stream.init "r1").
Proof.
  destruct (resubmit_while_pending Tracker.once "r1" kwargs0 0
              {| nr_request_id := "r1"; nr_kwargs := kwargs0 |})
    as (_ & s2 & st1 & Hadd & _ & _ & _ & Hnew & _ & Hdrain).
  - apply wf_calls, wf_init.
  - vm_compute. left.
  - reflexivity.
  - pose proof Hadd as Hadd'. vm_compute in Hadd'. injection Hadd' as <- <-.
    destruct (Hdrain _ [(0, {| nr_request_id := "r1"; nr_kwargs := kwargs0 |})]
                [] (wf_calls [CallAdd "r1" kwargs0; CallAdd "r1" kwargs0]
                             _ wf_init))
      as (Hreg & _ & _ & Hnever).
    + vm_compute. left.
    + reflexivity.
    + apply not_elem_of_nil.
    + apply not_elem_of_nil.
    + eexists _, _. split; [exact Hadd|]. split; [exact Hreg|exact Hnever].
Defined.

(** C10 fails as stated: when an abort of the id is queued behind the first
    request, the id is accepted again, but the drain takes the first
    request for the aborted one and finishes its stream with the
    cancellation. *)
Lemma resubmit_counterexample :
  wf once_then_abort /\
  (0, {| nr_request_id := "r1"; nr_kwargs := kwargs0 |})
    ∈ pending_new once_then_abort /\
  streams once_then_abort !! "r1" = None /\
  ~ resubmit_overwrites once_then_abort "r1" kwargs0 0.
Proof.
  split; [apply wf_calls, wf_init|]. split; [vm_compute; left|].
  split; [done|].
  intros (s2 & st1 & Hadd & _ & Hnever).
  vm_compute in Hadd. injection Hadd as <- <-.
  specialize (Hnever [] _ eq_refl). discriminate Hnever.
Qed.

End TrackerSpec.

(** ** _AsyncAphrodite: multi-step decoding *)

Module EngineSpec.
Import Engine.

Section WithExternal.
Context `{External}.

Lemma existsb_differs (ref_steps : Z) (rest : list SequenceGroupMetadata) :
  existsb (fun seq_group => negb (remaining_steps seq_group =? ref_steps)%Z)
          rest = true
  <-> exists seq_group, seq_group ∈ rest /\ remaining_steps seq_group <> ref_steps.
Proof.
  rewrite existsb_exists. split.
  - intros (g & Hin & Hg). exists g. split; [by apply list_elem_of_In|].
    apply negb_true_iff, Z.eqb_neq in Hg. done.
  - intros (g & Hin & Hg). exists g. split; [by apply list_elem_of_In|].
    by apply negb_true_iff, Z.eqb_neq.
Qed.

(** C8.  [_has_remaining_steps] raises the assertion error exactly when
    multi-step is enabled, the list is not empty and some group's remaining
    steps differ from the first group's.  In every other case it returns,
    and returns true exactly when multi-step is enabled, the list is not
    empty and the first group's (hence the shared) remaining steps are
    positive. *)
Theorem has_remaining_steps_spec e l :
  (_has_remaining_steps e l = Raise remaining_steps_error
   <-> steps_disagree e l) /\
  (~ steps_disagree e l ->
   exists b, _has_remaining_steps e l = Ok b /\
             (b = true <-> steps_remain e l)).
Proof.
  unfold steps_disagree, steps_remain, _has_remaining_steps.
  destruct l as [[|first rest]|].
  - split; [split; [done|]|intros _; exists false; split; [done|]].
    + by intros (_ & ? & ? & ? & _).
    + split; [done|]. by intros (_ & ? & ? & ? & _).
  - destruct (is_multi_step e); simpl.
    + destruct (existsb _ rest) eqn:Hex.
      * apply existsb_differs in Hex.
        split; [split; [intros _|done]|intros []]; split; try done;
          by exists first, rest.
      * assert (Hnone : ~ exists seq_group, seq_group ∈ rest /\
                  remaining_steps seq_group <> remaining_steps first).
        { intros Hd%existsb_differs. congruence. }
        split; [split; [done|]|intros _; eexists; split; [done|]].
        -- intros (_ & ? & ? & [= <- <-] & ?). done.
        -- rewrite Z.ltb_lt. split.
           ++ intros ?. split; [done|]. by exists first, rest.
           ++ by intros (_ & ? & ? & [= <- <-] & ?).
    + split; [split; [done|]|intros _; exists false; split; [done|]].
      * by intros [? _].
      * split; [done|]. by intros [? _].
  - split; [split; [done|]|intros _; exists false; split; [done|]].
    + by intros (_ & ? & ? & ? & _).
    + split; [done|]. by intros (_ & ? & ? & ? & _).
Qed.

Lemma same_shape_refl e : same_shape e e.
Proof. by repeat split. Qed.

Lemma same_shape_trans e1 e2 e3 :
  same_shape e1 e2 -> same_shape e2 e3 -> same_shape e1 e3.
Proof. intros (?&?&?) (?&?&?). repeat split; congruence. Qed.

Lemma same_shape_set_ext x e : same_shape e (set_ext x e).
Proof. by repeat split. Qed.

Lemma same_shape_cache v l so e :
  same_shape e (_cache_scheduler_outputs_for_multi_step v l so e).
Proof. repeat split; simpl. apply length_alter. Qed.

Lemma same_shape_update v output e e' :
  _update_cached_scheduler_output v output e = Ok e' -> same_shape e e'.
Proof.
  unfold _update_cached_scheduler_output. intros Hu.
  repeat (case_match; simplify_eq/=); try apply same_shape_refl.
  repeat split; simpl. apply length_insert.
Qed.

Lemma same_shape_write_back v aliased l e :
  same_shape e (write_back v aliased l e).
Proof.
  unfold write_back. destruct aliased; [|apply same_shape_refl].
  repeat split; simpl. apply length_alter.
Qed.

Create HintDb shape.
Hint Resolve same_shape_refl same_shape_set_ext same_shape_cache
  same_shape_write_back : shape.

(** Case analysis on the next call that may raise. *)
Ltac case_result H :=
  match type of H with
  | context [mbind _ ?m] =>
      let E := fresh "E" in
      destruct m as [?|?] eqn:E; simpl in H; [|discriminate H]
  end.

Lemma step_schedule_shape v e c l so aliased e' :
  step_schedule v e c = Ok (l, so, aliased, e') -> same_shape e e'.
Proof.
  unfold step_schedule. intros Hs. case_result Hs.
  destruct a; simpl in Hs; [by simplify_eq; auto with shape|].
  case_result Hs. destruct a as [[l0 so0] x].
  destruct (_ && _); simplify_eq;
    eauto using same_shape_trans with shape.
Qed.

Lemma step_execute_shape v l so e output e' :
  step_execute v l so e = Ok (output, e') -> same_shape e e'.
Proof.
  unfold step_execute. intros Hs.
  destruct (is_empty so); simpl in Hs; [by simplify_eq; auto with shape|].
  case_result Hs. destruct a as [ids x]. case_result Hs. case_result Hs.
  destruct a0 as [output0 x0]. case_result Hs. simplify_eq.
  apply (same_shape_trans _ (set_ext x0 (set_ext x e))); [done|].
  destruct (is_multi_step _); [by eapply same_shape_update|].
  simplify_eq. auto with shape.
Qed.

Lemma step_finish_shape v aliased l e l' e' :
  step_finish v aliased l e = Ok (l', e') -> same_shape e e'.
Proof.
  unfold step_finish. intros Hs. destruct (is_multi_step e).
  - case_result Hs. simplify_eq. auto with shape.
  - simplify_eq. auto with shape.
Qed.

Lemma step_async_execute_shape v e sl :
  step_async_execute v e = Ok sl ->
  same_shape e (sl_engine sl) /\ v < length (cached_scheduler_outputs e).
Proof.
  unfold step_async_execute. intros Hs.
  destruct (cached_scheduler_outputs e !! v) as [c|] eqn:Hc; [|done].
  split; [|by eapply lookup_lt_Some].
  simpl in Hs. case_result Hs. destruct a as [[[l so] aliased] e1].
  destruct l as [l|]; [|done]. destruct so as [so|]; [|done]. simpl in Hs.
  case_result Hs. destruct a as [output e2].
  case_result Hs. destruct a as [l' e3]. simplify_eq. simpl.
  apply (same_shape_trans _ e1); [by eapply step_schedule_shape|].
  apply (same_shape_trans _ e2); [by eapply step_execute_shape|].
  by eapply step_finish_shape.
Qed.

(** C9.  When [step_async] has finished the step of every group: if the
    groups still have remaining steps it returns the empty list and leaves
    the cache as it is; if no steps remain it resets the cache entry of the
    virtual engine to the empty state (under multi-step) and returns the
    outputs that [_process_model_outputs] makes; if the groups disagree the
    assertion error escapes. *)
Theorem step_async_defers_or_materialises v e sl :
  step_async_execute v e = Ok sl ->
  let e1 := sl_engine sl in
  let l := sl_seq_group_metadata_list sl in
  let so := sl_scheduler_outputs sl in
  let output := sl_output sl in
  match _has_remaining_steps e1 (Some l) with
  | Ok true =>
      forall x, do_log_stats so output (ext e1) = Ok x ->
        step_async v e = Ok ([], set_ext x e1) /\
        cached_scheduler_outputs (set_ext x e1) = cached_scheduler_outputs e1
  | Ok false =>
      forall request_outputs x x',
        _process_model_outputs output so l (ext e1) = Ok (request_outputs, x) ->
        do_log_stats so output x = Ok x' ->
        exists e',
          step_async v e = Ok (request_outputs, e') /\
          (is_multi_step e = true ->
           cached_scheduler_outputs e' =
             <[v := SchedulerOutputState_init]> (cached_scheduler_outputs e1) /\
           cached_scheduler_outputs e' !! v = Some SchedulerOutputState_init) /\
          (is_multi_step e = false ->
           cached_scheduler_outputs e' = cached_scheduler_outputs e1)
  | Raise exc => step_async v e = Raise exc
  end.
Proof.
  intros Hexec e1 l so output. subst e1 l so output.
  destruct (step_async_execute_shape _ _ _ Hexec) as [(Hms & _ & Hlen) Hv].
  assert (step_async v e = step_async_outputs v sl) as ->.
  { unfold step_async. by rewrite Hexec. }
  unfold step_async_outputs. cbv zeta.
  destruct (_has_remaining_steps (sl_engine sl)
              (Some (sl_seq_group_metadata_list sl))) as [[|]|exc];
    simpl; [| |done].
  - intros x ->. done.
  - intros request_outputs x x' Hproc Hlog. rewrite Hms.
    destruct (is_multi_step e); simpl; rewrite Hproc; simpl; rewrite Hlog;
      simpl; eexists; (split; [done|]); split; try done.
    intros _. split; [done|]. simpl.
    apply list_lookup_insert_eq. lia.
Qed.

End WithExternal.

#[local] Existing Instance example_external.

Lemma step_async_defers_or_materialises_witness :
  exists sl,
    step_async_execute 0 example_engine = Ok sl /\
    step_async 0 example_engine = Ok ([], sl_engine sl) /\
    seq_group_metadata_list <$> cached_scheduler_outputs (sl_engine sl) !! 0
    = Some (Some [1%Z; 1%Z]).
Proof.
  eexists. split; [reflexivity|].
  pose proof (step_async_defers_or_materialises 0 example_engine _ eq_refl)
    as Hstep.
  simpl in Hstep. destruct (Hstep tt eq_refl) as [Hs _].
  split; [exact Hs|reflexivity].
Defined.

End EngineSpec.

(** ** AsyncAphrodite: validation errors, the watchdog, the life cycle *)

Module SupervisorSpec.
Import Supervisor.

Lemma abort_requests_pending_new rids e st :
  Tracker.pending_new
    (fold_left (fun st rid => Tracker.abort_request rid e st) rids st)
  = Tracker.pending_new st.
Proof.
  revert st. induction rids as [|rid rids IH]; intros st; simpl; [done|].
  by rewrite IH, TrackerSpec.abort_request_pending_new.
Qed.

Lemma quiet_head n others : quiet (S n) others -> default [] (head others) = [].
Proof.
  intros Hq. destruct others as [|o others]; simpl; [done|].
  apply (Hq 0 o); [lia|done].
Qed.

Lemma quiet_tail n others : quiet (S n) others -> quiet n (tail others).
Proof.
  intros Hq i o Hi Ho. rewrite lookup_tail in Ho. apply (Hq (S i) o); [lia|done].
Qed.

Lemma quiet_lookup n others :
  quiet (S n) others -> default [] (others !! n) = [].
Proof.
  intros Hq. destruct (others !! n) as [o|] eqn:Ho; simpl; [|done].
  apply (Hq n o); [lia|done].
Qed.

(** The calls of the other tasks at the await of the request number [n]. *)
Lemma head_drop_lookup {A} n (l : list A) : head (drop n l) = l !! n.
Proof. by rewrite head_lookup, lookup_drop, Nat.add_0_r. Qed.

Lemma tail_drop_S {A} n (l : list A) : tail (drop n l) = drop (S n) l.
Proof.
  revert l. induction n as [|n IH]; intros [|x l]; simpl; done.
Qed.

Section WithExternal.
Context `{Engine.External}.

Lemma add_new_requests_app use_ray l1 l2 others s :
  add_new_requests use_ray (l1 ++ l2) others s =
  match add_new_requests use_ray l1 others s with
  | (s', None) => add_new_requests use_ray l2 (drop (length l1) others) s'
  | r => r
  end.
Proof.
  revert others s. induction l1 as [|nr l1 IH]; intros others s; simpl.
  { done. }
  destruct (add_new_request use_ray nr _ s) as [s' [exc|]]; [done|].
  rewrite IH. by destruct others; simpl; rewrite ?drop_nil.
Qed.

(** The step of the loop at the request [nr], after the requests [new1]. *)
Lemma add_new_requests_at use_ray new1 nr new2 others s e1 st1 :
  add_new_requests use_ray new1 others s = (e1, st1, None) ->
  add_new_requests use_ray (new1 ++ nr :: new2) others s =
  match add_new_request use_ray nr (default [] (others !! length new1))
                        (e1, st1) with
  | (s', None) =>
      add_new_requests use_ray new2 (drop (S (length new1)) others) s'
  | (s', Some exc) => (s', Some exc)
  end.
Proof.
  intros Hadd1. rewrite add_new_requests_app, Hadd1. cbn [add_new_requests].
  by rewrite head_drop_lookup, tail_drop_S.
Qed.

(** Whatever the other tasks do meanwhile, the loop over the new requests
    keeps the invariant of the tracker. *)
Lemma add_new_request_wf use_ray nr o e st e' st' esc :
  add_new_request use_ray nr o (e, st) = (e', st', esc) ->
  Tracker.wf st -> Tracker.wf st'.
Proof.
  unfold add_new_request. intros Hadd Hwf.
  pose proof (TrackerSpec.wf_calls o st Hwf) as Hwf'.
  destruct (engine_add_request use_ray nr e) as [e0 [exc|]];
    [destruct (is_ValueError exc)|]; simplify_eq; try done.
  by apply TrackerSpec.wf_abort_request.
Qed.

Lemma add_new_requests_wf use_ray l others e st e' st' esc :
  add_new_requests use_ray l others (e, st) = (e', st', esc) ->
  Tracker.wf st -> Tracker.wf st'.
Proof.
  revert others e st. induction l as [|nr l IH]; intros others e st Hadd Hwf;
    cbn [add_new_requests] in Hadd.
  { by simplify_eq. }
  destruct (add_new_request use_ray nr _ (e, st)) as [[e0 st0] esc0] eqn:Hone.
  pose proof (add_new_request_wf _ _ _ _ _ _ _ _ Hone Hwf) as Hwf0.
  destruct esc0 as [exc|]; [by simplify_eq|]. by eapply IH.
Qed.

(** With no other task at work, a request with another id leaves the
    stream registered under [rid] alone. *)
Lemma add_new_request_other use_ray nr0 e st e' st' esc rid :
  add_new_request use_ray nr0 [] (e, st) = (e', st', esc) ->
  Tracker.wf st ->
  Tracker.nr_request_id nr0 <> rid ->
  Tracker.streams st' !! rid = Tracker.streams st !! rid /\
  forall r, Tracker.streams st !! rid = Some r ->
            Tracker.heap st' !! r = Tracker.heap st !! r.
Proof.
  unfold add_new_request. intros Hadd Hwf Hne. simpl in Hadd.
  destruct (engine_add_request use_ray nr0 e) as [e0 [exc|]];
    [destruct (is_ValueError exc)|]; simplify_eq; try done.
  unfold Tracker.process_exception. split.
  - by rewrite TrackerSpec.abort_request_streams, lookup_delete_ne.
  - intros r Hr. apply TrackerSpec.abort_request_heap_other.
    intros Hr0. apply Hne. exact (TrackerSpec.wf_inj st _ _ r Hwf Hr0 Hr).
Qed.

Lemma add_new_requests_other use_ray l others e st e' st' esc rid :
  add_new_requests use_ray l others (e, st) = (e', st', esc) ->
  Tracker.wf st ->
  quiet (length l) others ->
  (forall x, x ∈ l -> Tracker.nr_request_id x <> rid) ->
  Tracker.streams st' !! rid = Tracker.streams st !! rid /\
  forall r, Tracker.streams st !! rid = Some r ->
            Tracker.heap st' !! r = Tracker.heap st !! r.
Proof.
  revert others e st.
  induction l as [|nr l IH]; intros others e st Hadd Hwf Hq Hids;
    cbn [add_new_requests] in Hadd.
  { by simplify_eq. }
  simpl in Hq. rewrite (quiet_head _ _ Hq) in Hadd.
  destruct (add_new_request use_ray nr [] (e, st)) as [[e0 st0] esc0] eqn:Hone.
  pose proof (add_new_request_wf _ _ _ _ _ _ _ _ Hone Hwf) as Hwf0.
  destruct (add_new_request_other _ _ _ _ _ _ _ rid Hone Hwf)
    as (Hstr0 & Hheap0); [apply Hids; left|].
  destruct esc0 as [exc|].
  - by simplify_eq.
  - destruct (IH _ _ _ Hadd Hwf0) as (Hstr' & Hheap').
    { by eapply quiet_tail. }
    { intros x Hx. apply Hids. by right. }
    split; [congruence|].
    intros r Hr. rewrite Hheap' by congruence. by apply Hheap0.
Qed.

(** When its turn comes, the last request of an id, if it is the only one
    of the id that the drain handed on and no other task was at work, is
    still registered with its own stream, which is as it was made. *)
Lemma registered_at_turn use_ray others e st pre r nr post new1 new2 e1 st1 :
  Tracker.wf st ->
  Tracker.pending_new st = pre ++ (r, nr) :: post ->
  Tracker.nr_request_id nr ∉ (Tracker.nr_request_id ∘ snd) <$> post ->
  (Tracker.get_new_and_aborted_requests st).1.1 = new1 ++ nr :: new2 ->
  Tracker.nr_request_id nr ∉ Tracker.nr_request_id <$> new1 ->
  quiet (length new1) others ->
  add_new_requests use_ray new1 others
    (e, (Tracker.get_new_and_aborted_requests st).2) = (e1, st1, None) ->
  Tracker.streams st1 !! Tracker.nr_request_id nr = Some r /\
  Tracker.heap st1 !! r = Some (Stream.init (Tracker.nr_request_id nr)).
Proof.
  intros Hwf Hsplit Hpost Hnew Hnew1 Hq Hadd1.
  destruct (TrackerSpec.drain_hands_on_last st pre r nr post Hwf Hsplit Hpost)
    as [Hstr Hheap].
  { rewrite Hnew, fmap_app. apply elem_of_app. right. left. }
  destruct (add_new_requests_other _ _ _ _ _ _ _ _
              (Tracker.nr_request_id nr) Hadd1)
    as (Hstr1 & Hheap1); [by apply TrackerSpec.wf_drain|done| |].
  { intros x Hx Hid. apply Hnew1. rewrite <-Hid.
    by apply list_elem_of_fmap_2. }
  rewrite Hstr in Hstr1. specialize (Hheap1 r Hstr). by rewrite Hheap in Hheap1.
Qed.

(** The turn of a request that the engine rejects with a [ValueError]:
    after what the other tasks did while the engine was awaited,
    [process_exception] finishes the stream registered under its id. *)
Lemma add_new_request_rejected use_ray nr o e1 st1 e2 exc :
  engine_add_request use_ray nr e1 = (e2, Some exc) ->
  is_ValueError exc = true ->
  let rid := Tracker.nr_request_id nr in
  let st1' := Tracker.calls o st1 in
  let st2 := Tracker.abort_request rid (Some exc) st1' in
  add_new_request use_ray nr o (e1, st1) = (e2, st2, None) /\
  Tracker.streams st2 !! rid = None /\
  (forall r s,
     Tracker.streams st1' !! rid = Some r -> Tracker.heap st1' !! r = Some s ->
     Tracker.heap st2 !! r = Some (Stream.finish (PyExc exc) s)) /\
  (forall r', Tracker.streams st1' !! rid <> Some r' ->
     Tracker.heap st2 !! r' = Tracker.heap st1' !! r').
Proof.
  intros Heng Hval rid st1' st2.
  split; [unfold add_new_request; by rewrite Heng, Hval|].
  split; [|split].
  - unfold st2. by rewrite TrackerSpec.abort_request_streams, lookup_delete_eq.
  - intros r s Hstr Hheap. unfold st2.
    by rewrite (TrackerSpec.abort_request_heap_known _ _ _ _ Hstr), Hheap.
  - intros r' Hne. by apply TrackerSpec.abort_request_heap_other.
Qed.

(** C4, as amended.  If the engine's [add_request] raises a [ValueError],
    or an instance of a subclass of it, for a request that the drain handed
    on, then, whatever the other tasks do to the tracker while
    [engine_step] awaits the engine, the error does not escape
    [engine_step] and the loop goes on with the remaining requests; the
    error is routed by request id: the id is removed from
    [_request_streams], the stream that is registered under it at that
    moment, if there is one, is finished with exactly that error, and no
    other stream changes.  That stream is the request's own, and the error
    is all it holds, when the request is the last one of its id in the
    queue, no other request that the drain handed on has its id, and no
    other task was at work during the awaits up to then. *)
Theorem validation_error_reaches_stream use_ray others e st new1 nr new2
    e1 st1 e2 exc :
  let d := Tracker.get_new_and_aborted_requests st in
  let rid := Tracker.nr_request_id nr in
  let o := default [] (others !! length new1) in
  let st1' := Tracker.calls o st1 in
  let st2 := Tracker.abort_request rid (Some exc) st1' in
  d.1.1 = new1 ++ nr :: new2 ->
  add_new_requests use_ray new1 others (e, d.2) = (e1, st1, None) ->
  engine_add_request use_ray nr e1 = (e2, Some exc) ->
  is_ValueError exc = true ->
  add_new_request use_ray nr o (e1, st1) = (e2, st2, None) /\
  add_new_requests use_ray (new1 ++ nr :: new2) others (e, d.2)
  = add_new_requests use_ray new2 (drop (S (length new1)) others) (e2, st2) /\
  Tracker.streams st2 !! rid = None /\
  (forall r s,
     Tracker.wf st ->
     Tracker.streams st1' !! rid = Some r ->
     Tracker.heap st1' !! r = Some s ->
     Tracker.heap st2 !! r =
       Some {| Stream.request_id := rid;
               Stream._queue := Stream._queue s ++ [PyExc exc];
               Stream._finished := true |}) /\
  (forall r', Tracker.streams st1' !! rid <> Some r' ->
     Tracker.heap st2 !! r' = Tracker.heap st1' !! r') /\
  (forall pre r post,
     Tracker.wf st ->
     Tracker.pending_new st = pre ++ (r, nr) :: post ->
     rid ∉ (Tracker.nr_request_id ∘ snd) <$> post ->
     rid ∉ Tracker.nr_request_id <$> new1 ->
     rid ∉ Tracker.nr_request_id <$> new2 ->
     quiet (S (length new1)) others ->
     Tracker.streams st1' !! rid = Some r /\
     Tracker.heap st2 !! r =
       Some {| Stream.request_id := rid;
               Stream._queue := [PyExc exc];
               Stream._finished := true |}).
Proof.
  intros d rid o st1' st2 Hnew Hadd1 Heng Hval.
  destruct (add_new_request_rejected use_ray nr o e1 st1 e2 exc Heng Hval)
    as (Hone & Hunreg & Hfin & Hother).
  fold rid st1' st2 in Hone, Hunreg, Hfin, Hother.
  assert (Hwf1' : Tracker.wf st -> Tracker.wf st1').
  { intros Hwf. apply TrackerSpec.wf_calls.
    eapply add_new_requests_wf; [exact Hadd1|].
    by apply TrackerSpec.wf_drain. }
  split; [done|]. split.
  { rewrite (add_new_requests_at _ _ _ _ _ _ _ _ Hadd1). fold o.
    by rewrite Hone. }
  split; [done|]. split; [|split; [done|]].
  - intros r s Hwf Hstr Hheap. rewrite (Hfin r s Hstr Hheap).
    destruct (Tracker.wf_live _ (Hwf1' Hwf) _ _ Hstr) as (s' & Hs' & Hid & Hnf).
    rewrite Hheap in Hs'. injection Hs' as <-.
    unfold Stream.finish. by rewrite Hnf, Hid.
  - intros pre r post Hwf Hsplit Hpost Hnew1 _ Hq.
    destruct (registered_at_turn use_ray others e st pre r nr post new1 new2
                e1 st1) as [Hstr Hheap]; try done.
    { intros i x Hi. apply Hq. lia. }
    assert (Ho : o = []) by by apply quiet_lookup.
    assert (Hst1' : st1' = st1) by (unfold st1'; by rewrite Ho).
    rewrite Hst1' in *. split; [done|].
    by rewrite (Hfin r _ Hstr Hheap).
Qed.

(** *** The watchdog *)

Lemma asyncio_timeout_fires T t :
  (inject_Z T < t)%Q -> asyncio_timeout T t = true.
Proof.
  intros Hlt. unfold asyncio_timeout. apply negb_true_iff, not_true_is_false.
  intros Hle%Qle_bool_iff. by apply Qlt_not_le in Hlt.
Qed.

Lemma loop_wait_timeout T c a l :
  asyncio_timeout T (elapsed c) = true ->
  exists a0, loop_wait T c a l = (set_errored TimeoutError a0, Raised TimeoutError).
Proof.
  intros Hfire. unfold loop_wait.
  destruct (fold_left complete_step (completing c) (a, requests_in_progress l))
    as [a0 ts].
  rewrite Hfire. by exists a0.
Qed.

Lemma tracker_state_set_tracker_state st a :
  tracker_state (set_tracker_state st a) = Some st.
Proof. by destruct st. Qed.

(** C5, as amended.  If a wait of the engine loop takes longer than the
    watchdog timeout (60 seconds unless the environment says otherwise),
    the turn of the loop raises the timeout error, so the loop exits, and
    the supervisor is marked as errored; when the done callback of the
    background task then runs, every stream that is registered, that is,
    whose request the drain has handed to the engine and that is neither
    finished nor aborted, is finished with the timeout error, and the
    supervisor stays errored.  A stream whose request still waits in the
    queue of new requests is not among them: it stays in the queue as it
    was made, unfinished. *)
Theorem watchdog_timeout T c a l :
  (inject_Z T < elapsed c)%Q ->
  ENGINE_ITERATION_TIMEOUT_S None = 60%Z /\
  (loop_wait T c a l).2 = Raised TimeoutError /\
  errored (loop_wait T c a l).1 = true /\
  forall task st1,
    tracker_state (loop_wait T c a l).1 = Some st1 ->
    Tracker.wf st1 ->
    let callback :=
      background_task_raised task TimeoutError (loop_wait T c a l).1 in
    callback.2 = Raise unexpected_finish_error /\
    errored callback.1 = true /\
    all_live_streams_failed TimeoutError st1 callback.1 /\
    exists st2,
      tracker_state callback.1 = Some st2 /\
      Tracker.pending_new st2 = Tracker.pending_new st1 /\
      forall r nr, (r, nr) ∈ Tracker.pending_new st1 ->
        Tracker.heap st2 !! r
        = Some (Stream.init (Tracker.nr_request_id nr)).
Proof.
  intros Hlt. split; [done|].
  destruct (loop_wait_timeout T c a l (asyncio_timeout_fires _ _ Hlt))
    as [a0 ->]. simpl.
  split; [done|]. split; [done|].
  intros task st1 Hst1 Hwf.
  unfold background_task_raised, _log_task_completion, _error_callback.
  match goal with
  | |- context [tracker_state ?a] =>
      change (tracker_state a) with (tracker_state (set_errored TimeoutError a0))
  end.
  rewrite Hst1. simpl. split; [done|]. split; [done|].
  destruct (TrackerSpec.propagate_exception_all TimeoutError st1 Hwf)
    as [Hempty Hall].
  split.
  { eexists. split; [apply tracker_state_set_tracker_state|]. by split. }
  eexists. split; [apply tracker_state_set_tracker_state|].
  assert (Hnew : Tracker.pending_new
                   (Tracker.propagate_exception TimeoutError None st1)
                 = Tracker.pending_new st1)
    by apply abort_requests_pending_new.
  split; [done|]. intros r nr Hin.
  apply (Tracker.wf_fresh _ (TrackerSpec.wf_propagate_exception _ None _ Hwf)).
  by rewrite Hnew.
Qed.

(** *** Adapters *)

Lemma add_request_async_without_lora nr e lora :
  Tracker.lora_request (Tracker.nr_kwargs nr) = Some lora ->
  Engine.lora_config e = None ->
  Engine.add_request_async nr e = (e, Some (Engine.lora_error lora)).
Proof. unfold Engine.add_request_async. by intros -> ->. Qed.

(** C6, as amended.  A submission that supplies an adapter while the
    (local) engine is not configured for LoRA is not refused for it: the
    call returns or raises exactly as the same submission without the
    adapter does; on a running supervisor, under an id that is not
    registered, it returns the new stream and queues the request.  The
    failure arises later, in [engine_step]: for every request with an
    adapter that the engine is handed, [add_request_async] raises a
    [ValueError], which [engine_step] catches and routes by request id as
    it does every validation error: after what the other tasks did
    meanwhile, the id is removed from [_request_streams], the stream that
    is registered under it at that moment is finished with this error, and
    no other stream changes. *)
Theorem adapter_error_on_stream a request_id inputs params arrival_time
    lora prompt_adapter now :
  let submit lora_request :=
    add_request request_id inputs params arrival_time lora_request
                prompt_adapter now a in
  (submit (Some lora)).2 = (submit None).2 /\
  (forall st,
     is_running a = true ->
     tracker_state a = Some st ->
     Tracker.streams st !! request_id = None ->
     exists st1 nr,
       (submit (Some lora)).2 = Ok (length (stream_heap a)) /\
       tracker_state (submit (Some lora)).1 = Some st1 /\
       Tracker.pending_new st1
       = Tracker.pending_new st ++ [(length (stream_heap a), nr)] /\
       Tracker.nr_request_id nr = request_id /\
       Tracker.lora_request (Tracker.nr_kwargs nr) = Some lora /\
       Tracker.heap st1 !! length (stream_heap a)
       = Some (Stream.init request_id)) /\
  (forall nr e,
     Tracker.lora_request (Tracker.nr_kwargs nr) = Some lora ->
     Engine.lora_config e = None ->
     engine_add_request false nr e = (e, Some (Engine.lora_error lora)) /\
     is_ValueError (Engine.lora_error lora) = true /\
     forall o st1,
       let rid := Tracker.nr_request_id nr in
       let st1' := Tracker.calls o st1 in
       let st2 :=
         Tracker.abort_request rid (Some (Engine.lora_error lora)) st1' in
       add_new_request false nr o (e, st1) = (e, st2, None) /\
       Tracker.streams st2 !! rid = None /\
       (forall r s,
          Tracker.streams st1' !! rid = Some r ->
          Tracker.heap st1' !! r = Some s ->
          Tracker.heap st2 !! r
          = Some (Stream.finish (PyExc (Engine.lora_error lora)) s)) /\
       (forall r', Tracker.streams st1' !! rid <> Some r' ->
          Tracker.heap st2 !! r' = Tracker.heap st1' !! r')).
Proof.
  intros submit. split; [|split].
  - unfold submit, add_request.
    destruct (if negb (is_running a) then _ else _) as [a0 [[]|exc]]; [|done].
    destruct (tracker_state a0) as [st|]; [|done].
    unfold Tracker.add_request. by case_bool_decide.
  - intros st Hrun Hst Hunreg.
    assert (Hheap : Tracker.heap st = stream_heap a).
    { unfold tracker_state in Hst. destruct (_request_tracker a); [|done].
      by simplify_eq/=. }
    set (kw := {| Tracker.inputs := inputs; Tracker.params := params;
                  Tracker.arrival_time :=
                    match arrival_time with
                    | Some t => if (t =? 0)%Z then now else t
                    | None => now
                    end;
                  Tracker.lora_request := Some lora;
                  Tracker.prompt_adapter_request := prompt_adapter |}).
    pose proof (TrackerSpec.add_request_ok request_id kw st Hunreg) as Hadd.
    unfold submit, add_request. rewrite Hrun. simpl. rewrite Hst. fold kw.
    rewrite Hadd. rewrite <-Hheap.
    eexists _, {| Tracker.nr_request_id := request_id;
                  Tracker.nr_kwargs := kw |}.
    split; [reflexivity|].
    split; [apply tracker_state_set_tracker_state|]. simpl.
    split; [done|]. split; [done|]. split; [done|].
    by rewrite lookup_app_r, Nat.sub_diag.
  - intros nr e Hlora Hconfig.
    assert (Heng : engine_add_request false nr e
                   = (e, Some (Engine.lora_error lora))).
    { unfold engine_add_request.
      by rewrite (add_request_async_without_lora _ _ _ Hlora Hconfig). }
    assert (Hval : is_ValueError (Engine.lora_error lora) = true) by done.
    split; [done|]. split; [done|]. intros o st1.
    apply (add_new_request_rejected false nr o e st1 e _ Heng Hval).
Qed.

(** *** Shutdown *)

(** C7, as amended.  After [shutdown_background_loop] nothing runs.  A
    later submission fails with the engine-dead error when
    [start_engine_loop] is false or the supervisor has errored; when
    [start_engine_loop] is true (the default) and the supervisor has not
    errored, the submission starts a new background loop with a new
    tracker and is accepted. *)
Theorem submit_after_shutdown a request_id inputs params arrival_time lora
    prompt_adapter now :
  let a' := shutdown_background_loop a in
  let submit := add_request request_id inputs params arrival_time lora
                            prompt_adapter now a' in
  is_running a' = false /\
  (start_engine_loop a = false \/ errored a = true ->
   submit.1 = a' /\ exists msg, submit.2 = Raise (AsyncEngineDeadError msg)) /\
  (start_engine_loop a = true -> errored a = false ->
   submit.2 = Ok (length (stream_heap a)) /\
   is_running submit.1 = true /\
   exists st, tracker_state submit.1 = Some st /\
              Tracker.streams st = ∅ /\
              Tracker.pending_ids st = [request_id]).
Proof.
  intros a' submit.
  assert (Hrun : is_running a' = false) by done.
  assert (Herr : errored a' = errored a) by done.
  split; [done|]. subst submit. unfold add_request. rewrite Hrun. simpl.
  change (start_engine_loop a') with (start_engine_loop a).
  unfold start_background_loop. rewrite Herr, Hrun.
  split.
  - intros [-> | ->].
    + split; [done|]. by eexists.
    + destruct (start_engine_loop a); (split; [done|]); by eexists.
  - intros -> ->. simpl.
    rewrite TrackerSpec.add_request_ok by apply lookup_empty. simpl.
    split; [done|]. split.
    + unfold is_running. simpl.
      by rewrite lookup_app_r, Nat.sub_diag.
    + eexists. by split.
Qed.

End WithExternal.

#[local] Existing Instance Engine.example_external.

Lemma validation_error_reaches_stream_witness :
  let nr := {| Tracker.nr_request_id := "r1";
               Tracker.nr_kwargs := kwargs_lora |} in
  let d := Tracker.get_new_and_aborted_requests aborted_then_resubmitted in
  d.1.1 = [nr] /\
  Tracker.heap
    (Tracker.abort_request "r1" (Some (Engine.lora_error "adapter")) d.2) !! 1
  = Some {| Stream.request_id := "r1";
            Stream._queue := [PyExc (Engine.lora_error "adapter")];
            Stream._finished := true |}.
Proof.
  split; [reflexivity|].
  pose proof (validation_error_reaches_stream false [] Engine.example_engine
                aborted_then_resubmitted []
                {| Tracker.nr_request_id := "r1";
                   Tracker.nr_kwargs := kwargs_lora |} []
                Engine.example_engine
                (Tracker.get_new_and_aborted_requests
                   aborted_then_resubmitted).2
                Engine.example_engine (Engine.lora_error "adapter")
                eq_refl eq_refl eq_refl eq_refl)
    as (_ & _ & _ & _ & _ & Hown).
  destruct (Hown [(0, {| Tracker.nr_request_id := "r1";
                         Tracker.nr_kwargs := Tracker.kwargs0 |})] 1 [])
    as [_ Hheap].
  - apply TrackerSpec.wf_calls, TrackerSpec.wf_init.
  - reflexivity.
  - apply not_elem_of_nil.
  - apply not_elem_of_nil.
  - apply not_elem_of_nil.
  - intros i o Hi Ho. by rewrite lookup_nil in Ho.
  - exact Hheap.
Defined.

(** C4 fails as stated: when the id [r1] is submitted twice before the
    drain, first with an adapter that the engine rejects, then without, the
    error of the first request finishes the stream of the second, and the
    stream of the first stays open. *)
Lemma validation_error_counterexample :
  let nr := {| Tracker.nr_request_id := "r1";
               Tracker.nr_kwargs := kwargs_lora |} in
  Tracker.wf twice_first_with_adapter /\
  (0, nr) ∈ Tracker.pending_new twice_first_with_adapter /\
  ~ validation_error_routed false Engine.example_engine
      twice_first_with_adapter 0 nr.
Proof.
  split; [apply TrackerSpec.wf_calls, TrackerSpec.wf_init|].
  split; [left|].
  intros Hrouted.
  destruct (Hrouted [] [{| Tracker.nr_request_id := "r1";
                           Tracker.nr_kwargs := Tracker.kwargs0 |}]
              Engine.example_engine
              (Tracker.get_new_and_aborted_requests
                 twice_first_with_adapter).2
              Engine.example_engine (Engine.lora_error "adapter")
              eq_refl eq_refl eq_refl eq_refl)
    as (st2 & Hadd & Hheap & _).
  vm_compute in Hadd. injection Hadd as <-.
  vm_compute in Hheap. discriminate.
Qed.

Lemma watchdog_timeout_witness :
  all_live_streams_failed TimeoutError two_live
    (background_task_raised 0 TimeoutError
       (loop_wait 60 {| completing := []; elapsed := 61 |}
                  example_supervisor_live
                  (loop_init example_supervisor_live)).1).1.
Proof.
  apply (watchdog_timeout 60 {| completing := []; elapsed := 61 |}
           example_supervisor_live (loop_init example_supervisor_live)).
  - reflexivity.
  - reflexivity.
  - apply TrackerSpec.wf_calls, TrackerSpec.wf_init.
Defined.

(** C5 fails as stated: the request [r2] is submitted while the step for
    [r1] hangs; when the watchdog fires and the done callback has run, the
    stream of [r1] holds the timeout error, but the stream of [r2], which
    was live, is unfinished and empty, and nothing will finish it. *)
Lemma watchdog_counterexample :
  let c := {| completing := []; elapsed := 61 |} in
  let l := {| has_requests_in_progress := [true];
              requests_in_progress := [StepInFlight] |} in
  let timed_out := loop_wait 60 c example_supervisor_hanging l in
  let callback := background_task_raised 0 TimeoutError timed_out.1 in
  timed_out.2 = Raised TimeoutError /\
  tracker_state timed_out.1 = Some one_live_one_waiting /\
  Tracker.heap one_live_one_waiting !! 1 = Some (Stream.init "r2") /\
  (stream_heap callback.1 !! 1 = Some (Stream.init "r2")) /\
  ~ every_live_stream_failed TimeoutError one_live_one_waiting callback.1.
Proof.
  split; [reflexivity|]. split; [reflexivity|]. split; [reflexivity|].
  split; [reflexivity|].
  intros (st' & Hst' & Hall).
  vm_compute in Hst'. injection Hst' as <-.
  specialize (Hall 1 (Stream.init "r2") eq_refl eq_refl).
  vm_compute in Hall. discriminate.
Qed.

Lemma adapter_error_on_stream_witness :
  (add_request "r1" "hi" "" None (Some "adapter") None 0
               example_supervisor).2 = Ok 0 /\
  engine_add_request false
    {| Tracker.nr_request_id := "r1"; Tracker.nr_kwargs := kwargs_lora |}
    Engine.example_engine
  = (Engine.example_engine, Some (Engine.lora_error "adapter")).
Proof.
  destruct (adapter_error_on_stream example_supervisor "r1" "hi" "" None
              "adapter" None 0%Z) as (_ & Hsubmit & Hlater).
  destruct (Hsubmit Tracker.init_state eq_refl eq_refl eq_refl)
    as (st1 & nr & Hok & _).
  destruct (Hlater {| Tracker.nr_request_id := "r1";
                      Tracker.nr_kwargs := kwargs_lora |}
              Engine.example_engine eq_refl eq_refl) as (Heng & _).
  split; [exact Hok|exact Heng].
Defined.

(** From the submission to the consumer: the call returns the stream, the
    next [engine_step] leaves the [ValueError] on it, and that is what the
    consumer gets. *)
Example adapter_error_end_to_end :
  let submit := add_request "r1" "hi" "" None (Some "adapter") None 0
                            example_supervisor in
  let step := engine_step no_awaits 0 submit.1 in
  submit.2 = Ok 0 /\
  step.2 = Ok false /\
  (s ← stream_heap step.1 !! 0; fst <$> Stream.generator_next s)
  = Some (Stream.Raised (PyExc (Engine.lora_error "adapter"))).
Proof. by vm_compute. Qed.

(** C6 fails as stated: the submission with an adapter to the example
    supervisor, whose engine has no LoRA configuration, returns a stream. *)
Lemma adapter_disabled_counterexample :
  Engine.lora_config (engine example_supervisor) = None /\
  ~ adapter_disabled_synchronous example_supervisor.
Proof.
  split; [done|]. intros Hsync.
  destruct (Hsync "r1" "hi" "" None "adapter" None 0%Z eq_refl) as [exc Hexc].
  vm_compute in Hexc. discriminate.
Qed.

(** C7 fails as stated: the example supervisor, made with the default
    [start_engine_loop=True], accepts a submission after its shutdown. *)
Lemma shutdown_counterexample :
  is_running example_supervisor = true /\
  ~ dead_after_shutdown example_supervisor.
Proof.
  split; [done|]. intros [_ Hdead].
  destruct (Hdead "r1" "hi" "" None None None 0%Z) as [msg Hmsg].
  vm_compute in Hmsg. discriminate.
Qed.

End SupervisorSpec.

(** ** The scenarios of the specification, run on the model *)

Module Scenarios.
Import Tracker.

(** Single request, three increments. *)
Example single_request :
  observes 0 (calls [CallAdd "r1" kwargs0; CallDrain;
                     CallOutput (out "r1" "A" false);
                     CallOutput (out "r1" "B" false);
                     CallOutput (out "r1" "C" true)] init_state)
  = Some [Stream.Yielded (PyOutput (out "r1" "A" false));
          Stream.Yielded (PyOutput (out "r1" "B" false));
          Stream.Yielded (PyOutput (out "r1" "C" true));
          Stream.Returned].
Proof. reflexivity. Qed.

(** Two concurrent requests with interleaved outputs. *)
Example two_requests :
  let st := calls [CallAdd "r1" kwargs0; CallAdd "r2" kwargs0; CallDrain;
                   CallOutput (out "r1" "x" false);
                   CallOutput (out "r2" "p" false);
                   CallOutput (out "r1" "y" true);
                   CallOutput (out "r2" "q" true)] init_state in
  observes 0 st
  = Some [Stream.Yielded (PyOutput (out "r1" "x" false));
          Stream.Yielded (PyOutput (out "r1" "y" true));
          Stream.Returned] /\
  observes 1 st
  = Some [Stream.Yielded (PyOutput (out "r2" "p" false));
          Stream.Yielded (PyOutput (out "r2" "q" true));
          Stream.Returned] /\
  streams st = ∅.
Proof. by vm_compute. Qed.

(** Abort before dispatch: the consumer sees the cancellation only, and
    the drain has nothing for the engine. *)
Example abort_before_dispatch :
  let d := get_new_and_aborted_requests
             (calls [CallAdd "r1" kwargs0;
                     CallAbort "r1" (Some CancelledError)] init_state) in
  observes 0 d.2 = Some [Stream.Raised (PyExc CancelledError)] /\
  d.1.1 = [] /\ d.1.2 = ∅.
Proof. by vm_compute. Qed.

(** An output for a request that was aborted meanwhile is dropped. *)
Example output_after_abort :
  let st := calls [CallAdd "r1" kwargs0; CallDrain;
                   CallAbort "r1" (Some CancelledError);
                   CallOutput (out "r1" "A" false)] init_state in
  observes 0 st = Some [Stream.Raised (PyExc CancelledError)].
Proof. reflexivity. Qed.

End Scenarios.

(** * Further properties of the code *)

(** ** RequestTracker: draining, aborting, routing *)

Module TrackerMore.
Import Tracker.

Lemma drain_no_aborts l d :
  drain_ok d l ->
  finished_requests d = ∅ ->
  new_requests (fold_left drain_one l d) = new_requests d ++ l.*2 /\
  finished_requests (fold_left drain_one l d) = ∅ /\
  d_heap (fold_left drain_one l d) = d_heap d.
Proof.
  revert d. induction l as [|[r nr] l IH]; intros d Hok Hfin; simpl.
  { by rewrite app_nil_r. }
  pose proof (drain_ok_step := TrackerSpec.drain_ok_step _ _ _ _ Hok).
  assert (Hone : drain_one d (r, nr) =
                 {| d_heap := d_heap d;
                    d_streams := <[nr_request_id nr := r]> (d_streams d);
                    new_requests := new_requests d ++ [nr];
                    finished_requests := finished_requests d |}).
  { rewrite TrackerSpec.drain_one_fresh by (apply (dok_fresh _ _ Hok); left).
    rewrite bool_decide_false; [done|]. rewrite Hfin. apply not_elem_of_empty. }
  rewrite Hone in *.
  destruct (IH _ drain_ok_step Hfin) as (-> & -> & ->). simpl.
  by rewrite <-app_assoc.
Qed.

Lemma drain_streams_mono l d rid :
  is_Some (d_streams d !! rid) ->
  is_Some (d_streams (fold_left drain_one l d) !! rid).
Proof.
  revert d. induction l as [|[r nr] l IH]; intros d Hsome; simpl; [done|].
  apply IH. unfold drain_one. destruct (d_heap d !! r); [|done].
  case_bool_decide; simpl; [done|].
  rewrite lookup_insert_is_Some. destruct (decide (Stream.request_id a = rid));
    [by left|by right].
Qed.

(** X1.  Without an abort in the queue, the drain hands every waiting request
    to the engine, in the order of submission, registers the id of each,
    reports no abort and touches no stream. *)
Theorem drain_without_aborts st :
  wf st ->
  pending_abort st = [] ->
  let d := get_new_and_aborted_requests st in
  d.1.1 = (pending_new st).*2 /\
  d.1.2 = ∅ /\
  heap d.2 = heap st /\
  forall rid, rid ∈ pending_ids st -> is_Some (streams d.2 !! rid).
Proof.
  intros Hwf Habort d. subst d.
  pose proof (TrackerSpec.drain_ok_start _ Hwf) as Hok.
  destruct (drain_no_aborts _ _ Hok) as (Hnew & Hfin & Hheap).
  { simpl. by rewrite Habort. }
  unfold get_new_and_aborted_requests, drain_loop, streams. simpl.
  split; [done|]. split; [done|]. split; [done|].
  intros rid Hin. unfold pending_ids in Hin.
  apply list_elem_of_fmap in Hin as ([r nr] & -> & Hin). simpl.
  apply list_elem_of_split in Hin as (pre & post & Hsplit). rewrite Hsplit.
  rewrite fold_left_app. simpl. apply drain_streams_mono.
  rewrite Hsplit in Hok. apply TrackerSpec.drain_ok_fold in Hok.
  rewrite TrackerSpec.drain_one_fresh by (apply (dok_fresh _ _ Hok); left).
  destruct (drain_no_aborts pre (drain_start st)) as (_ & Hfin' & _).
  { eapply TrackerSpec.drain_ok_prefix.
    rewrite <-Hsplit. by apply TrackerSpec.drain_ok_start. }
  { simpl. by rewrite Habort. }
  rewrite bool_decide_false by (rewrite Hfin'; apply not_elem_of_empty).
  simpl. rewrite lookup_insert_eq. eauto.
Qed.

Lemma drain_without_aborts_witness :
  (get_new_and_aborted_requests Examples.two_waiting).1.1
  = (pending_new Examples.two_waiting).*2.
Proof.
  apply (drain_without_aborts Examples.two_waiting).
  - apply TrackerSpec.wf_calls, TrackerSpec.wf_init.
  - reflexivity.
Defined.

Lemma drain_new_sublist l d :
  exists extra,
    new_requests (fold_left drain_one l d) = new_requests d ++ extra /\
    extra `sublist_of` l.*2.
Proof.
  revert d. induction l as [|[r nr] l IH]; intros d; simpl.
  { exists []. by rewrite app_nil_r. }
  destruct (IH (drain_one d (r, nr))) as (extra & -> & Hextra).
  unfold drain_one. destruct (d_heap d !! r).
  - case_bool_decide; simpl.
    + exists extra. split; [done|]. by apply sublist_cons.
    + exists (nr :: extra). rewrite <-app_assoc. split; [done|].
      by apply sublist_skip.
  - exists extra. split; [done|]. by apply sublist_cons.
Qed.

(** While the loop runs, every id that is registered was registered
    before or belongs to a request that the loop hands on, and every
    request that the loop hands on has its id registered. *)
Lemma drain_registers_what_it_returns l d (before : gmap string nat) :
  drain_ok d l ->
  (forall rid, is_Some (d_streams d !! rid) ->
     is_Some (before !! rid) \/ rid ∈ nr_request_id <$> new_requests d) ->
  (forall nr, nr ∈ new_requests d -> is_Some (d_streams d !! nr_request_id nr)) ->
  let d' := fold_left drain_one l d in
  (forall rid, is_Some (d_streams d' !! rid) ->
     is_Some (before !! rid) \/ rid ∈ nr_request_id <$> new_requests d') /\
  (forall nr, nr ∈ new_requests d' -> is_Some (d_streams d' !! nr_request_id nr)).
Proof.
  revert d. induction l as [|[r nr] l IH]; intros d Hok Hfrom Hreg; simpl;
    [done|].
  apply IH; [by apply TrackerSpec.drain_ok_step|..];
    rewrite TrackerSpec.drain_one_fresh by (apply (dok_fresh _ _ Hok); left);
    case_bool_decide; simpl; try done.
  - intros rid [<-|Hsome]%lookup_insert_is_Some'.
    + right. rewrite fmap_app. apply elem_of_app. right. left.
    + destruct (Hfrom rid Hsome) as [?|Hin]; [by left|right].
      rewrite fmap_app. apply elem_of_app. by left.
  - intros nr' [Hin|Hin]%elem_of_app.
    + apply lookup_insert_is_Some'. right. by apply Hreg.
    + apply list_elem_of_singleton in Hin as ->.
      apply lookup_insert_is_Some'. by left.
Qed.

(** X2.  The requests that a drain returns are waiting requests in the order
    of their submission, and the drain registers exactly what it returns:
    the id of every returned request is registered afterwards, and an id
    that is registered afterwards was registered before or is the id of a
    returned request. *)
Theorem drain_keeps_order_and_registers st :
  wf st ->
  let d := get_new_and_aborted_requests st in
  d.1.1 `sublist_of` (pending_new st).*2 /\
  (forall nr, nr ∈ d.1.1 -> is_Some (streams d.2 !! nr_request_id nr)) /\
  (forall rid, is_Some (streams d.2 !! rid) ->
     is_Some (streams st !! rid) \/ rid ∈ nr_request_id <$> d.1.1).
Proof.
  intros Hwf d. subst d.
  unfold get_new_and_aborted_requests, drain_loop, streams. simpl. split.
  - destruct (drain_new_sublist (pending_new st) (drain_start st))
      as (extra & -> & Hsub). done.
  - destruct (drain_registers_what_it_returns (pending_new st) (drain_start st)
                (_request_streams (tracker st))) as [Hfrom Hreg].
    + by apply TrackerSpec.drain_ok_start.
    + intros rid Hsome. by left.
    + intros nr Hin. by apply elem_of_nil in Hin.
    + done.
Qed.

Lemma drain_keeps_order_and_registers_witness :
  (get_new_and_aborted_requests twice_then_abort).1.1
  `sublist_of` (pending_new twice_then_abort).*2.
Proof.
  apply (drain_keeps_order_and_registers twice_then_abort).
  apply TrackerSpec.wf_calls, TrackerSpec.wf_init.
Defined.

Lemma abort_request_pending_abort rid e st :
  pending_abort (abort_request rid e st) = pending_abort st ++ [rid].
Proof. unfold abort_request, pending_abort. by destruct (_ !! _). Qed.

(** X3.  Aborting an id a second time touches no stream, and the next drain
    returns what it would have returned after the first abort. *)
Theorem abort_twice rid e1 e2 st :
  let st1 := abort_request rid e1 st in
  let st2 := abort_request rid e2 st1 in
  heap st2 = heap st1 /\
  streams st2 = streams st1 /\
  pending_new st2 = pending_new st1 /\
  get_new_and_aborted_requests st2 = get_new_and_aborted_requests st1.
Proof.
  intros st1 st2.
  assert (Hgone : streams st1 !! rid = None).
  { unfold st1. rewrite TrackerSpec.abort_request_streams.
    apply lookup_delete_eq. }
  assert (Hst2 : st2 = {| heap := heap st1;
                          tracker := {| _request_streams := streams st1;
                                        _aborted_requests := pending_abort st1 ++ [rid];
                                        _new_requests := pending_new st1;
                                        new_requests_event :=
                                          new_requests_event (tracker st1) |} |}).
  { by apply TrackerSpec.abort_request_unknown. }
  rewrite Hst2. split; [done|]. split; [done|]. split; [done|].
  assert (Hset : list_to_set (C := gset string) (pending_abort st1 ++ [rid])
                 = list_to_set (pending_abort st1)).
  { assert (rid ∈ pending_abort st1).
    { assert (pending_abort st1 = pending_abort st ++ [rid]) as ->.
      { apply abort_request_pending_abort. }
      apply elem_of_app. right. left. }
    apply set_eq. intros x. rewrite !elem_of_list_to_set, elem_of_app.
    split; [|by left]. intros [?|Hx]; [done|].
    by apply list_elem_of_singleton in Hx as ->. }
  unfold get_new_and_aborted_requests, drain_loop, drain_start, streams,
    pending_new, pending_abort in *. simpl. by rewrite Hset.
Qed.

Lemma process_request_output_unknown o st :
  streams st !! out_request_id o = None -> process_request_output o st = st.
Proof.
  unfold process_request_output, streams. intros Hnone. rewrite Hnone.
  destruct st as [h [s a n ev]]. simpl in *.
  destruct (out_finished o); [|done]. by rewrite delete_id.
Qed.

(** X4.  An output that arrives for a request after its abort is dropped: the
    state stays as the abort left it. *)
Theorem output_after_abort_is_dropped o e st :
  process_request_output o (abort_request (out_request_id o) e st)
  = abort_request (out_request_id o) e st.
Proof.
  apply process_request_output_unknown.
  rewrite TrackerSpec.abort_request_streams. apply lookup_delete_eq.
Qed.

(** X5.  An output for a registered request is appended to the queue of its
    stream; when it is the finished one, the clean terminator follows it and
    the id is free for a new submission, else the stream stays registered.
    No other stream changes. *)
Theorem output_is_routed o st r s :
  wf st ->
  streams st !! out_request_id o = Some r ->
  heap st !! r = Some s ->
  let st' := process_request_output o st in
  heap st' !! r =
    Some {| Stream.request_id := out_request_id o;
            Stream._queue :=
              Stream._queue s ++
              PyOutput o :: (if out_finished o then [STOP_ITERATION] else []);
            Stream._finished := out_finished o |} /\
  streams st' !! out_request_id o = (if out_finished o then None else Some r) /\
  (forall r', r' <> r -> heap st' !! r' = heap st !! r') /\
  (out_finished o = true ->
   forall kw, exists r2 st2, add_request (out_request_id o) kw st' = Ok (r2, st2)).
Proof.
  intros Hwf Hr Hs st'.
  destruct (wf_live _ Hwf _ _ Hr) as (s' & Hs' & Hid & Hnf). simplify_eq.
  assert (Hstr : streams st' !! out_request_id o
                 = if out_finished o then None else Some r).
  { unfold st', process_request_output, streams. simpl.
    destruct (out_finished o); [apply lookup_delete_eq|done]. }
  split; [|split; [done|split]].
  - unfold st', process_request_output. fold (streams st). rewrite Hr. simpl.
    rewrite list_lookup_alter_eq, Hs. simpl. f_equal.
    unfold Stream.put, Stream.finish. rewrite Hnf, <-Hid. simpl.
    destruct (out_finished o); simpl; [|by destruct s].
    by rewrite <-app_assoc.
  - intros r' Hne. apply TrackerSpec.process_request_output_heap_other.
    congruence.
  - intros Hfin kw. rewrite Hfin in Hstr.
    rewrite (TrackerSpec.add_request_ok _ kw _ Hstr). eauto.
Qed.

Lemma output_is_routed_witness :
  heap (process_request_output (out "r1" "B" true) Supervisor.two_live) !! 0
  = Some {| Stream.request_id := "r1";
            Stream._queue := [PyOutput (out "r1" "A" false);
                              PyOutput (out "r1" "B" true); STOP_ITERATION];
            Stream._finished := true |}.
Proof.
  apply (output_is_routed (out "r1" "B" true) Supervisor.two_live 0
           {| Stream.request_id := "r1";
              Stream._queue := [PyOutput (out "r1" "A" false)];
              Stream._finished := false |}).
  - apply TrackerSpec.wf_calls, TrackerSpec.wf_init.
  - reflexivity.
  - reflexivity.
Defined.

Lemma abort_requests_queues rids e st :
  let st' := fold_left (fun st rid => abort_request rid e st) rids st in
  pending_abort st' = pending_abort st ++ rids /\
  pending_new st' = pending_new st.
Proof.
  revert st. induction rids as [|rid rids IH]; intros st; simpl.
  { by rewrite app_nil_r. }
  destruct (IH (abort_request rid e st)) as [-> ->].
  rewrite abort_request_pending_abort, TrackerSpec.abort_request_pending_new.
  by rewrite <-app_assoc.
Qed.

(** X6.  Propagating an exception to every request reaches the registered
    streams only: a request that is still waiting for its first drain keeps
    its place in the queue and its stream stays as it was created.  Every id
    that was registered is queued for abort, and the next drain reports it
    to the engine as aborted. *)
Theorem propagate_exception_skips_waiting exc st :
  wf st ->
  let st' := propagate_exception exc None st in
  pending_new st' = pending_new st /\
  (forall r nr, (r, nr) ∈ pending_new st ->
     heap st' !! r = Some (Stream.init (nr_request_id nr))) /\
  pending_abort st' = pending_abort st ++ keys (streams st) /\
  (forall rid, is_Some (streams st !! rid) ->
     rid ∈ (get_new_and_aborted_requests st').1.2).
Proof.
  intros Hwf st'.
  assert (Hwf' : wf st') by by apply TrackerSpec.wf_propagate_exception.
  destruct (abort_requests_queues (keys (streams st)) (Some exc) st)
    as [Habort Hnew].
  fold (propagate_exception exc None st) in Habort, Hnew. fold st' in Habort, Hnew.
  split; [done|]. split; [|split; [done|]].
  - intros r nr Hin. apply (wf_fresh _ Hwf'). by rewrite Hnew.
  - intros rid Hsome.
    apply (TrackerSpec.drained_aborted_set st' Hwf').
    + rewrite Habort. apply elem_of_app. right.
      by apply TrackerSpec.elem_of_keys.
    + unfold pending_ids. rewrite Hnew.
      intros ([r nr] & Heq & Hin)%list_elem_of_fmap. simpl in Heq. subst rid.
      rewrite (wf_unregistered _ Hwf _ _ Hin) in Hsome. by destruct Hsome.
Qed.

Lemma propagate_exception_skips_waiting_witness :
  pending_new (propagate_exception (ExcInstance "RuntimeError" "boom") None
                 once_then_abort)
  = pending_new once_then_abort.
Proof.
  apply (propagate_exception_skips_waiting (ExcInstance "RuntimeError" "boom")
           once_then_abort).
  apply TrackerSpec.wf_calls, TrackerSpec.wf_init.
Defined.



(** X8.  An abort does not wake the loop: a loop that is suspended in its wait
    for new requests stays suspended however many requests are aborted, so
    the ids queued for abort reach the engine only with the next
    submission. *)
Theorem abort_does_not_wake rids e st :
  wait_for_new_requests st = None ->
  let st' := fold_left (fun st rid => abort_request rid e st) rids st in
  wait_for_new_requests st' = None /\
  pending_abort st' = pending_abort st ++ rids.
Proof.
  intros Hwait st'.
  destruct (abort_requests_queues rids e st) as [Habort Hnew].
  fold st' in Habort, Hnew. split; [|done].
  assert (Hev : new_requests_event (tracker st')
                = new_requests_event (tracker st)).
  { unfold st'. clear. revert st.
    induction rids as [|rid rids IH]; intros st; simpl; [done|].
    rewrite IH. unfold abort_request. by destruct (_ !! _). }
  unfold wait_for_new_requests, has_new_requests in *.
  rewrite Hnew, Hev. by destruct (_ || _).
Qed.

Lemma abort_does_not_wake_witness :
  wait_for_new_requests
    (fold_left (fun st rid => abort_request rid None st) ["r1"; "r2"]
               init_state) = None.
Proof.
  apply (abort_does_not_wake ["r1"; "r2"] None init_state).
  reflexivity.
Defined.



End TrackerMore.

(** ** _AsyncAphrodite: the schedule cache *)

Module EngineMore.
Import Engine.

(** Case analysis on the next call that may raise. *)
Ltac case_result H :=
  match type of H with
  | context [mbind _ ?m] =>
      let E := fresh "E" in
      destruct m as [?|?] eqn:E; simpl in H; [|discriminate H]
  end.

Section WithExternal.
Context `{External}.

Lemma has_remaining_steps_single_step e l :
  is_multi_step e = false -> _has_remaining_steps e l = Ok false.
Proof. intros Hms. destruct l as [[|??]|]; simpl; by rewrite ?Hms. Qed.

Lemma step_schedule_single_step v e c l so aliased e' :
  is_multi_step e = false ->
  step_schedule v e c = Ok (l, so, aliased, e') ->
  exists l0 so0 x,
    schedule v (ext e) = Ok (l0, so0, x) /\
    l = Some l0 /\ so = Some so0 /\ aliased = false /\ e' = set_ext x e.
Proof.
  unfold step_schedule. intros Hms Hs.
  rewrite (has_remaining_steps_single_step _ _ Hms) in Hs. simpl in Hs.
  case_result Hs. destruct a as [[l0 so0] x]. simpl in Hs.
  rewrite Hms in Hs. simplify_eq/=. eauto 10.
Qed.

Lemma step_execute_single_step v l so e output e' :
  is_multi_step e = false ->
  step_execute v l so e = Ok (output, e') ->
  is_multi_step e' = false /\
  cached_scheduler_outputs e' = cached_scheduler_outputs e.
Proof.
  unfold step_execute. intros Hms Hs.
  destruct (is_empty so); simpl in Hs; [by simplify_eq|].
  case_result Hs. destruct a as [ids x]. case_result Hs. case_result Hs.
  destruct a0 as [output0 x0]. rewrite Hms in Hs. by simplify_eq/=.
Qed.

Lemma step_async_execute_single_step v e sl :
  is_multi_step e = false ->
  step_async_execute v e = Ok sl ->
  is_multi_step (sl_engine sl) = false /\
  cached_scheduler_outputs (sl_engine sl) = cached_scheduler_outputs e /\
  exists x, schedule v (ext e)
            = Ok (sl_seq_group_metadata_list sl, sl_scheduler_outputs sl, x).
Proof.
  unfold step_async_execute. intros Hms Hs.
  destruct (cached_scheduler_outputs e !! v) as [c|]; [|done]. simpl in Hs.
  case_result Hs. destruct a as [[[l so] aliased] e1].
  destruct (step_schedule_single_step _ _ _ _ _ _ _ Hms E)
    as (l0 & so0 & x & Hsched & -> & -> & -> & ->).
  simpl in Hs. case_result Hs. destruct a as [output e2].
  destruct (step_execute_single_step _ _ _ (set_ext x e) _ _ Hms E0)
    as [Hms2 Hc2].
  unfold step_finish in Hs. rewrite Hms2 in Hs. simplify_eq/=.
  rewrite Hc2. eauto.
Qed.

(** X10.  Without multi-step decoding a step never reads or writes the cache:
    every step that returns has called the scheduler, its outputs are those
    that [_process_model_outputs] makes of this schedule, never deferred, and
    the cache is as it was. *)
Theorem single_step_never_caches v e outs e' :
  is_multi_step e = false ->
  step_async v e = Ok (outs, e') ->
  cached_scheduler_outputs e' = cached_scheduler_outputs e /\
  exists l so x output x1 x2,
    schedule v (ext e) = Ok (l, so, x) /\
    _process_model_outputs output so l x1 = Ok (outs, x2).
Proof.
  intros Hms Hstep. unfold step_async in Hstep. case_result Hstep.
  destruct (step_async_execute_single_step _ _ _ Hms E) as (Hms' & Hc & x & Hx).
  unfold step_async_outputs in Hstep.
  rewrite (has_remaining_steps_single_step _ _ Hms') in Hstep.
  simpl in Hstep. rewrite Hms' in Hstep. case_result Hstep.
  destruct a0 as [outs0 e2]. simpl in Hstep. case_result Hstep.
  case_result E0. destruct a1 as [outs1 x2]. simplify_eq/=.
  split; [done|]. eauto 10.
Qed.




(** X12.  Under multi-step decoding with more than one pipeline stage, the
    sampled tokens of the last sampler output of a step are what the next
    step of the virtual engine passes to the executor, until a new schedule
    is cached, which forgets them. *)
Theorem last_sampled_token_ids_round_trip v o rest e e' :
  is_multi_step e = true ->
  1 < pipeline_parallel_size e ->
  _update_cached_scheduler_output v (Some o :: rest) e = Ok e' ->
  exists last_output tokens,
    last (Some o :: rest) = Some (Some last_output) /\
    sampled_token_ids_cpu last_output = Some tokens /\
    _get_last_sampled_token_ids v e' = Ok (Some tokens) /\
    forall l so,
      _get_last_sampled_token_ids v
        (_cache_scheduler_outputs_for_multi_step v l so e') = Ok None.
Proof.
  intros Hms Hpp. unfold _update_cached_scheduler_output.
  rewrite bool_decide_true by done.
  destruct (last (Some o :: rest)) as [[lo|]|]; try done.
  case_bool_decide as Hlo; [|done]. destruct Hlo as ([t Ht] & _ & _).
  destruct (cached_scheduler_outputs e !! v) as [c|] eqn:Hc; [|done].
  intros [= <-]. exists lo, t. split; [done|]. split; [done|].
  assert (Hv : v < length (cached_scheduler_outputs e))
    by by eapply lookup_lt_Some.
  unfold _get_last_sampled_token_ids. simpl. split.
  - rewrite list_lookup_insert_eq by done. simpl.
    rewrite Hms, bool_decide_true by done. by rewrite Ht.
  - intros l so. rewrite list_lookup_alter_eq, list_lookup_insert_eq by done.
    done.
Qed.

End WithExternal.

#[local] Existing Instance example_external.

Lemma single_step_never_caches_witness :
  exists outs e',
    step_async 0 Examples.single_step_engine = Ok (outs, e') /\
    cached_scheduler_outputs e'
    = cached_scheduler_outputs Examples.single_step_engine.
Proof.
  eexists _, _. split; [reflexivity|].
  apply (single_step_never_caches 0 Examples.single_step_engine [] _);
    reflexivity.
Defined.


Lemma last_sampled_token_ids_round_trip_witness :
  exists e',
    _update_cached_scheduler_output 0
      [Some {| sampled_token_ids_cpu := Some [7%Z];
               sampled_token_ids := None; sampled_token_probs := None |}]
      Examples.two_stage_engine = Ok e' /\
    _get_last_sampled_token_ids 0 e' = Ok (Some [7%Z]).
Proof.
  eexists. split; [reflexivity|].
  destruct (last_sampled_token_ids_round_trip 0
              {| sampled_token_ids_cpu := Some [7%Z];
                 sampled_token_ids := None; sampled_token_probs := None |}
              [] Examples.two_stage_engine _ eq_refl ltac:(simpl; lia) eq_refl)
    as (lo & t & Hlast & Ht & Hget & _).
  injection Hlast as <-. injection Ht as <-. exact Hget.
Defined.

End EngineMore.

(** ** AsyncAphrodite: the life cycle and the engine step *)

Module SupervisorMore.
Import Supervisor.

Section WithExternal.
Context `{Engine.External}.



(** X14.  A loop that was started is running on a new, empty tracker over the
    streams that exist, and cannot be started a second time: the second
    call raises and changes nothing. *)
Theorem start_background_loop_once a a' :
  start_background_loop a = (a', Ok ()) ->
  is_running a' = true /\
  tracker_state a' = Some {| Tracker.heap := stream_heap a;
                             Tracker.tracker := Tracker.init |} /\
  start_background_loop a'
  = (a', Raise (RuntimeError "Background loop is already running.")).
Proof.
  unfold start_background_loop.
  destruct (errored a) eqn:Herr; [done|].
  destruct (is_running a) eqn:Hrun; [done|]. intros [= <-].
  assert (Hrun' : is_running
            {| worker_use_ray := worker_use_ray a;
               engine_use_ray := engine_use_ray a;
               log_requests := log_requests a; engine := engine a;
               background_loop := Some (length (tasks a));
               _background_loop_unshielded := Some (length (tasks a));
               start_engine_loop := start_engine_loop a;
               _errored_with := _errored_with a;
               _request_tracker := Some Tracker.init;
               stream_heap := stream_heap a;
               tasks := tasks a ++ [TaskRunning] |} = true).
  { unfold is_running. simpl. by rewrite lookup_app_r, Nat.sub_diag. }
  split; [done|]. split; [done|].
  rewrite Hrun'. by change (errored _) with (errored a); rewrite Herr.
Qed.

(** X15.  An exception of the engine that is neither a [ValueError] nor an
    instance of a subclass of it escapes [engine_step] at once: the step
    raises it, the requests after the failing one are not handed to the
    engine, and [engine_step] puts it on no stream: the tracker is as the
    requests before the failing one, and the other tasks meanwhile, left
    it. *)
Theorem engine_failure_escapes others v a st new1 nr new2 e1 st1 e2 exc :
  tracker_state a = Some st ->
  (Tracker.get_new_and_aborted_requests st).1.1 = new1 ++ nr :: new2 ->
  add_new_requests (engine_use_ray a) new1 (at_add_request others)
    (engine a, (Tracker.get_new_and_aborted_requests st).2) = (e1, st1, None) ->
  engine_add_request (engine_use_ray a) nr e1 = (e2, Some exc) ->
  is_ValueError exc = false ->
  (engine_step others v a).2 = Raise exc /\
  tracker_state (engine_step others v a).1
  = Some (Tracker.calls
            (default [] (at_add_request others !! length new1)) st1) /\
  engine (engine_step others v a).1 = e2.
Proof.
  intros Hst Hnew Hbefore Hadd Hval. unfold engine_step. rewrite Hst.
  destruct (Tracker.get_new_and_aborted_requests st) as [[new aborted] st0].
  simpl in Hnew, Hbefore. subst new.
  rewrite (SupervisorSpec.add_new_requests_at _ _ _ _ _ _ _ _ Hbefore).
  unfold add_new_request. rewrite Hadd, Hval. simpl.
  split; [done|]. split; [|done].
  apply SupervisorSpec.tracker_state_set_tracker_state.
Qed.

(** What a part of [engine_step] keeps of the tracker: its invariant, the
    queue of waiting requests and the number of streams. *)
Lemma abort_request_keeps rid e st :
  Tracker.wf st ->
  Tracker.wf (Tracker.abort_request rid e st) /\
  Tracker.pending_new (Tracker.abort_request rid e st) = Tracker.pending_new st /\
  length (Tracker.heap (Tracker.abort_request rid e st))
  = length (Tracker.heap st).
Proof.
  intros Hwf. split; [by apply TrackerSpec.wf_abort_request|].
  split; [apply TrackerSpec.abort_request_pending_new|].
  unfold Tracker.abort_request, Tracker.finish_at.
  destruct (_ !! _); simpl; [apply length_alter|done].
Qed.

Lemma abort_requests_keeps rids e st :
  Tracker.wf st ->
  let st' := fold_left (fun st rid => Tracker.abort_request rid e st) rids st in
  Tracker.wf st' /\
  Tracker.pending_new st' = Tracker.pending_new st /\
  length (Tracker.heap st') = length (Tracker.heap st).
Proof.
  revert st. induction rids as [|rid rids IH]; intros st Hwf; simpl; [done|].
  destruct (abort_request_keeps rid e st Hwf) as (Hwf1 & Hnew1 & Hlen1).
  destruct (IH _ Hwf1) as (? & -> & ->). done.
Qed.

(** With no other task at work, the loop over the new requests keeps the
    queue and the number of streams. *)
Lemma add_new_requests_keeps use_ray l e st e' st' esc :
  add_new_requests use_ray l [] (e, st) = (e', st', esc) ->
  Tracker.wf st ->
  Tracker.wf st' /\
  Tracker.pending_new st' = Tracker.pending_new st /\
  length (Tracker.heap st') = length (Tracker.heap st).
Proof.
  revert e st. induction l as [|nr l IH]; intros e st Hadd Hwf.
  { simpl in Hadd. by simplify_eq. }
  change (add_new_requests use_ray (nr :: l) [] (e, st))
    with (match add_new_request use_ray nr [] (e, st) with
          | (s', None) => add_new_requests use_ray l [] s'
          | (s', Some exc) => (s', Some exc)
          end) in Hadd.
  destruct (add_new_request use_ray nr [] (e, st)) as [[e0 st0] esc0] eqn:Hone.
  assert (Tracker.wf st0 /\
          Tracker.pending_new st0 = Tracker.pending_new st /\
          length (Tracker.heap st0) = length (Tracker.heap st))
    as (Hwf0 & Hnew0 & Hlen0).
  { unfold add_new_request in Hone. simpl in Hone.
    destruct (engine_add_request use_ray nr e) as [e1 [exc|]];
      [destruct (is_ValueError exc)|]; simplify_eq; try done.
    by apply abort_request_keeps. }
  destruct esc0 as [exc|].
  - by simplify_eq.
  - destruct (IH _ _ Hadd Hwf0) as (? & ? & ?).
    split; [done|]. split; congruence.
Qed.

Lemma grown_keeps n st st' :
  grown_from n st ->
  Tracker.wf st' ->
  Tracker.pending_new st' = Tracker.pending_new st ->
  length (Tracker.heap st') = length (Tracker.heap st) ->
  grown_from n st'.
Proof.
  intros (_ & Hlen & Hnew) Hwf' Hnew' Hlen'. split; [done|].
  split; [lia|]. intros r nr. rewrite Hnew'. apply Hnew.
Qed.

Lemma route_outputs_fold outs st finished :
  fold_left (fun '(st, finished) request_output =>
               (Tracker.process_request_output request_output st,
                finished && out_finished request_output))
            outs (st, finished)
  = (fold_left (fun st o => Tracker.process_request_output o st) outs st,
     finished && forallb out_finished outs).
Proof.
  revert st finished. induction outs as [|o outs IH]; intros st finished; simpl.
  { by rewrite andb_true_r. }
  by rewrite IH, andb_assoc.
Qed.

Lemma process_request_outputs_keeps outs st :
  Tracker.wf st ->
  let st' := fold_left (fun st o => Tracker.process_request_output o st)
                       outs st in
  Tracker.wf st' /\
  Tracker.pending_new st' = Tracker.pending_new st /\
  length (Tracker.heap st') = length (Tracker.heap st).
Proof.
  revert st. induction outs as [|o outs IH]; intros st Hwf; simpl; [done|].
  destruct (IH (Tracker.process_request_output o st)) as (? & -> & ->).
  { by apply TrackerSpec.wf_process_request_output. }
  split; [done|]. split; [done|].
  unfold Tracker.process_request_output. simpl.
  destruct (_ !! _); [apply length_alter|done].
Qed.

Lemma drain_length l d :
  length (Tracker.d_heap (fold_left Tracker.drain_one l d))
  = length (Tracker.d_heap d).
Proof.
  revert d. induction l as [|[r nr] l IH]; intros d; simpl; [done|].
  rewrite IH. unfold Tracker.drain_one.
  destruct (Tracker.d_heap d !! r); [|done].
  case_bool_decide; simpl; [apply length_alter|done].
Qed.

(** X16.  The outputs of a step go to the streams in their order, and the step
    reports requests in progress exactly when one of its outputs is not
    finished; a step without outputs reports none. *)
Theorem route_outputs_spec outs st :
  route_outputs outs st
  = (Tracker.calls (Tracker.CallOutput <$> outs) st,
     forallb out_finished outs).
Proof.
  unfold route_outputs. rewrite route_outputs_fold. f_equal.
  unfold Tracker.calls. revert st.
  induction outs as [|o outs IH]; intros st; simpl; [done|]. apply IH.
Qed.

Lemma grown_call n st c : grown_from n st -> grown_from n (Tracker.call st c).
Proof.
  intros Hg. pose proof Hg as (Hwf & Hlen & Hnew).
  pose proof (TrackerSpec.wf_call c st Hwf) as Hwf'.
  destruct c; simpl in *.
  - unfold Tracker.add_request in *. case_bool_decide; [done|].
    split; [done|]. simpl. rewrite length_app. split; [lia|].
    intros r nr [Hin|Hin]%elem_of_app; [by eapply Hnew|].
    apply list_elem_of_singleton in Hin. injection Hin as -> _. done.
  - by apply (grown_keeps n st); try apply abort_request_keeps.
  - split; [done|]. split; [|by intros r nr Hin; apply elem_of_nil in Hin].
    simpl. unfold Tracker.drain_loop. by rewrite drain_length.
  - by apply (grown_keeps n st);
      try apply (process_request_outputs_keeps [request_output]).
  - by apply (grown_keeps n st); try apply abort_request_keeps.
  - destruct request_id; simpl in *.
    + by apply (grown_keeps n st); try apply abort_request_keeps.
    + by apply (grown_keeps n st); try apply abort_requests_keeps.
  - unfold Tracker.wait_for_new_requests in *.
    destruct (_ || _); simpl in *; [|done].
    by apply (grown_keeps n st).
  - destruct (Tracker.generator_next stream st) as [[o st']|] eqn:E;
      simpl in *; [|done].
    apply TrackerSpec.generator_next_Some in E as (s0 & s' & Hs0 & Hnext & ->).
    apply (grown_keeps n st); try done. simpl. apply length_insert.
  - unfold Tracker.generator_exit in *.
    destruct suspension, (Tracker.heap st !! stream); try done.
    by apply (grown_keeps n st); try apply abort_request_keeps.
Qed.

Lemma grown_calls n cs st :
  grown_from n st -> grown_from n (Tracker.calls cs st).
Proof.
  revert st. induction cs as [|c cs IH]; intros st Hg; simpl; [done|].
  by apply IH, grown_call.
Qed.

Lemma add_new_requests_grown use_ray l others e st e' st' esc n :
  add_new_requests use_ray l others (e, st) = (e', st', esc) ->
  grown_from n st -> grown_from n st'.
Proof.
  revert others e st. induction l as [|nr l IH]; intros others e st Hadd Hg;
    cbn [add_new_requests] in Hadd.
  { by simplify_eq. }
  destruct (add_new_request use_ray nr _ (e, st)) as [[e0 st0] esc0] eqn:Hone.
  assert (Hg0 : grown_from n st0).
  { unfold add_new_request in Hone.
    pose proof (grown_calls n (default [] (head others)) st Hg) as Hg'.
    destruct (engine_add_request use_ray nr e) as [e1 [exc|]];
      [destruct (is_ValueError exc)|]; simplify_eq; try done.
    apply (grown_keeps n _ _ Hg'); apply abort_request_keeps, Hg'. }
  destruct esc0 as [exc|]; [by simplify_eq|]. by eapply IH.
Qed.

Lemma tracker_state_set_engine e st a :
  tracker_state (set_engine e (set_tracker_state st a)) = Some st.
Proof. by destruct st. Qed.

(** Where [engine_step] leaves the tracker, whatever the other tasks do. *)
Lemma engine_step_grown others v a st :
  tracker_state a = Some st ->
  Tracker.wf st ->
  exists st',
    tracker_state (engine_step others v a).1 = Some st' /\
    grown_from (length (Tracker.heap st)) st'.
Proof.
  intros Hst Hwf. unfold engine_step. rewrite Hst.
  assert (Hg0 : grown_from (length (Tracker.heap st))
                  (Tracker.get_new_and_aborted_requests st).2).
  { split; [by apply TrackerSpec.wf_drain|]. split.
    - simpl. unfold Tracker.drain_loop. by rewrite drain_length.
    - intros r nr Hin. by apply elem_of_nil in Hin. }
  destruct (Tracker.get_new_and_aborted_requests st) as [[new aborted] st0].
  simpl in Hg0.
  destruct (add_new_requests _ new _ (engine a, st0))
    as [[e1 st1] esc] eqn:Hadd.
  pose proof (add_new_requests_grown _ _ _ _ _ _ _ _ _ Hadd Hg0) as Hg1.
  destruct esc as [exc|].
  { exists st1. simpl. by rewrite tracker_state_set_engine. }
  cbv zeta.
  set (st2 := if _ || _ then st1 else _).
  assert (Hg2 : grown_from (length (Tracker.heap st)) st2).
  { unfold st2. destruct (_ || _); [done|by apply grown_calls]. }
  clearbody st2.
  destruct (if bool_decide (aborted = ∅) then _ else _) as [x|exc].
  2:{ exists st2. simpl. by rewrite tracker_state_set_engine. }
  pose proof (grown_calls _ (at_step others) _ Hg2) as Hg3.
  destruct (if engine_use_ray _ then _ else _) as [[outs e2]|exc].
  2:{ eexists. simpl. split; [apply tracker_state_set_engine|done]. }
  unfold route_outputs. rewrite route_outputs_fold.
  destruct (process_request_outputs_keeps outs _ (proj1 Hg3))
    as (Hwf4 & Hnew4 & Hlen4).
  eexists. simpl. split; [apply tracker_state_set_engine|].
  by apply (grown_keeps _ _ _ Hg3).
Qed.

(** Where it leaves it when no other task is at work. *)
Lemma engine_step_alone v a st :
  tracker_state a = Some st ->
  Tracker.wf st ->
  exists st',
    tracker_state (engine_step no_awaits v a).1 = Some st' /\
    Tracker.pending_new st' = [] /\
    length (Tracker.heap st') = length (Tracker.heap st).
Proof.
  intros Hst Hwf. unfold engine_step, no_awaits. rewrite Hst.
  cbn [at_add_request at_engine_abort at_step].
  pose proof (TrackerSpec.wf_drain st Hwf) as Hwf0.
  assert (Hlen0 : length (Tracker.heap (Tracker.get_new_and_aborted_requests st).2)
                  = length (Tracker.heap st)) by apply drain_length.
  assert (Hnew0 : Tracker.pending_new (Tracker.get_new_and_aborted_requests st).2
                  = []) by done.
  destruct (Tracker.get_new_and_aborted_requests st) as [[new aborted] st0].
  simpl in Hwf0, Hlen0, Hnew0.
  destruct (add_new_requests (engine_use_ray a) new [] (engine a, st0))
    as [[e1 st1] esc] eqn:Hadd.
  destruct (add_new_requests_keeps _ _ _ _ _ _ _ Hadd Hwf0)
    as (Hwf1 & Hnew1 & Hlen1).
  destruct esc as [exc|].
  { exists st1. simpl. rewrite tracker_state_set_engine. split; [done|].
    split; congruence. }
  cbv zeta.
  set (st2 := if _ || _ then st1 else _).
  assert (Hst2 : st2 = st1) by (unfold st2; by destruct (_ || _)).
  clearbody st2. subst st2.
  destruct (if bool_decide (aborted = ∅) then _ else _) as [x|exc].
  2:{ exists st1. simpl. rewrite tracker_state_set_engine. split; [done|].
      split; congruence. }
  change (Tracker.calls [] st1) with st1.
  destruct (if engine_use_ray _ then _ else _) as [[outs e2]|exc].
  2:{ exists st1. simpl. rewrite tracker_state_set_engine. split; [done|].
      split; congruence. }
  unfold route_outputs. rewrite route_outputs_fold.
  destruct (process_request_outputs_keeps outs st1 Hwf1) as (Hwf2 & Hnew2 & Hlen2).
  eexists. simpl. split; [apply tracker_state_set_engine|].
  split; congruence.
Qed.

(** X17.  Whatever [engine_step] does, whether it returns or raises, and
    whatever the other tasks do while it is suspended, it leaves the
    tracker in a state where every registered stream is a live, unfinished
    stream under its own id and no stream has left the store; a request
    that still waits in the queue was submitted while the step was
    suspended (its stream did not exist when the step began).  When no
    other task is at work, no request waits in the queue and the store has
    the streams it had. *)
Theorem engine_step_keeps_tracker others v a st :
  tracker_state a = Some st ->
  Tracker.wf st ->
  exists st',
    tracker_state (engine_step others v a).1 = Some st' /\
    Tracker.wf st' /\
    length (Tracker.heap st) <= length (Tracker.heap st') /\
    (forall r nr, (r, nr) ∈ Tracker.pending_new st' ->
                  length (Tracker.heap st) <= r) /\
    (others = no_awaits ->
     Tracker.pending_new st' = [] /\
     length (Tracker.heap st') = length (Tracker.heap st)).
Proof.
  intros Hst Hwf.
  destruct (engine_step_grown others v a st Hst Hwf)
    as (st' & Hst' & Hwf' & Hlen & Hnew).
  exists st'. split; [done|]. split; [done|]. split; [done|].
  split; [done|]. intros ->.
  destruct (engine_step_alone v a st Hst Hwf) as (st'' & Hst'' & Hquiet).
  rewrite Hst' in Hst''. by injection Hst'' as <-.
Qed.



End WithExternal.


Lemma start_background_loop_once_witness :
  @is_running Engine.example_external example_supervisor = true.
Proof.
  apply (@start_background_loop_once Engine.example_external
           (@init Engine.example_external false false true true
                  Engine.example_engine) example_supervisor).
  reflexivity.
Defined.

Lemma engine_failure_escapes_witness :
  let others :=
    {| at_add_request := [[Tracker.CallAbort "r2" (Some CancelledError)]];
       at_engine_abort := []; at_step := [] |} in
  (@engine_step Examples.failing_external others 0
     Examples.failing_supervisor).2
  = Raise (RuntimeError "nccl").
Proof.
  apply (@engine_failure_escapes Examples.failing_external
           {| at_add_request := [[Tracker.CallAbort "r2" (Some CancelledError)]];
              at_engine_abort := []; at_step := [] |} 0
           Examples.failing_supervisor _ [] _ _ _ _ _ _
           eq_refl eq_refl eq_refl eq_refl eq_refl).
Defined.

Lemma engine_step_keeps_tracker_witness :
  let others :=
    {| at_add_request := []; at_engine_abort := [];
       at_step := [Tracker.CallAdd "r3" Tracker.kwargs0] |} in
  exists st',
    @tracker_state Engine.example_external
      (fst (@engine_step Engine.example_external others 0
              example_supervisor_live))
    = Some st' /\
    Tracker.wf st' /\
    (forall r nr, (r, nr) ∈ Tracker.pending_new st' -> 2 <= r).
Proof.
  destruct (@engine_step_keeps_tracker Engine.example_external
              {| at_add_request := []; at_engine_abort := [];
                 at_step := [Tracker.CallAdd "r3" Tracker.kwargs0] |} 0
              example_supervisor_live two_live eq_refl)
    as (st' & Hst' & Hwf' & _ & Hnew & _).
  - apply TrackerSpec.wf_calls, TrackerSpec.wf_init.
  - by exists st'.
Defined.


End SupervisorMore.

(** ** The choice of the executor *)

Module ExecutorSpec.
Import Executor.

(** X18.  The Ray cluster is initialised exactly when the function returns an
    executor that runs on Ray; in particular never when it raises. *)
Theorem ray_cluster_iff_ray_executor device_type backend :
  (_get_executor_cls device_type backend).1 = true <->
  exists c, (_get_executor_cls device_type backend).2 = Ok c /\ on_ray c = true.
Proof.
  unfold _get_executor_cls.
  destruct backend as [|name|name [|] [|]]; simpl;
    repeat (case_bool_decide; simpl);
    (split; [intros Hray; try discriminate Hray; by eexists
            |intros (c & Hc & Hon); by simplify_eq/=]).
Qed.

(** X19.  The function raises exactly on a class that is not an asynchronous
    executor, and on a backend named by a string where the device takes
    none: any name on OpenVINO, any name but [ray] on TPU and XPU.  Neuron
    and CPU take every name, and so does the GPU default. *)
Theorem executor_rejected_iff device_type backend :
  (exists exc, (_get_executor_cls device_type backend).2 = Raise exc) <->
  rejected device_type backend = true.
Proof.
  unfold _get_executor_cls, rejected.
  destruct backend as [|name|name [|] [|]]; simpl;
    repeat (case_bool_decide; simplify_eq/=);
    (split; [intros [exc Hexc]; by simplify_eq/=
            |intros Hrej; try discriminate Hrej; by eexists]).
Qed.

End ExecutorSpec.

(** ** The prompts of a request *)

Module InputsSpec.
Import Inputs.

Section WithEngine.
Variable LLMInputs : Type.
Variable is_explicit_encoder_decoder_prompt : PromptInputs -> bool.
Variable _build_enc_dec_llm_inputs :
  PromptComponents -> DecoderPromptComponents -> Result LLMInputs.
Variable _build_decoder_only_llm_inputs :
  PromptComponents -> option string -> Result LLMInputs.
Variable input_processor : LLMInputs -> Result LLMInputs.

(** X20.  A prompt that comes with its token ids is not tokenized: for a
    decoder-only model the result is built from these ids and the
    multi-modal data, whatever the tokenizer and the adapter are, and the
    text of the prompt, if there is one beside the ids, is dropped. *)
Theorem token_ids_skip_the_tokenizer encode_async prompt ids multi_modal_data
    encoder_prompt decoder_prompt request_id lora_request
    prompt_adapter_request :
  let inputs := InputDict prompt (Some ids) multi_modal_data
                          encoder_prompt decoder_prompt in
  is_explicit_encoder_decoder_prompt inputs = false ->
  process_model_inputs_async LLMInputs encode_async false
    is_explicit_encoder_decoder_prompt _build_enc_dec_llm_inputs
    _build_decoder_only_llm_inputs input_processor
    inputs request_id lora_request prompt_adapter_request
  = (model_inputs ← _build_decoder_only_llm_inputs
                      (None, ids, multi_modal_data) prompt_adapter_request;
     input_processor model_inputs).
Proof.
  intros inputs Hexplicit. unfold process_model_inputs_async.
  by rewrite Hexplicit.
Qed.

(** X21.  For an encoder/decoder model the adapters of the request play no part:
    the prompts are tokenized without LoRA and the result is the same for
    every [lora_request] and [prompt_adapter_request]. *)
Theorem encoder_decoder_ignores_adapters encode_async inputs request_id
    lora_request prompt_adapter_request :
  process_model_inputs_async LLMInputs encode_async true
    is_explicit_encoder_decoder_prompt _build_enc_dec_llm_inputs
    _build_decoder_only_llm_inputs input_processor
    inputs request_id lora_request prompt_adapter_request
  = process_model_inputs_async LLMInputs
      (fun request_id prompt _ => encode_async request_id prompt None) true
      is_explicit_encoder_decoder_prompt _build_enc_dec_llm_inputs
      _build_decoder_only_llm_inputs input_processor
      inputs request_id None None.
Proof.
  unfold process_model_inputs_async, _process_encoder_decoder_prompt_async.
  assert (Hextract : forall p,
    _extract_prompt_components_async encode_async p request_id None
    = _extract_prompt_components_async
        (fun request_id prompt _ => encode_async request_id prompt None)
        p request_id None).
  { by intros [?|[?|] [?|] ?]. }
  destruct (is_explicit_encoder_decoder_prompt inputs).
  - destruct (get_encoder_prompt inputs) as [enc|]; [|done]. simpl.
    destruct (get_decoder_prompt inputs) as [[dec|]|]; [| |done]; simpl;
      by rewrite ?Hextract.
  - by rewrite Hextract.
Qed.

(** X22.  The prompts that are refused.  A decoder-only model refuses an explicit
    encoder/decoder prompt with a [ValueError], before anything is
    tokenized or built; a dict that has neither [prompt_token_ids] nor
    [prompt] fails with the [KeyError] of the missing [prompt]; and an
    error of the tokenizer is the error of the call. *)
Theorem refused_prompts encode_async inputs request_id lora_request
    prompt_adapter_request :
  let process := process_model_inputs_async LLMInputs encode_async false
    is_explicit_encoder_decoder_prompt _build_enc_dec_llm_inputs
    _build_decoder_only_llm_inputs input_processor in
  (is_explicit_encoder_decoder_prompt inputs = true ->
   process inputs request_id lora_request prompt_adapter_request
   = Raise (ValueError
              "Cannot pass encoder-decoder prompt to decoder-only models")) /\
  (is_explicit_encoder_decoder_prompt inputs = false ->
   (forall multi_modal_data encoder_prompt decoder_prompt,
      inputs = InputDict None None multi_modal_data encoder_prompt
                         decoder_prompt ->
      process inputs request_id lora_request prompt_adapter_request
      = Raise (KeyError "prompt")) /\
   (forall prompt exc,
      (inputs = InputStr prompt \/
       exists multi_modal_data encoder_prompt decoder_prompt,
         inputs = InputDict (Some prompt) None multi_modal_data
                            encoder_prompt decoder_prompt) ->
      encode_async request_id prompt lora_request = Raise exc ->
      process inputs request_id lora_request prompt_adapter_request
      = Raise exc)).
Proof.
  intros process. unfold process, process_model_inputs_async. split.
  - by intros ->.
  - intros ->. split.
    + by intros ??? ->.
    + intros prompt exc [->|(?&?&?&->)] Henc;
        unfold _process_decoder_only_prompt_async,
          _extract_prompt_components_async, _tokenize_prompt_async; simpl;
        by rewrite Henc.
Qed.

End WithEngine.

Lemma token_ids_skip_the_tokenizer_witness :
  process_model_inputs_async PromptComponents example_encode false
    (fun _ => false) (fun enc _ => Ok enc) (fun comps _ => Ok comps)
    (fun model_inputs => Ok model_inputs)
    (InputDict (Some "hello") (Some [1%Z; 2%Z]) None None None)
    "r1" (Some "adapter") None
  = Ok (None, [1%Z; 2%Z], None).
Proof.
  apply (token_ids_skip_the_tokenizer PromptComponents (fun _ => false)
           (fun enc _ => Ok enc) (fun comps _ => Ok comps)
           (fun model_inputs => Ok model_inputs) example_encode
           (Some "hello") [1%Z; 2%Z] None None None "r1" (Some "adapter") None).
  reflexivity.
Defined.

Lemma refused_prompts_witness :
  process_model_inputs_async PromptComponents example_encode false
    (fun inputs => match inputs with
                   | InputDict _ _ _ (Some _) _ => true
                   | _ => false
                   end)
    (fun enc _ => Ok enc) (fun comps _ => Ok comps)
    (fun model_inputs => Ok model_inputs)
    (InputDict None None None (Some (SingletonStr "hello")) (Some None))
    "r1" None None
  = Raise (ValueError
             "Cannot pass encoder-decoder prompt to decoder-only models").
Proof.
  apply (refused_prompts PromptComponents
           (fun inputs => match inputs with
                          | InputDict _ _ _ (Some _) _ => true
                          | _ => false
                          end)
           (fun enc _ => Ok enc) (fun comps _ => Ok comps)
           (fun model_inputs => Ok model_inputs) example_encode
           (InputDict None None None (Some (SingletonStr "hello")) (Some None))
           "r1" None None).
  reflexivity.
Defined.

End InputsSpec.
